(** * Puzzle generator: jigsaw sudoku (9x9) and mini sudoku (6x6)

    Shallow embedding of [jigsaw_sudoku.py] and [MiniSudokuGenerator6x6.py]
    and the properties of their region generator, solvers and reducers.

    Python integers are [Z]; loop indices produced by [range] are [nat];
    a grid is a list of rows.  The process-wide random generator is an
    explicit stream of draws threaded through every function that uses
    [random]. *)

From Stdlib Require Import List ZArith Lia Bool Arith Permutation.
Import ListNotations.
Local Open Scope Z_scope.

(* ================================================================== *)
(** * Shared data: cells, grids, outcomes *)

Definition Cell : Type := (nat * nat)%type.

Definition Grid : Type := list (list Z).

(** [l[i] = v]; the index is in range wherever the programs assign. *)
Fixpoint upd {A : Type} (i : nat) (v : A) (l : list A) : list A :=
  match l, i with
  | [], _ => []
  | _ :: t, O => v :: t
  | h :: t, S i' => h :: upd i' v t
  end.

(** [g[r][c]] *)
Definition get (g : Grid) (r c : nat) : Z := nth c (nth r g []) 0.

(** [g[r][c] = v] *)
Definition set_cell (g : Grid) (r c : nat) (v : Z) : Grid :=
  upd r (upd c v (nth r g [])) g.

Definition cell_eqb (a b : Cell) : bool :=
  (fst a =? fst b)%nat && (snd a =? snd b)%nat.

(** [[(r, c) for r in range(n) for c in range(n)]] *)
Definition cells_of (n : nat) : list Cell :=
  flat_map (fun r => map (fun c => (r, c)) (seq 0 n)) (seq 0 n).

(** [[[v] * n for _ in range(n)]] *)
Definition const_grid (n : nat) (v : Z) : Grid := repeat (repeat v n) n.

Definition wf_gridb (n : nat) (g : Grid) : bool :=
  (length g =? n)%nat && forallb (fun row => (length row =? n)%nat) g.

Definition wf_grid (n : nat) (g : Grid) : Prop :=
  length g = n /\ Forall (fun row => length row = n) g.

(** Number of cells holding [0]. *)
Definition empties (g : Grid) : nat :=
  length (filter (fun v => v =? 0) (concat g)).

(** Number of clues: the cells holding something else than [0]. *)
Definition clues (g : Grid) : nat :=
  length (filter (fun v => negb (v =? 0)) (concat g)).

(** How a call ends: a value, or one of the two exceptions the programs
    can raise. *)
Inductive outcome (A : Type) : Type :=
| Ok (a : A)
| RuntimeError
| IndexError.
Arguments Ok {A} a.
Arguments RuntimeError {A}.
Arguments IndexError {A}.

(* ================================================================== *)
(** * The random generator *)

Module Rand.

(** The future draws of the generator; an exhausted stream draws 0. *)
Definition Rng : Type := list nat.

(** [random._randbelow(n)] *)
Definition randbelow (n : nat) (g : Rng) : nat * Rng :=
  match g with
  | [] => (O, [])
  | k :: g' => (k mod n, g')%nat
  end.

(** [random.random()]: the drawn numerator of the float in [0,1). *)
Definition random (g : Rng) : nat * Rng :=
  match g with
  | [] => (O, [])
  | k :: g' => (k, g')
  end.

(** [x[i], x[j] = x[j], x[i]] *)
Definition swap {A : Type} (x : list A) (i j : nat) : list A :=
  match nth_error x i, nth_error x j with
  | Some a, Some b => upd j a (upd i b x)
  | _, _ => x
  end.

(** The loop of [random.shuffle]:
    [for i in reversed(range(1, len(x))): j = randbelow(i + 1); swap]. *)
Fixpoint shuffle_from {A : Type} (i : nat) (x : list A) (g : Rng)
  : list A * Rng :=
  match i with
  | O => (x, g)
  | S i' =>
      let (j, g') := randbelow (S i) g in
      shuffle_from i' (swap x i j) g'
  end.

Definition shuffle {A : Type} (x : list A) (g : Rng) : list A * Rng :=
  shuffle_from (length x - 1) x g.

(** [random.choices(population, k=k)] as the indices drawn. *)
Fixpoint choices (size k : nat) (g : Rng) : list nat * Rng :=
  match k with
  | O => ([], g)
  | S k' =>
      let (i, g1) := randbelow size g in
      let (rest, g2) := choices size k' g1 in
      (i :: rest, g2)
  end.

End Rand.
Import Rand.

(* ================================================================== *)
(** * jigsaw_sudoku.py *)

Module Jigsaw.

Definition GRID_SIZE : nat := 9.

Definition DIGITS : list Z := map Z.of_nat (seq 1 GRID_SIZE).

Definition FOUR_NEIGHBORS : list (Z * Z) := [(1, 0); (-1, 0); (0, 1); (0, -1)].

(** [DIFFICULTY_GIVENS]: a dict, [None] where the key is absent. *)
Definition DIFFICULTY_GIVENS (d : Z) : option Z :=
  if d =? 1 then Some 45
  else if d =? 2 then Some 40
  else if d =? 3 then Some 36
  else if d =? 4 then Some 32
  else if d =? 5 then Some 28
  else if d =? 6 then Some 26
  else None.

Definition region_index (regions : Grid) (r c : nat) : Z := get regions r c.

Definition nonzero (v : Z) : bool := negb (v =? 0).

(** The [used] set of [compute_candidates], as the list of everything
    added to it. *)
Definition used_values (grid regions : Grid) (r c : nat) : list Z :=
  let ridx := region_index regions r c in
  filter nonzero (nth r grid [])
  ++ filter nonzero (map (fun i => get grid i c) (seq 0 GRID_SIZE))
  ++ flat_map (fun rr =>
       flat_map (fun cc =>
         if (get regions rr cc =? ridx) && nonzero (get grid rr cc)
         then [get grid rr cc] else [])
         (seq 0 GRID_SIZE))
       (seq 0 GRID_SIZE).

Definition compute_candidates (grid regions : Grid) (r c : nat) : list Z :=
  if nonzero (get grid r c) then []
  else
    let used := used_values grid regions r c in
    filter (fun d => negb (existsb (Z.eqb d) used)) DIGITS.

(** The double loop of [find_unassigned_with_mrv] over the cells still
    to scan: [inl] is the early [return (r, c, [])], [inr] the value of
    [best]/[best_cands] when the loops run to their end. *)
Fixpoint mrv_scan (grid regions : Grid) (todo : list Cell)
    (best : option (Cell * list Z)) : Cell + option (Cell * list Z) :=
  match todo with
  | [] => inr best
  | (r, c) :: rest =>
      if get grid r c =? 0 then
        let cands := compute_candidates grid regions r c in
        match cands with
        | [] => inl (r, c)
        | _ :: _ =>
            let best' :=
              match best with
              | None => Some ((r, c), cands)
              | Some (_, best_cands) =>
                  if (length cands <? length best_cands)%nat
                  then Some ((r, c), cands) else best
              end in
            mrv_scan grid regions rest best'
        end
      else mrv_scan grid regions rest best
  end.

Definition find_unassigned_with_mrv (grid regions : Grid) (rng : Rng)
  : option (nat * nat * list Z) * Rng :=
  match mrv_scan grid regions (cells_of GRID_SIZE) None with
  | inl (r, c) => (Some (r, c, []), rng)
  | inr None => (None, rng)
  | inr (Some ((r, c), best_cands)) =>
      let (shuffled, rng') := shuffle best_cands rng in
      (Some (r, c, shuffled), rng')
  end.

(** The [for d in cands] loop of [solve_backtracking.dfs]; [rec] is the
    recursive call [dfs()] on the current grid. *)
Fixpoint try_cands (rec : Grid -> Rng -> option (bool * Grid * Rng))
    (r c : nat) (cands : list Z) (g : Grid) (rng : Rng)
  : option (bool * Grid * Rng) :=
  match cands with
  | [] => Some (false, g, rng)
  | d :: ds =>
      match rec (set_cell g r c d) rng with
      | None => None
      | Some (true, g', rng') => Some (true, g', rng')
      | Some (false, g', rng') => try_cands rec r c ds (set_cell g' r c 0) rng'
      end
  end.

(** [solve_backtracking.dfs]; [None] only when [fuel] (the recursion
    depth allowed) runs out. *)
Fixpoint dfs (fuel : nat) (regions g : Grid) (rng : Rng)
  : option (bool * Grid * Rng) :=
  match fuel with
  | O => None
  | S fuel' =>
      match find_unassigned_with_mrv g regions rng with
      | (None, rng1) => Some (true, g, rng1)
      | (Some (r, c, cands), rng1) =>
          match cands with
          | [] => Some (false, g, rng1)
          | _ :: _ => try_cands (dfs fuel' regions) r c cands g rng1
          end
      end
  end.

(** [solve_backtracking]: works on a copy [g]; one level of recursion per
    empty cell plus the final call. *)
Definition solve_backtracking (grid regions : Grid) (rng : Rng)
  : option (option Grid * Rng) :=
  match dfs (S (empties grid)) regions grid rng with
  | None => None
  | Some (true, g, rng') => Some (Some g, rng')
  | Some (false, _, rng') => Some (None, rng')
  end.

(** The [for d in cands] loop of [count_solutions.dfs]. *)
Fixpoint count_cands
    (rec : Grid -> Z -> Rng -> option (bool * Grid * Z * Rng))
    (limit : Z) (r c : nat) (cands : list Z) (g : Grid) (count : Z)
    (rng : Rng) : option (bool * Grid * Z * Rng) :=
  match cands with
  | [] => Some (false, g, count, rng)
  | d :: ds =>
      match rec (set_cell g r c d) count rng with
      | None => None
      | Some (b, g', count', rng') =>
          if b && (limit <=? count') then Some (true, g', count', rng')
          else count_cands rec limit r c ds (set_cell g' r c 0) count' rng'
      end
  end.

(** [count_solutions.dfs] with its [nonlocal count] passed through. *)
Fixpoint count_dfs (fuel : nat) (regions : Grid) (limit : Z) (g : Grid)
    (count : Z) (rng : Rng) : option (bool * Grid * Z * Rng) :=
  match fuel with
  | O => None
  | S fuel' =>
      if limit <=? count then Some (true, g, count, rng)
      else
        match find_unassigned_with_mrv g regions rng with
        | (None, rng1) =>
            let count' := count + 1 in
            Some (limit <=? count', g, count', rng1)
        | (Some (r, c, cands), rng1) =>
            match cands with
            | [] => Some (false, g, count, rng1)
            | _ :: _ =>
                count_cands (count_dfs fuel' regions limit) limit r c cands
                  g count rng1
            end
        end
  end.

Definition count_solutions (grid regions : Grid) (limit : Z) (rng : Rng)
  : option (Z * Rng) :=
  match count_dfs (S (empties grid)) regions limit grid 0 rng with
  | None => None
  | Some (_, _, count, rng') => Some (count, rng')
  end.

(** The retry loop of [generate_full_solution]:
    [while sol is None and tries < 5]. *)
Fixpoint retry_solution (tries_left : nat) (empty regions : Grid)
    (sol : option Grid) (rng : Rng) : option (option Grid * Rng) :=
  match sol, tries_left with
  | Some _, _ => Some (sol, rng)
  | None, O => Some (None, rng)
  | None, S k =>
      match solve_backtracking empty regions rng with
      | None => None
      | Some (sol', rng') => retry_solution k empty regions sol' rng'
      end
  end.

Definition generate_full_solution (regions : Grid) (rng : Rng)
  : option (outcome Grid * Rng) :=
  let empty := const_grid GRID_SIZE 0 in
  match solve_backtracking empty regions rng with
  | None => None
  | Some (sol, rng1) =>
      match retry_solution 5 empty regions sol rng1 with
      | None => None
      | Some (Some g, rng2) => Some (Ok g, rng2)
      | Some (None, rng2) => Some (RuntimeError, rng2)
      end
  end.

(** The [for r, c in cells] loop of [generate_puzzle_from_solution]. *)
Fixpoint reduce_loop (regions : Grid) (target_givens : Z)
    (cells : list Cell) (grid : Grid) (current_givens : Z) (rng : Rng)
  : option (Grid * Z * Rng) :=
  match cells with
  | [] => Some (grid, current_givens, rng)
  | (r, c) :: rest =>
      if current_givens <=? target_givens
      then Some (grid, current_givens, rng)
      else
        let saved := get grid r c in
        let grid1 := set_cell grid r c 0 in
        match count_solutions grid1 regions 2 rng with
        | None => None
        | Some (sols, rng1) =>
            if sols =? 1
            then reduce_loop regions target_givens rest grid1
                   (current_givens - 1) rng1
            else reduce_loop regions target_givens rest
                   (set_cell grid1 r c saved) current_givens rng1
        end
  end.

Definition generate_puzzle_from_solution (solution regions : Grid)
    (target_givens : Z) (rng : Rng) : option (Grid * Rng) :=
  let grid := solution in
  let (cells, rng1) := shuffle (cells_of GRID_SIZE) rng in
  let current_givens := Z.of_nat (GRID_SIZE * GRID_SIZE) in
  match reduce_loop regions target_givens cells grid current_givens rng1 with
  | None => None
  | Some (grid', _, rng') => Some (grid', rng')
  end.

(* ---------------------------------------------------------------- *)
(** ** Region generation *)

Definition in_bounds (r c : Z) : bool :=
  (0 <=? r) && (r <? Z.of_nat GRID_SIZE)
  && (0 <=? c) && (c <? Z.of_nat GRID_SIZE).

(** The in-bounds four-neighbours of a cell that [reg_of] still maps to
    [-1], in the order of [FOUR_NEIGHBORS]. *)
Definition free_neighbors (reg_of : Grid) (cell : Cell) : list Cell :=
  flat_map (fun d : Z * Z =>
    let nr := Z.of_nat (fst cell) + fst d in
    let nc := Z.of_nat (snd cell) + snd d in
    if in_bounds nr nc && (get reg_of (Z.to_nat nr) (Z.to_nat nc) =? -1)
    then [(Z.to_nat nr, Z.to_nat nc)] else [])
    FOUR_NEIGHBORS.

(** [if (nr, nc) not in seen: seen.add((nr, nc)); f.append((nr, nc))] *)
Definition add_unseen (f : list Cell) (x : Cell) : list Cell :=
  if existsb (cell_eqb x) f then f else f ++ [x].

Definition frontier (idx : nat) (regs : list (list Cell)) (reg_of : Grid)
    (rng : Rng) : list Cell * Rng :=
  let f := fold_left add_unseen
             (flat_map (free_neighbors reg_of) (nth idx regs [])) [] in
  shuffle f rng.

Definition standard_box_mapping (r c : nat) : Z :=
  Z.of_nat ((r / 3) * 3 + c / 3).

Definition not_standard (mat : Grid) : bool :=
  existsb (fun rc : Cell =>
             negb (get mat (fst rc) (snd rc)
                   =? standard_box_mapping (fst rc) (snd rc)))
          (cells_of GRID_SIZE).

(** Position of Python index [i] in a list of length [len]; negative
    indices count from the end. *)
Definition py_pos (len : nat) (i : Z) : option nat :=
  if (0 <=? i) && (i <? Z.of_nat len) then Some (Z.to_nat i)
  else if (i <? 0) && (- Z.of_nat len <=? i)
       then Some (Z.to_nat (Z.of_nat len + i))
       else None.

(** [s.add(b)] on a set kept as a duplicate-free list. *)
Definition set_add (b : Z) (s : list Z) : list Z :=
  if existsb (Z.eqb b) s then s else b :: s.

(** [boxsets[ridx].add(standard_box_mapping(r, c))] for every cell. *)
Definition boxsets_of (mat : Grid) : list (list Z) :=
  fold_left (fun boxsets rc =>
    match py_pos (length boxsets) (get mat (fst rc) (snd rc)) with
    | Some k =>
        upd k (set_add (standard_box_mapping (fst rc) (snd rc))
                       (nth k boxsets [])) boxsets
    | None => boxsets
    end)
    (cells_of GRID_SIZE) (repeat [] GRID_SIZE).

Definition cross_count (mat : Grid) : nat :=
  length (filter (fun s => (2 <=? length s)%nat) (boxsets_of mat)).

Definition regions_cross_boxes (mat : Grid) (min_cross : nat) : bool :=
  (min_cross <=? cross_count mat)%nat.

(** Insertion into a list sorted by the key [(len, i)], the tuple order
    [sorted] uses. *)
Fixpoint insert_by_len (k : nat * nat) (l : list (nat * nat))
  : list (nat * nat) :=
  match l with
  | [] => [k]
  | h :: t =>
      if ((fst k <? fst h) || ((fst k =? fst h) && (snd k <=? snd h)))%nat
      then k :: l else h :: insert_by_len k t
  end.

(** [order = [i for _, i in sorted((len(regions[i]), i) for i in order)]] *)
Definition sort_order (regions : list (list Cell)) (order : list nat)
  : list nat :=
  map snd (fold_right insert_by_len []
             (map (fun i => (length (nth i regions []), i)) order)).

(** A candidate's score: its count of free neighbours and the numerator
    of the random jitter added to it.  The jitter stays below 0.1, so
    scores compare by the count first and by the jitter on equal
    counts. *)
Definition score_gt (s best : Z * nat) : bool :=
  (fst best <? fst s) || ((fst s =? fst best) && (snd best <? snd s)%nat).

(** The [for nr, nc in f] loop choosing [best_cell]. *)
Fixpoint pick_best (reg_of : Grid) (f : list Cell)
    (best_cell : option Cell) (best_score : Z * nat) (rng : Rng)
  : option Cell * Rng :=
  match f with
  | [] => (best_cell, rng)
  | cell :: rest =>
      let count := Z.of_nat (length (free_neighbors reg_of cell)) in
      let (jitter, rng1) := random rng in
      let score := (count, jitter) in
      if score_gt score best_score
      then pick_best reg_of rest (Some cell) score rng1
      else pick_best reg_of rest best_cell best_score rng1
  end.

(** One run of [for idx in order] inside the growth loop. *)
Fixpoint grow_pass (order : list nat) (regions : list (list Cell))
    (region_of : Grid) (made_progress : bool) (rng : Rng)
  : list (list Cell) * Grid * bool * Rng :=
  match order with
  | [] => (regions, region_of, made_progress, rng)
  | idx :: rest =>
      if (GRID_SIZE <=? length (nth idx regions []))%nat
      then grow_pass rest regions region_of made_progress rng
      else
        let (f, rng1) := frontier idx regions region_of rng in
        match f with
        | [] => grow_pass rest regions region_of made_progress rng1
        | _ :: _ =>
            match pick_best region_of f None (-1, O) rng1 with
            | (Some (pr, pc), rng2) =>
                grow_pass rest
                  (upd idx (nth idx regions [] ++ [(pr, pc)]) regions)
                  (set_cell region_of pr pc (Z.of_nat idx)) true rng2
            | (None, rng2) =>
                (* not reached: [f] is non-empty and its first score
                   exceeds [-1] *)
                grow_pass rest regions region_of made_progress rng2
            end
        end
  end.

(** [mat[r][c] = ridx] for every cell of every region. *)
Definition build_mat (regions : list (list Cell)) : Grid :=
  fold_left (fun mat ridx =>
    fold_left (fun m rc => set_cell m (fst rc) (snd rc) (Z.of_nat ridx))
              (nth ridx regions []) mat)
    (seq 0 GRID_SIZE) (const_grid GRID_SIZE (-1)).

Definition all_full (regions : list (list Cell)) : bool :=
  forallb (fun i => (length (nth i regions []) =? GRID_SIZE)%nat)
          (seq 0 GRID_SIZE).

(** How one growth attempt ends: with a validated map, or with the
    restart of the outer loop. *)
Inductive attempt : Type :=
| Found (mat : Grid)
| Restart.

(** [while made_progress: ...]; [None] only when [fuel] (the number of
    passes allowed) runs out. *)
Fixpoint grow (fuel : nat) (regions : list (list Cell)) (region_of : Grid)
    (rng : Rng) : option (attempt * Rng) :=
  match fuel with
  | O => None
  | S fuel' =>
      let (order0, rng1) := shuffle (seq 0 GRID_SIZE) rng in
      let order := sort_order regions order0 in
      match grow_pass order regions region_of false rng1 with
      | (regions', region_of', made_progress, rng2) =>
          if all_full regions' then
            let mat := build_mat regions' in
            if not_standard mat && regions_cross_boxes mat 4
            then Some (Found mat, rng2)
            else Some (Restart, rng2)
          else if made_progress
               then grow fuel' regions' region_of' rng2
               else Some (Restart, rng2)
      end
  end.

(** [for idx, (sr, sc) in enumerate(seeds)] *)
Fixpoint place_seeds (idx : nat) (seeds : list Cell)
    (regions : list (list Cell)) (region_of : Grid)
  : list (list Cell) * Grid :=
  match seeds with
  | [] => (regions, region_of)
  | (sr, sc) :: rest =>
      place_seeds (S idx) rest
        (upd idx (nth idx regions [] ++ [(sr, sc)]) regions)
        (set_cell region_of sr sc (Z.of_nat idx))
  end.

(** Cells that [region_of] maps to [-1]. *)
Definition unclaimed (region_of : Grid) : nat :=
  length (filter (fun v => v =? -1) (concat region_of)).

(** One iteration of [for _ in range(max_restarts)]; [all_cells] is
    shuffled in place and kept for the next iteration. *)
Definition attempt_once (all_cells : list Cell) (rng : Rng)
  : option (attempt * list Cell * Rng) :=
  let (all_cells', rng1) := shuffle all_cells rng in
  let seeds := firstn GRID_SIZE all_cells' in
  let (regions, region_of) :=
    place_seeds 0 seeds (repeat [] GRID_SIZE) (const_grid GRID_SIZE (-1)) in
  match grow (S (unclaimed region_of)) regions region_of rng1 with
  | None => None
  | Some (a, rng2) => Some (a, all_cells', rng2)
  end.

Fixpoint restart_loop (restarts : nat) (all_cells : list Cell) (rng : Rng)
  : option (outcome Grid * Rng) :=
  match restarts with
  | O => Some (RuntimeError, rng)
  | S k =>
      match attempt_once all_cells rng with
      | None => None
      | Some (Found mat, _, rng') => Some (Ok mat, rng')
      | Some (Restart, all_cells', rng') => restart_loop k all_cells' rng'
      end
  end.

Definition generate_regions (max_restarts : Z) (rng : Rng)
  : option (outcome Grid * Rng) :=
  restart_loop (Z.to_nat max_restarts) (cells_of GRID_SIZE) rng.

(** [main]: [d = max(1, min(6, args.difficulty))]. *)
Definition clamp_difficulty (difficulty : Z) : Z :=
  Z.max 1 (Z.min 6 difficulty).

(** [main]: [DIFFICULTY_GIVENS.get(d, DIFFICULTY_GIVENS[3])]. *)
Definition target_givens_of (d : Z) : Z :=
  match DIFFICULTY_GIVENS d with
  | Some v => v
  | None => 36
  end.

(** The difficulty handling of [main], from the command-line value to
    the target handed to the reducer. *)
Definition main_target_givens (difficulty : Z) : Z :=
  target_givens_of (clamp_difficulty difficulty).

End Jigsaw.

(* ================================================================== *)
(** * MiniSudokuGenerator6x6.py *)

Module Mini.

Definition SIZE : nat := 6.

(** The attributes of a [Sudoku6x6] object the generator reads and
    writes. *)
Record Sudoku6x6 : Type := mkSudoku {
  board : Grid;
  puzzle_id : option (list nat);
  difficulty : Z;
  solution : option Grid
}.

(** [reset] leaves [self.solution] as it is. *)
Definition reset (s : Sudoku6x6) : Sudoku6x6 :=
  mkSudoku (const_grid SIZE 0) None 0 (solution s).

(** [Sudoku6x6()] *)
Definition init : Sudoku6x6 := reset (mkSudoku [] None 0 None).

Definition digits : list Z := map Z.of_nat (seq 1 SIZE).

Definition number_is_valid (b : Grid) (row column : nat) (number : Z)
  : bool :=
  forallb (fun i =>
             negb ((get b row i =? number) || (get b i column =? number)))
          (seq 0 SIZE)
  && (let start_column := (column / 3 * 3)%nat in
      let start_row := (row / 2 * 2)%nat in
      forallb (fun i =>
        forallb (fun j =>
          negb (get b (i + start_row) (j + start_column) =? number))
          (seq 0 3))
        (seq 0 2)).

(** The scan [for r in range(6): for c in range(6): if board[r][c] == 0]
    shared by [solve] and [fill_solution]: the first empty cell in
    row-major order. *)
Definition first_empty (b : Grid) : option Cell :=
  find (fun rc : Cell => get b (fst rc) (snd rc) =? 0) (cells_of SIZE).

(** The [for n in digits] loop of [solve]; the values yielded are
    collected in order. *)
Fixpoint solve_digits (rec : Grid -> Rng -> option (list bool * Grid * Rng))
    (r c : nat) (ds : list Z) (b : Grid) (rng : Rng)
  : option (list bool * Grid * Rng) :=
  match ds with
  | [] => Some ([], b, rng)
  | n :: ns =>
      if number_is_valid b r c n then
        match rec (set_cell b r c n) rng with
        | None => None
        | Some (ys, b1, rng1) =>
            match solve_digits rec r c ns (set_cell b1 r c 0) rng1 with
            | None => None
            | Some (ys', b2, rng2) => Some (ys ++ ys', b2, rng2)
            end
        end
      else solve_digits rec r c ns b rng
  end.

(** The generator [solve], run to exhaustion: everything it yields, the
    board it leaves and the generator state.  [None] only when [fuel]
    (the recursion depth allowed) runs out. *)
Fixpoint solve (fuel : nat) (b : Grid) (rng : Rng)
  : option (list bool * Grid * Rng) :=
  match fuel with
  | O => None
  | S fuel' =>
      match first_empty b with
      | Some (r, c) =>
          let (ds, rng1) := shuffle digits rng in
          solve_digits (solve fuel') r c ds b rng1
      | None => Some ([true], b, rng)
      end
  end.

(** [[solution for solution in self.solve()]] *)
Definition solutions_of (b : Grid) (rng : Rng)
  : option (list bool * Grid * Rng) :=
  solve (S (empties b)) b rng.

(** The [for n in digits] loop of [fill_solution]. *)
Fixpoint fill_digits (rec : Grid -> Rng -> option (bool * Grid * Rng))
    (r c : nat) (ds : list Z) (b : Grid) (rng : Rng)
  : option (bool * Grid * Rng) :=
  match ds with
  | [] => Some (false, b, rng)
  | n :: ns =>
      if number_is_valid b r c n then
        match rec (set_cell b r c n) rng with
        | None => None
        | Some (true, b1, rng1) => Some (true, b1, rng1)
        | Some (false, b1, rng1) =>
            fill_digits rec r c ns (set_cell b1 r c 0) rng1
        end
      else fill_digits rec r c ns b rng
  end.

Fixpoint fill_solution_rec (fuel : nat) (b : Grid) (rng : Rng)
  : option (bool * Grid * Rng) :=
  match fuel with
  | O => None
  | S fuel' =>
      match first_empty b with
      | Some (r, c) =>
          let (ds, rng1) := shuffle digits rng in
          fill_digits (fill_solution_rec fuel') r c ds b rng1
      | None => Some (true, b, rng)
      end
  end.

Definition fill_solution (b : Grid) (rng : Rng)
  : option (bool * Grid * Rng) :=
  fill_solution_rec (S (empties b)) b rng.

(** The [for i, n in enumerate(avail)] loop of [fill_box.helper]. *)
Fixpoint helper_loop (rec : list Z -> Grid -> Rng -> bool * Grid * Rng)
    (r c : nat) (avail : list Z) (todo : list (nat * Z)) (b : Grid)
    (rng : Rng) : bool * Grid * Rng :=
  match todo with
  | [] => (false, b, rng)
  | (i, n) :: todo' =>
      if number_is_valid b r c n then
        let next_avail := firstn i avail ++ skipn (S i) avail in
        match rec next_avail (set_cell b r c n) rng with
        | (true, b1, rng1) => (true, b1, rng1)
        | (false, b1, rng1) =>
            helper_loop rec r c avail todo' (set_cell b1 r c 0) rng1
        end
      else helper_loop rec r c avail todo' b rng
  end.

(** [fill_box.helper(idx, avail)] with [cells[idx:]] as its first
    argument. *)
Fixpoint helper (cells : list Cell) (avail : list Z) (b : Grid) (rng : Rng)
  : bool * Grid * Rng :=
  match cells with
  | [] => (true, b, rng)
  | (r, c) :: rest =>
      let (avail', rng1) := shuffle avail rng in
      helper_loop (helper rest) r c avail'
        (combine (seq 0 (length avail')) avail') b rng1
  end.

Definition fill_box (b : Grid) (start_row start_col : nat) (rng : Rng)
  : bool * Grid * Rng :=
  let cells :=
    flat_map (fun r => map (fun c => (start_row + r, start_col + c)%nat)
                           (seq 0 3)) (seq 0 2) in
  helper cells digits b rng.

Definition empty_cells_table : list Z := [0; 10; 15; 20; 24; 26; 28].

(** [evaluate]: whether "invalid difficulty" was written to stderr, and
    [empty_cells[difficulty]] with Python's indexing. *)
Definition evaluate (difficulty : Z) : bool * outcome Z :=
  let reported :=
    (difficulty <? 1)
    || (Z.of_nat (length empty_cells_table) - 1 <? difficulty) in
  (reported,
   match Jigsaw.py_pos (length empty_cells_table) difficulty with
   | Some k => Ok (nth k empty_cells_table 0)
   | None => IndexError
   end).

(** The [for start_row, start_col in positions] loop of [generate]. *)
Fixpoint fill_boxes (positions : list Cell) (b : Grid) (rng : Rng)
  : bool * Grid * Rng :=
  match positions with
  | [] => (true, b, rng)
  | (start_row, start_col) :: rest =>
      match fill_box b start_row start_col rng with
      | (true, b1, rng1) => fill_boxes rest b1 rng1
      | (false, b1, rng1) => (false, b1, rng1)
      end
  end.

(** The clue-removal loop of [generate]; [order] lists the cells in the
    order [unvisited.pop()] hands them out. *)
Fixpoint remove_loop (order : list Cell) (b : Grid) (empty_cells : Z)
    (rng : Rng) : option (Grid * Z * Rng) :=
  match order with
  | [] => Some (b, empty_cells, rng)
  | (r, c) :: rest =>
      if 0 <? empty_cells then
        let copy := get b r c in
        let b1 := set_cell b r c 0 in
        match solutions_of b1 rng with
        | None => None
        | Some (solutions, b2, rng1) =>
            if (1 <? length solutions)%nat
            then remove_loop rest (set_cell b2 r c copy) empty_cells rng1
            else remove_loop rest b2 (empty_cells - 1) rng1
        end
      else Some (b, empty_cells, rng)
  end.

Definition generate (s : Sudoku6x6) (level : Z) (rng : Rng)
  : option (outcome (bool * Sudoku6x6) * Rng) :=
  let (pid, rng0) := choices 36 8 rng in
  let s0 := mkSudoku (board s) (Some pid) level (solution s) in
  match fill_boxes [(0, 0); (2, 3); (4, 0)]%nat (board s0) rng0 with
  | (false, b1, rng1) =>
      Some (Ok (false, mkSudoku b1 (Some pid) level (solution s)), rng1)
  | (true, b1, rng1) =>
      match fill_solution b1 rng1 with
      | None => None
      | Some (false, b2, rng2) =>
          Some (Ok (false, mkSudoku b2 (Some pid) level (solution s)), rng2)
      | Some (true, b2, rng2) =>
          let sol := b2 in
          match snd (evaluate level) with
          | Ok empty_cells =>
              let (unvisited, rng3) := shuffle (cells_of SIZE) rng2 in
              match remove_loop (rev unvisited) b2 empty_cells rng3 with
              | None => None
              | Some (b3, remaining, rng4) =>
                  Some (Ok (negb (0 <? remaining),
                            mkSudoku b3 (Some pid) level (Some sol)), rng4)
              end
          | RuntimeError => Some (RuntimeError, rng2)
          | IndexError => Some (IndexError, rng2)
          end
      end
  end.

End Mini.

(* ================================================================== *)
(** * The rules of the puzzle

    What the programs are meant to establish, stated over a grid of side
    [n] whose cell [(r, c)] lies in region [region_of r c]. *)

Section Rules.

Variable n : nat.
Variable region_of : nat -> nat -> Z.

(** Two different cells that share a row, a column or a region. *)
Definition peer (r c r' c' : nat) : Prop :=
  (r, c) <> (r', c')
  /\ (r = r' \/ c = c' \/ region_of r c = region_of r' c').

(** [d] is a symbol of [1..n] that no peer of [(r, c)] carries in [g]. *)
Definition legal (g : Grid) (r c : nat) (d : Z) : Prop :=
  1 <= d <= Z.of_nat n
  /\ forall r' c', (r' < n)%nat -> (c' < n)%nat ->
                   peer r c r' c' -> get g r' c' <> d.

Definition full (g : Grid) : Prop :=
  forall r c, (r < n)%nat -> (c < n)%nat -> get g r c <> 0.

(** The filled cells of [g] obey the rules among themselves. *)
Definition consistent (g : Grid) : Prop :=
  wf_grid n g
  /\ forall r c, (r < n)%nat -> (c < n)%nat -> get g r c <> 0 ->
                 legal g r c (get g r c).

(** A Solution: fully assigned, every cell legal. *)
Definition is_solution (s : Grid) : Prop :=
  wf_grid n s
  /\ forall r c, (r < n)%nat -> (c < n)%nat -> legal s r c (get s r c).

(** [s] keeps every clue of [g]. *)
Definition extends (g s : Grid) : Prop :=
  forall r c, (r < n)%nat -> (c < n)%nat ->
              get g r c <> 0 -> get s r c = get g r c.

(** What a search from [g] can reach: [s] keeps the clues of [g] and
    fills each empty cell of [g] legally. *)
Definition completion (g s : Grid) : Prop :=
  wf_grid n s /\ extends g s
  /\ forall r c, (r < n)%nat -> (c < n)%nat -> get g r c = 0 ->
                 legal s r c (get s r c).

(** The invariant of both reducers: [g] keeps clues of [solution] only,
    and [solution] is its only search result. *)
Definition unique_for (solution g : Grid) : Prop :=
  wf_grid n g /\ extends g solution
  /\ forall s, completion g s -> s = solution.

Definition row_values (s : Grid) (r : nat) : list Z :=
  map (fun c => get s r c) (seq 0 n).

Definition col_values (s : Grid) (c : nat) : list Z :=
  map (fun r => get s r c) (seq 0 n).

Definition region_cells (k : Z) : list Cell :=
  filter (fun rc : Cell => region_of (fst rc) (snd rc) =? k) (cells_of n).

Definition region_values (s : Grid) (k : Z) : list Z :=
  map (fun rc : Cell => get s (fst rc) (snd rc)) (region_cells k).

(** Each symbol of [1..n] occurs exactly once in [l]. *)
Definition each_once (l : list Z) : Prop :=
  forall d, 1 <= d <= Z.of_nat n -> count_occ Z.eq_dec l d = 1%nat.

Definition peerb (r c r' c' : nat) : bool :=
  negb (cell_eqb (r, c) (r', c'))
  && ((r =? r')%nat || (c =? c')%nat
      || (region_of r c =? region_of r' c')).

Definition legalb (g : Grid) (r c : nat) (d : Z) : bool :=
  (1 <=? d) && (d <=? Z.of_nat n)
  && forallb (fun rc : Cell =>
                negb (peerb r c (fst rc) (snd rc)
                      && (get g (fst rc) (snd rc) =? d)))
             (cells_of n).

Definition is_solutionb (s : Grid) : bool :=
  wf_gridb n s
  && forallb (fun rc : Cell =>
                legalb s (fst rc) (snd rc) (get s (fst rc) (snd rc)))
             (cells_of n).

Definition extendsb (g s : Grid) : bool :=
  forallb (fun rc : Cell =>
             (get g (fst rc) (snd rc) =? 0)
             || (get s (fst rc) (snd rc) =? get g (fst rc) (snd rc)))
          (cells_of n).

End Rules.

(** The region of a cell in each program. *)
Definition jigsaw_region (regions : Grid) (r c : nat) : Z := get regions r c.

Definition mini_region (r c : nat) : Z := Z.of_nat (r / 2 * 2 + c / 3).

(* ================================================================== *)
(** * Invariants of the loops and searches *)

(** What [best]/[best_cands] hold while the cells in [seen] have been
    scanned. *)
Definition mrv_best (regions g : Grid) (seen : list Cell)
    (best : option (Cell * list Z)) : Prop :=
  match best with
  | None => forall r c, In (r, c) seen -> get g r c <> 0
  | Some ((r, c), cands) =>
      In (r, c) seen /\ get g r c = 0
      /\ cands = Jigsaw.compute_candidates g regions r c /\ cands <> []
      /\ forall r' c', In (r', c') seen -> get g r' c' = 0 ->
           (length cands <= length (Jigsaw.compute_candidates g regions r' c'))%nat
  end.

(** What a call of [solve_backtracking.dfs] on [g] leaves: on success a
    full grid reached from [g] by legal placements, on failure [g]. *)
Definition dfs_post (regions g : Grid) (b : bool) (g' : Grid) : Prop :=
  wf_grid 9 g'
  /\ (b = true -> completion 9 (jigsaw_region regions) g g' /\ full 9 g')
  /\ (b = false -> g' = g).

(** What a call of [count_solutions.dfs] leaves.  [P] describes the
    solutions the call is to count: it adds to [count] the size of a
    duplicate-free list of them, up to [limit], and misses none below
    [limit]. *)
Definition count_post (limit : Z) (P : Grid -> Prop) (g : Grid)
    (count : Z) (b : bool) (g' : Grid) (count' : Z) : Prop :=
  wf_grid 9 g'
  /\ (b = true <-> limit <= count')
  /\ (b = false -> g' = g)
  /\ count <= count' <= Z.max limit count
  /\ (exists l : list Grid,
         NoDup l /\ (forall s, In s l -> P s)
         /\ Z.of_nat (length l) = count' - count)
  /\ (forall l : list Grid,
         NoDup l -> (forall s, In s l -> P s) ->
         Z.min limit (count + Z.of_nat (length l)) <= count').

(** What a call of [fill_solution] on [g] leaves: on [True] a full board
    reached from [g] by legal placements, on [False] the board [g]. *)
Definition fill_post (g : Grid) (b : bool) (g' : Grid) : Prop :=
  wf_grid 6 g'
  /\ (b = true -> completion 6 mini_region g g' /\ full 6 g')
  /\ (b = false -> g' = g).

(** What running [solve] to exhaustion on [g] leaves: the board [g]
    again, and one yielded value per search result from [g]
    satisfying [P]. *)
Definition solve_post (P : Grid -> Prop) (g : Grid) (ys : list bool)
    (g' : Grid) : Prop :=
  g' = g
  /\ (exists l : list Grid,
         NoDup l /\ (forall s, In s l -> P s) /\ length l = length ys)
  /\ (forall l : list Grid,
         NoDup l -> (forall s, In s l -> P s) ->
         (length l <= length ys)%nat).

(* ================================================================== *)
(** * Region maps *)

(** Two cells that share an edge. *)
Definition adjacent (a b : Cell) : Prop :=
  (fst a = fst b /\ (snd a = S (snd b) \/ snd b = S (snd a)))
  \/ (snd a = snd b /\ (fst a = S (fst b) \/ fst b = S (fst a))).

(** [b] can be reached from [a] by steps between adjacent cells, all of
    them [inside]. *)
Inductive linked (inside : Cell -> Prop) : Cell -> Cell -> Prop :=
| linked_here (a : Cell) : inside a -> linked inside a a
| linked_step (a b c : Cell) :
    linked inside a b -> inside c -> adjacent b c -> linked inside a c.

(** A region as the growth loop builds it: a seed, then cells each
    adjacent to one already there. *)
Inductive grown : list Cell -> Prop :=
| grown_nil : grown []
| grown_seed (x : Cell) : grown [x]
| grown_more (l : list Cell) (x y : Cell) :
    grown l -> In y l -> adjacent y x -> grown (l ++ [x]).

(** The cells of region [k] of the map [mat]. *)
Definition in_region (mat : Grid) (k : Z) (x : Cell) : Prop :=
  (fst x < 9)%nat /\ (snd x < 9)%nat /\ get mat (fst x) (snd x) = k.

(** What [generate_regions] promises of the map it returns. *)
Definition valid_region_map (mat : Grid) : Prop :=
  wf_grid 9 mat
  /\ (forall r c, (r < 9)%nat -> (c < 9)%nat -> 0 <= get mat r c < 9)
  /\ (forall k, 0 <= k < 9 ->
                length (region_cells 9 (jigsaw_region mat) k) = 9%nat)
  /\ (forall k a b, in_region mat k a -> in_region mat k b ->
                    linked (in_region mat k) a b)
  /\ (exists r c, (r < 9)%nat /\ (c < 9)%nat
                  /\ get mat r c <> Jigsaw.standard_box_mapping r c)
  /\ (exists ks : list Z,
         NoDup ks /\ (4 <= length ks)%nat
         /\ forall k, In k ks ->
              exists a b, in_region mat k a /\ in_region mat k b
                          /\ Jigsaw.standard_box_mapping (fst a) (snd a)
                             <> Jigsaw.standard_box_mapping (fst b) (snd b)).

(** The invariant of a growth attempt: nine regions, each a duplicate-free
    grown list of cells that [region_of] maps to the region's index. *)
Definition regions_inv (regions : list (list Cell)) (region_of : Grid)
  : Prop :=
  length regions = 9%nat
  /\ wf_grid 9 region_of
  /\ (forall idx r c, (idx < 9)%nat -> In (r, c) (nth idx regions []) ->
        (r < 9)%nat /\ (c < 9)%nat /\ get region_of r c = Z.of_nat idx)
  /\ (forall idx, (idx < 9)%nat -> NoDup (nth idx regions []))
  /\ (forall idx, (idx < 9)%nat -> grown (nth idx regions [])).

(** What [boxsets] holds while [boxsets_of] runs: for each region index
    the duplicate-free boxes of cells of that region. *)
Definition boxsets_ok (mat : Grid) (bs : list (list Z)) : Prop :=
  length bs = 9%nat
  /\ forall k, (k < 9)%nat ->
       NoDup (nth k bs [])
       /\ forall b, In b (nth k bs []) ->
            exists r c, (r < 9)%nat /\ (c < 9)%nat
                        /\ get mat r c = Z.of_nat k
                        /\ Jigsaw.standard_box_mapping r c = b.

(* ================================================================== *)
(** * Sample grids *)

(** A region map made of nine columns, each crossing three boxes. *)
Definition sample_regions : Grid :=
  repeat [8; 0; 1; 2; 3; 4; 5; 6; 7] 9.

Definition sample_solution : Grid :=
  [[2; 3; 4; 5; 6; 7; 8; 9; 1]; [3; 1; 2; 4; 5; 6; 7; 8; 9];
   [4; 5; 7; 9; 1; 2; 3; 6; 8]; [5; 8; 3; 6; 9; 4; 1; 2; 7];
   [6; 4; 9; 2; 8; 1; 5; 7; 3]; [7; 6; 5; 8; 3; 9; 2; 1; 4];
   [8; 9; 6; 1; 7; 5; 4; 3; 2]; [9; 7; 1; 3; 2; 8; 6; 4; 5];
   [1; 2; 8; 7; 4; 3; 9; 5; 6]].

(** A 9x9 grid with two cells of its first row left open. *)
Definition sample_grid : Grid :=
  [[0; 0; 4; 5; 6; 7; 8; 9; 1]; [3; 1; 2; 4; 5; 6; 7; 8; 9];
   [4; 5; 7; 9; 1; 2; 3; 6; 8]; [5; 8; 3; 6; 9; 4; 1; 2; 7];
   [6; 4; 9; 2; 8; 1; 5; 7; 3]; [7; 6; 5; 8; 3; 9; 2; 1; 4];
   [8; 9; 6; 1; 7; 5; 4; 3; 2]; [9; 7; 1; 3; 2; 8; 6; 4; 5];
   [1; 2; 8; 7; 4; 3; 9; 5; 6]].

(** A 9x9 grid with a dead end: the two open cells of its first row both
    need the symbol 3. *)
Definition dead_end_grid : Grid := set_cell sample_grid 1 0 2.

(** The puzzle [Sudoku6x6.generate] returns at level 3 when every random
    draw is 0. *)
Definition mini_level3_puzzle : Grid :=
  [[0; 4; 6; 1; 5; 3]; [3; 1; 5; 6; 2; 0]; [1; 5; 3; 0; 0; 0];
   [0; 0; 0; 0; 0; 0]; [4; 3; 1; 0; 0; 0]; [0; 0; 0; 0; 0; 0]].

(** A 6x6 board with its last two rows open. *)
Definition mini_open_board : Grid :=
  [[2; 4; 6; 1; 5; 3]; [3; 1; 5; 6; 2; 4]; [1; 5; 3; 2; 4; 6];
   [6; 2; 4; 3; 1; 5]; [0; 0; 0; 0; 0; 0]; [0; 0; 0; 0; 0; 0]].

(** [sample_solution] with its first two rows open, and the grid that
    fills them the other way round. *)
Definition two_rows_open : Grid :=
  repeat 0 9 :: repeat 0 9 :: skipn 2 sample_solution.

Definition rows_swapped : Grid :=
  nth 1 sample_solution [] :: nth 0 sample_solution []
  :: skipn 2 sample_solution.

(** The number of symbols [number_is_valid] accepts at a cell. *)
Definition legal_count (b : Grid) (r c : nat) : nat :=
  length (filter (Mini.number_is_valid b r c) Mini.digits).

(** A 6x6 board whose first empty cell has two legal symbols while the
    next one has a single one. *)
Definition mini_two_choice_board : Grid :=
  [[0; 0; 6; 1; 5; 3]; [3; 1; 5; 6; 2; 4]; [1; 5; 3; 2; 4; 6];
   [6; 2; 4; 3; 1; 5]; [0; 0; 1; 5; 6; 2]; [5; 6; 2; 4; 3; 1]].

(** A 6x6 board whose last cell is empty and has no legal symbol left. *)
Definition mini_dead_end_board : Grid :=
  [[0; 0; 0; 0; 0; 0]; [0; 0; 0; 0; 0; 0]; [0; 0; 0; 0; 0; 1];
   [0; 0; 0; 0; 0; 2]; [0; 0; 0; 4; 5; 6]; [0; 0; 0; 0; 3; 0]].

(* ================================================================== *)
(** * Lists updated in place *)

Lemma upd_length {A : Type} (i : nat) (v : A) (l : list A) :
  length (upd i v l) = length l.
Proof.
  revert i; induction l as [|h t IH]; intros [|i]; simpl; auto.
Qed.

Lemma nth_upd_same {A : Type} (i : nat) (v d : A) (l : list A) :
  (i < length l)%nat -> nth i (upd i v l) d = v.
Proof.
  revert i; induction l as [|h t IH]; intros [|i] H; simpl in *;
    try lia; auto.
  apply IH; lia.
Qed.

Lemma nth_upd_other {A : Type} (i j : nat) (v d : A) (l : list A) :
  i <> j -> nth j (upd i v l) d = nth j l d.
Proof.
  revert i j; induction l as [|h t IH]; intros [|i] [|j] H; simpl;
    auto; try congruence.
Qed.

Lemma upd_out {A : Type} (i : nat) (v : A) (l : list A) :
  (length l <= i)%nat -> upd i v l = l.
Proof.
  revert i; induction l as [|h t IH]; intros [|i] H; simpl in *;
    auto; try lia.
  f_equal; apply IH; lia.
Qed.

Lemma upd_upd {A : Type} (i : nat) (v w : A) (l : list A) :
  upd i v (upd i w l) = upd i v l.
Proof.
  revert i; induction l as [|h t IH]; intros [|i]; simpl; auto.
  f_equal; apply IH.
Qed.

Lemma upd_nth_id {A : Type} (i : nat) (d : A) (l : list A) :
  upd i (nth i l d) l = l.
Proof.
  revert i; induction l as [|h t IH]; intros [|i]; simpl; auto.
  f_equal; apply IH.
Qed.

Lemma nth_error_upd_other {A : Type} (i j : nat) (v : A) (l : list A) :
  i <> j -> nth_error (upd i v l) j = nth_error l j.
Proof.
  revert i j; induction l as [|h t IH]; intros [|i] [|j] H; simpl;
    auto; try congruence.
Qed.

Lemma upd_perm_cons {A : Type} (i : nat) (a b : A) (x : list A) :
  nth_error x i = Some a -> Permutation (a :: upd i b x) (b :: x).
Proof.
  revert i; induction x as [|h t IH]; intros [|i] H; simpl in *;
    try discriminate.
  - injection H as ->. apply perm_swap.
  - apply Permutation_trans with (h :: a :: upd i b t).
    + apply perm_swap.
    + apply Permutation_trans with (h :: b :: t).
      * apply perm_skip. apply IH; assumption.
      * apply perm_swap.
Qed.

Module RandFacts.

Lemma swap_perm {A : Type} (x : list A) (i j : nat) :
  Permutation (swap x i j) x.
Proof.
  unfold swap.
  destruct (nth_error x i) as [a|] eqn:Hi; [|reflexivity].
  destruct (nth_error x j) as [b|] eqn:Hj; [|reflexivity].
  destruct (Nat.eq_dec i j) as [->|Hne].
  - rewrite upd_upd. assert (a = b) by congruence. subst b.
    replace a with (nth j x a) at 1.
    + rewrite upd_nth_id. reflexivity.
    + apply nth_error_nth. assumption.
  - apply Permutation_cons_inv with (a := b).
    apply Permutation_trans with (a :: upd i b x).
    + apply upd_perm_cons.
      rewrite nth_error_upd_other by assumption. assumption.
    + apply upd_perm_cons. assumption.
Qed.

Lemma shuffle_from_perm {A : Type} (i : nat) (x : list A) (g : Rng) :
  Permutation (fst (shuffle_from i x g)) x.
Proof.
  revert x g; induction i as [|i IH]; intros x g; simpl.
  - reflexivity.
  - destruct (randbelow (S (S i)) g) as [j g'].
    eapply Permutation_trans; [apply IH | apply swap_perm].
Qed.

Lemma shuffle_perm {A : Type} (x : list A) (g : Rng) :
  Permutation (fst (shuffle x g)) x.
Proof. apply shuffle_from_perm. Qed.

Lemma shuffle_perm_eq {A : Type} (x y : list A) (g g' : Rng) :
  shuffle x g = (y, g') -> Permutation y x.
Proof.
  intros H. pose proof (shuffle_perm x g) as P. rewrite H in P. exact P.
Qed.

End RandFacts.
Import RandFacts.

(* ================================================================== *)
(** * Grids *)

Lemma get_set_same (g : Grid) (r c : nat) (v : Z) :
  (r < length g)%nat -> (c < length (nth r g []))%nat ->
  get (set_cell g r c v) r c = v.
Proof.
  intros Hr Hc. unfold get, set_cell.
  rewrite nth_upd_same by assumption. apply nth_upd_same; assumption.
Qed.

Lemma get_set_other (g : Grid) (r c r' c' : nat) (v : Z) :
  (r, c) <> (r', c') -> get (set_cell g r c v) r' c' = get g r' c'.
Proof.
  intros Hne. unfold get, set_cell.
  destruct (Nat.eq_dec r r') as [->|Hr].
  - destruct (Nat.lt_ge_cases r' (length g)) as [Hlt|Hge].
    + rewrite nth_upd_same by assumption.
      apply nth_upd_other. congruence.
    + rewrite upd_out by assumption. reflexivity.
  - rewrite nth_upd_other by assumption. reflexivity.
Qed.

Lemma set_set (g : Grid) (r c : nat) (v w : Z) :
  set_cell (set_cell g r c v) r c w = set_cell g r c w.
Proof.
  unfold set_cell.
  destruct (Nat.lt_ge_cases r (length g)) as [Hlt|Hge].
  - rewrite nth_upd_same by assumption. rewrite !upd_upd. reflexivity.
  - rewrite !(upd_out r _ g) by assumption. reflexivity.
Qed.

Lemma set_get_id (g : Grid) (r c : nat) :
  set_cell g r c (get g r c) = g.
Proof.
  unfold set_cell, get. rewrite upd_nth_id. apply upd_nth_id.
Qed.

Lemma set_set_restore (g : Grid) (r c : nat) (d : Z) :
  set_cell (set_cell g r c d) r c (get g r c) = g.
Proof. rewrite set_set. apply set_get_id. Qed.

Lemma wf_grid_row (n : nat) (g : Grid) (r : nat) :
  wf_grid n g -> (r < n)%nat -> length (nth r g []) = n.
Proof.
  intros [Hl Hf] Hr. rewrite Forall_forall in Hf.
  apply Hf. apply nth_In. lia.
Qed.

Lemma wf_set_cell (n : nat) (g : Grid) (r c : nat) (v : Z) :
  wf_grid n g -> wf_grid n (set_cell g r c v).
Proof.
  intros [Hl Hf]. unfold set_cell. split.
  - rewrite upd_length. assumption.
  - rewrite Forall_forall in *. intros row Hin.
    destruct (In_nth _ _ [] Hin) as [k [Hk Hnth]].
    rewrite upd_length in Hk.
    destruct (Nat.eq_dec r k) as [->|Hne].
    + rewrite nth_upd_same in Hnth by assumption. subst row.
      rewrite upd_length. apply Hf. apply nth_In. assumption.
    + rewrite nth_upd_other in Hnth by assumption. subst row.
      apply Hf. apply nth_In. assumption.
Qed.

Lemma wf_gridb_sound (n : nat) (g : Grid) :
  wf_gridb n g = true -> wf_grid n g.
Proof.
  unfold wf_gridb, wf_grid. rewrite andb_true_iff, forallb_forall.
  intros [H1 H2]. apply Nat.eqb_eq in H1. split; [assumption|].
  apply Forall_forall. intros row Hin. apply Nat.eqb_eq. auto.
Qed.

Lemma wf_const_grid (n : nat) (v : Z) : wf_grid n (const_grid n v).
Proof.
  unfold wf_grid, const_grid. split.
  - apply repeat_length.
  - apply Forall_forall. intros row Hin.
    apply repeat_spec in Hin. subst. apply repeat_length.
Qed.

Lemma get_const_grid (n : nat) (v : Z) (r c : nat) :
  (r < n)%nat -> (c < n)%nat -> get (const_grid n v) r c = v.
Proof.
  intros Hr Hc. unfold get, const_grid.
  rewrite nth_repeat_lt by assumption.
  apply nth_repeat_lt. assumption.
Qed.

Lemma grid_ext (n : nat) (g s : Grid) :
  wf_grid n g -> wf_grid n s ->
  (forall r c, (r < n)%nat -> (c < n)%nat -> get g r c = get s r c) ->
  g = s.
Proof.
  intros Hg Hs Heq.
  apply (nth_ext g s [] []).
  - destruct Hg, Hs; congruence.
  - intros r Hr. assert (r < n)%nat by (destruct Hg; lia).
    apply (nth_ext _ _ 0 0).
    + rewrite (wf_grid_row n g r), (wf_grid_row n s r); auto.
    + intros c Hc. rewrite (wf_grid_row n g r) in Hc by auto.
      apply Heq; assumption.
Qed.

Lemma In_cells_of (n r c : nat) :
  In (r, c) (cells_of n) <-> (r < n)%nat /\ (c < n)%nat.
Proof.
  unfold cells_of. rewrite in_flat_map. split.
  - intros [r' [Hr Hin]]. apply in_map_iff in Hin.
    destruct Hin as [c' [Heq Hc]]. injection Heq as -> ->.
    apply in_seq in Hr, Hc. lia.
  - intros [Hr Hc]. exists r. split.
    + apply in_seq. lia.
    + apply in_map_iff. exists c. split; [reflexivity|]. apply in_seq. lia.
Qed.

Lemma NoDup_cells_of (n : nat) : NoDup (cells_of n).
Proof.
  unfold cells_of.
  assert (G : forall l : list nat, NoDup l ->
            NoDup (flat_map (fun r => map (fun c => (r, c)) (seq 0 n)) l)).
  { induction l as [|r l IH]; intros Hnd; simpl.
    - constructor.
    - inversion Hnd as [|? ? Hnotin Hnd']; subst.
      apply NoDup_app.
      + apply Finite.Injective_map_NoDup; [|apply seq_NoDup].
        intros a b H. congruence.
      + auto.
      + intros [r1 c1] H1 H2. apply in_map_iff in H1.
        destruct H1 as [c' [Heq _]]. injection Heq as <- <-.
        apply in_flat_map in H2. destruct H2 as [r' [Hr' Hin]].
        apply in_map_iff in Hin. destruct Hin as [c'' [Heq _]].
        injection Heq as -> ->. contradiction. }
  apply G. apply seq_NoDup.
Qed.

(* ================================================================== *)
(** * Consequences of the rules *)

Section RulesFacts.

Variable n : nat.
Variable region_of : nat -> nat -> Z.

Notation peer := (peer region_of).
Notation legal := (legal n region_of).
Notation completion := (completion n region_of).
Notation is_solution := (is_solution n region_of).
Notation consistent := (consistent n region_of).

Lemma peer_sym (r c r' c' : nat) : peer r c r' c' -> peer r' c' r c.
Proof.
  intros [Hne H]. split; [congruence|].
  destruct H as [H|[H|H]]; auto.
Qed.

Lemma get_set_in (g : Grid) (r c : nat) (v : Z) :
  wf_grid n g -> (r < n)%nat -> (c < n)%nat ->
  get (set_cell g r c v) r c = v.
Proof.
  intros Hwf Hr Hc. apply get_set_same.
  - destruct Hwf; lia.
  - rewrite (wf_grid_row n); auto.
Qed.

(** A search result from [g] with [d] placed at an empty cell where it
    was legal is a search result from [g]. *)
Lemma completion_unset (g s : Grid) (r c : nat) (d : Z) :
  wf_grid n g -> (r < n)%nat -> (c < n)%nat ->
  get g r c = 0 -> legal g r c d ->
  completion (set_cell g r c d) s -> completion g s.
Proof.
  intros Hwf Hr Hc Hz [Hd Hleg] [Hs [Hext Hfill]].
  assert (Hsx : get s r c = d).
  { rewrite (Hext r c Hr Hc); rewrite get_set_in; auto; lia. }
  split; [assumption|]. split.
  - intros r' c' Hr' Hc' Hnz.
    destruct (Nat.eq_dec r r') as [->|Hne1];
      [destruct (Nat.eq_dec c c') as [->|Hne2]|].
    + contradiction.
    + rewrite Hext; auto; rewrite get_set_other; auto; congruence.
    + rewrite Hext; auto; rewrite get_set_other; auto; congruence.
  - intros r' c' Hr' Hc' Hz'.
    destruct (Nat.eq_dec r r') as [Heq1|Hne1];
      [destruct (Nat.eq_dec c c') as [Heq2|Hne2]|].
    + subst r' c'. rewrite Hsx. split; [assumption|].
      intros r2 c2 Hr2 Hc2 Hp.
      destruct (Z.eq_dec (get g r2 c2) 0) as [Hz2|Hnz2].
      * assert (Hne : (r, c) <> (r2, c2)) by (destruct Hp; assumption).
        assert (H2 : get (set_cell g r c d) r2 c2 = 0)
          by (rewrite get_set_other; auto).
        destruct (Hfill r2 c2 Hr2 Hc2 H2) as [_ Hl2].
        specialize (Hl2 r c Hr Hc (peer_sym _ _ _ _ Hp)).
        congruence.
      * assert (Hne : (r, c) <> (r2, c2)) by (destruct Hp; assumption).
        rewrite Hext; auto.
        -- rewrite get_set_other; auto.
        -- rewrite get_set_other; auto.
    + apply Hfill; auto. rewrite get_set_other; auto; congruence.
    + apply Hfill; auto. rewrite get_set_other; auto; congruence.
Qed.

(** A search result from [g] is one from [g] with its own symbol placed
    at an empty cell. *)
Lemma completion_set (g s : Grid) (r c : nat) :
  wf_grid n g -> (r < n)%nat -> (c < n)%nat ->
  get g r c = 0 -> completion g s ->
  completion (set_cell g r c (get s r c)) s.
Proof.
  intros Hwf Hr Hc Hz [Hs [Hext Hfill]].
  split; [assumption|]. split.
  - intros r' c' Hr' Hc' Hnz.
    destruct (Nat.eq_dec r r') as [Heq1|Hne1];
      [destruct (Nat.eq_dec c c') as [Heq2|Hne2]|].
    + subst. rewrite get_set_in; auto.
    + rewrite get_set_other in * by congruence. auto.
    + rewrite get_set_other in * by congruence. auto.
  - intros r' c' Hr' Hc' Hz'.
    destruct (Nat.eq_dec r r') as [Heq1|Hne1];
      [destruct (Nat.eq_dec c c') as [Heq2|Hne2]|].
    + subst. apply Hfill; auto.
    + rewrite get_set_other in Hz' by congruence. auto.
    + rewrite get_set_other in Hz' by congruence. auto.
Qed.

(** The symbol a search result carries at an empty cell was legal
    there. *)
Lemma completion_legal (g s : Grid) (r c : nat) :
  (r < n)%nat -> (c < n)%nat -> get g r c = 0 ->
  completion g s -> legal g r c (get s r c).
Proof.
  intros Hr Hc Hz [Hs [Hext Hfill]].
  destruct (Hfill r c Hr Hc Hz) as [Hd Hl]. split; [assumption|].
  intros r' c' Hr' Hc' Hp.
  destruct (Z.eq_dec (get g r' c') 0) as [Hz'|Hnz'].
  - rewrite Hz'. lia.
  - rewrite <- (Hext r' c'); auto.
Qed.

Lemma completion_full (g s : Grid) :
  wf_grid n g -> full n g -> (completion g s <-> s = g).
Proof.
  intros Hwf Hfull. split.
  - intros [Hs [Hext _]]. apply (grid_ext n); auto.
  - intros ->. split; [assumption|]. split.
    + intros r c _ _ _. reflexivity.
    + intros r c Hr Hc Hz. exfalso. apply (Hfull r c); assumption.
Qed.

Lemma solution_completion (g s : Grid) :
  is_solution s -> extends n g s -> completion g s.
Proof.
  intros [Hs Hl] Hext. split; [assumption|]. split; [assumption|].
  intros r c Hr Hc _. apply Hl; assumption.
Qed.

Lemma solution_full (s : Grid) : is_solution s -> full n s.
Proof.
  intros [_ Hl] r c Hr Hc. destruct (Hl r c Hr Hc) as [Hd _]. lia.
Qed.

(** A consistent board completed by a search is a Solution. *)
Lemma consistent_completion_solution (g s : Grid) :
  consistent g -> completion g s -> is_solution s.
Proof.
  intros [Hwf Hcons] [Hs [Hext Hfill]]. split; [assumption|].
  intros r c Hr Hc.
  destruct (Z.eq_dec (get g r c) 0) as [Hz|Hnz]; [apply Hfill; auto|].
  destruct (Hcons r c Hr Hc Hnz) as [Hd Hl].
  rewrite (Hext r c Hr Hc Hnz). split; [assumption|].
  intros r' c' Hr' Hc' Hp.
  destruct (Z.eq_dec (get g r' c') 0) as [Hz'|Hnz'].
  - destruct (Hfill r' c' Hr' Hc' Hz') as [_ Hl'].
    specialize (Hl' r c Hr Hc (peer_sym _ _ _ _ Hp)).
    rewrite (Hext r c Hr Hc Hnz) in Hl'. congruence.
  - rewrite (Hext r' c' Hr' Hc' Hnz'). apply Hl; auto.
Qed.

Lemma consistent_set (g : Grid) (r c : nat) (d : Z) :
  consistent g -> (r < n)%nat -> (c < n)%nat -> legal g r c d ->
  consistent (set_cell g r c d).
Proof.
  intros [Hwf Hcons] Hr Hc [Hd Hl]. split; [apply wf_set_cell; assumption|].
  intros r1 c1 Hr1 Hc1 Hnz.
  assert (Hcase : (r, c) = (r1, c1) \/ (r, c) <> (r1, c1)).
  { destruct (Nat.eq_dec r r1); destruct (Nat.eq_dec c c1);
      subst; auto; right; congruence. }
  destruct Hcase as [Heq|Hne].
  - injection Heq as <- <-. rewrite get_set_in by auto.
    split; [assumption|]. intros r2 c2 Hr2 Hc2 Hp.
    rewrite get_set_other by (destruct Hp; assumption). apply Hl; auto.
  - rewrite get_set_other in * by assumption.
    destruct (Hcons r1 c1 Hr1 Hc1 Hnz) as [Hd1 Hl1].
    split; [assumption|]. intros r2 c2 Hr2 Hc2 Hp.
    assert (Hcase : (r, c) = (r2, c2) \/ (r, c) <> (r2, c2)).
    { destruct (Nat.eq_dec r r2); destruct (Nat.eq_dec c c2);
        subst; auto; right; congruence. }
    destruct Hcase as [Heq|Hne2].
    + injection Heq as <- <-. rewrite get_set_in by auto.
      intros ->. apply (Hl r1 c1 Hr1 Hc1 (peer_sym _ _ _ _ Hp)).
      reflexivity.
    + rewrite get_set_other by assumption. apply Hl1; auto.
Qed.

Lemma consistent_unset (g : Grid) (r c : nat) :
  consistent g -> consistent (set_cell g r c 0).
Proof.
  intros [Hwf Hcons]. split; [apply wf_set_cell; assumption|].
  intros r1 c1 Hr1 Hc1 Hnz.
  assert (Hcase : (r, c) = (r1, c1) \/ (r, c) <> (r1, c1)).
  { destruct (Nat.eq_dec r r1); destruct (Nat.eq_dec c c1);
      subst; auto; right; congruence. }
  destruct Hcase as [Heq|Hne].
  - injection Heq as <- <-.
    destruct (Nat.lt_ge_cases r (length g)) as [H1|H1].
    + rewrite get_set_in in Hnz by auto. contradiction.
    + destruct Hwf; lia.
  - rewrite get_set_other in * by assumption.
    destruct (Hcons r1 c1 Hr1 Hc1 Hnz) as [Hd1 Hl1].
    split; [assumption|]. intros r2 c2 Hr2 Hc2 Hp.
    assert (Hcase : (r, c) = (r2, c2) \/ (r, c) <> (r2, c2)).
    { destruct (Nat.eq_dec r r2); destruct (Nat.eq_dec c c2);
        subst; auto; right; congruence. }
    destruct Hcase as [Heq|Hne2].
    + injection Heq as <- <-. rewrite get_set_in by auto. lia.
    + rewrite get_set_other by assumption. apply Hl1; auto.
Qed.

Lemma extends_unset (g s : Grid) (r c : nat) :
  extends n g s -> extends n (set_cell g r c 0) s.
Proof.
  intros Hext r' c' Hr' Hc' Hnz.
  assert (Hcase : (r, c) = (r', c') \/ (r, c) <> (r', c')).
  { destruct (Nat.eq_dec r r'); destruct (Nat.eq_dec c c');
      subst; auto; right; congruence. }
  destruct Hcase as [Heq|Hne].
  - injection Heq as <- <-.
    destruct (Nat.lt_ge_cases r (length g)) as [H1|H1];
      destruct (Nat.lt_ge_cases c (length (nth r g []))) as [H2|H2].
    + rewrite get_set_same in Hnz by assumption. contradiction.
    + exfalso. apply Hnz. unfold get, set_cell.
      rewrite nth_upd_same by assumption.
      rewrite upd_out by assumption. apply nth_overflow. assumption.
    + unfold set_cell in *. rewrite upd_out in * by assumption. auto.
    + unfold set_cell in *. rewrite upd_out in * by assumption. auto.
  - rewrite get_set_other in * by assumption. auto.
Qed.

Lemma consistent_empty : consistent (const_grid n 0).
Proof.
  split; [apply wf_const_grid|].
  intros r c Hr Hc Hnz. rewrite get_const_grid in Hnz by assumption.
  contradiction.
Qed.

End RulesFacts.

(* ================================================================== *)
(** * Counting the cells that hold a given mark *)

Lemma filter_upd_length {A : Type} (f : A -> bool) (i : nat) (v d : A)
      (l : list A) :
  (i < length l)%nat -> f (nth i l d) = true -> f v = false ->
  S (length (filter f (upd i v l))) = length (filter f l).
Proof.
  revert i; induction l as [|h t IH]; intros [|i] Hi Hold Hnew;
    simpl in *; try lia.
  - rewrite Hold, Hnew. reflexivity.
  - destruct (f h); simpl; rewrite <- (IH i); auto; lia.
Qed.

Lemma filter_concat_upd_length {A : Type} (f : A -> bool) (r : nat)
      (row : list A) (g : list (list A)) :
  (r < length g)%nat ->
  (length (filter f (concat (upd r row g)))
   + length (filter f (nth r g [])))%nat
  = (length (filter f (concat g)) + length (filter f row))%nat.
Proof.
  revert r; induction g as [|h t IH]; intros [|r] Hr; simpl in *; try lia.
  - rewrite !filter_app, !length_app. lia.
  - rewrite !filter_app, !length_app.
    specialize (IH r ltac:(lia)). lia.
Qed.

Lemma marks_set_cell (f : Z -> bool) (n : nat) (g : Grid) (r c : nat)
      (v : Z) :
  wf_grid n g -> (r < n)%nat -> (c < n)%nat ->
  f (get g r c) = true -> f v = false ->
  S (length (filter f (concat (set_cell g r c v))))
  = length (filter f (concat g)).
Proof.
  intros Hwf Hr Hc Hold Hnew. unfold set_cell.
  assert (Hlen : (r < length g)%nat) by (destruct Hwf; lia).
  pose proof (filter_concat_upd_length f r (upd c v (nth r g [])) g Hlen)
    as H1.
  assert (H2 : S (length (filter f (upd c v (nth r g []))))
               = length (filter f (nth r g []))).
  { apply filter_upd_length with (d := 0); auto.
    rewrite (wf_grid_row n); auto. }
  lia.
Qed.

Lemma empties_set_cell (n : nat) (g : Grid) (r c : nat) (d : Z) :
  wf_grid n g -> (r < n)%nat -> (c < n)%nat ->
  get g r c = 0 -> d <> 0 ->
  S (empties (set_cell g r c d)) = empties g.
Proof.
  intros Hwf Hr Hc Hz Hd. unfold empties.
  apply (marks_set_cell _ n); auto.
  - rewrite Hz. reflexivity.
  - apply Z.eqb_neq. assumption.
Qed.

Lemma NoDup_all_equal {A : Type} (x : A) (l : list A) :
  NoDup l -> (forall y, In y l -> y = x) -> (length l <= 1)%nat.
Proof.
  intros Hnd Hall. destruct l as [|a [|b t]]; simpl; try lia.
  exfalso. inversion Hnd as [|? ? Hnotin _]; subst. apply Hnotin.
  rewrite (Hall a), (Hall b); simpl; auto.
Qed.

(* ================================================================== *)
(** * The jigsaw solver *)

Section JigsawSolver.

Import Jigsaw.

Variable regions : Grid.

Notation rof := (jigsaw_region regions).
Notation N := GRID_SIZE.

Lemma In_DIGITS (d : Z) : In d DIGITS <-> 1 <= d <= 9.
Proof.
  unfold DIGITS. rewrite in_map_iff. split.
  - intros [k [<- Hk]]. apply in_seq in Hk. unfold GRID_SIZE in Hk. lia.
  - intros Hd. exists (Z.to_nat d). split; [lia|].
    apply in_seq. unfold GRID_SIZE. lia.
Qed.

Lemma NoDup_DIGITS : NoDup DIGITS.
Proof.
  unfold DIGITS. apply Finite.Injective_map_NoDup; [|apply seq_NoDup].
  intros a b H. lia.
Qed.

Lemma In_used_values (g : Grid) (r c : nat) (d : Z) :
  wf_grid N g -> (r < N)%nat -> (c < N)%nat ->
  (In d (used_values g regions r c) <->
   d <> 0 /\ exists r' c', (r' < N)%nat /\ (c' < N)%nat /\ get g r' c' = d
             /\ (r' = r \/ c' = c \/ rof r' c' = rof r c)).
Proof.
  intros Hwf Hr Hc. unfold used_values, region_index.
  rewrite !in_app_iff, !filter_In, in_map_iff, in_flat_map.
  unfold nonzero. split.
  - intros [[Hin Hnz]|[[[i [Hi Hin]] Hnz]|[rr [Hrr Hin]]]].
    + apply negb_true_iff, Z.eqb_neq in Hnz. split; [assumption|].
      destruct (In_nth _ _ 0 Hin) as [c' [Hc' Hnth]].
      rewrite (wf_grid_row N) in Hc' by auto.
      exists r, c'. auto.
    + apply negb_true_iff, Z.eqb_neq in Hnz. split; [assumption|].
      apply in_seq in Hin. exists i, c. repeat split; auto; lia.
    + apply in_flat_map in Hin. destruct Hin as [cc [Hcc Hin]].
      apply in_seq in Hrr, Hcc.
      destruct ((get regions rr cc =? get regions r c)
                && negb (get g rr cc =? 0)) eqn:E; [|contradiction].
      destruct Hin as [Hin|[]].
      apply andb_true_iff in E. destruct E as [E1 E2].
      apply Z.eqb_eq in E1. apply negb_true_iff, Z.eqb_neq in E2.
      split; [congruence|]. exists rr, cc.
      repeat split; auto; try lia.
  - intros [Hnz [r' [c' [Hr' [Hc' [Hget [H|[H|H]]]]]]]].
    + subst r'. left. split.
      * rewrite <- Hget. apply nth_In. rewrite (wf_grid_row N); auto.
      * apply negb_true_iff, Z.eqb_neq. assumption.
    + subst c'. right. left. split.
      * exists r'. split; [assumption|]. apply in_seq. lia.
      * apply negb_true_iff, Z.eqb_neq. assumption.
    + right. right. exists r'. split; [apply in_seq; lia|].
      apply in_flat_map. exists c'. split; [apply in_seq; lia|].
      unfold jigsaw_region in H. rewrite H, Z.eqb_refl. simpl.
      rewrite Hget.
      apply Z.eqb_neq in Hnz. rewrite Hnz. simpl. auto.
Qed.

(** [compute_candidates] returns the legal symbols of an empty cell. *)
Lemma compute_candidates_spec (g : Grid) (r c : nat) (d : Z) :
  wf_grid N g -> (r < N)%nat -> (c < N)%nat ->
  (In d (compute_candidates g regions r c) <->
   get g r c = 0 /\ legal N rof g r c d).
Proof.
  intros Hwf Hr Hc. unfold compute_candidates, nonzero.
  destruct (get g r c =? 0) eqn:E; cbn [negb].
  - apply Z.eqb_eq in E. rewrite filter_In, In_DIGITS.
    rewrite negb_true_iff.
    split.
    + intros [Hd Hex]. split; [assumption|]. split; [exact Hd|].
      intros r' c' Hr' Hc' [Hne Hp] Hget.
      assert (Hin : In d (used_values g regions r c)).
      { apply In_used_values; auto. split; [lia|].
        exists r', c'. repeat split; auto.
        destruct Hp as [H|[H|H]]; auto. }
      assert (Ht : existsb (Z.eqb d) (used_values g regions r c) = true).
      { apply existsb_exists. exists d. split; [assumption|].
        apply Z.eqb_refl. }
      congruence.
    + intros [_ [Hd Hl]]. split; [exact Hd|].
      destruct (existsb (Z.eqb d) (used_values g regions r c)) eqn:Ex;
        [|reflexivity].
      exfalso. apply existsb_exists in Ex. destruct Ex as [x [Hin Hx]].
      apply Z.eqb_eq in Hx. subst x.
      apply In_used_values in Hin; auto.
      destruct Hin as [Hnz [r' [c' [Hr' [Hc' [Hget Hp]]]]]].
      apply (Hl r' c' Hr' Hc'); [|assumption].
      split.
      * intros Heq. injection Heq as -> ->. congruence.
      * destruct Hp as [H|[H|H]]; auto.
  - apply Z.eqb_neq in E. split; [intros []|intros [H _]; contradiction].
Qed.

Lemma NoDup_compute_candidates (g : Grid) (r c : nat) :
  NoDup (compute_candidates g regions r c).
Proof.
  unfold compute_candidates. destruct (nonzero (get g r c)).
  - constructor.
  - apply NoDup_filter. apply NoDup_DIGITS.
Qed.

Lemma mrv_scan_spec (g : Grid) (todo seen : list Cell)
      (best : option (Cell * list Z)) :
  mrv_best regions g seen best ->
  match mrv_scan g regions todo best with
  | inl (r, c) =>
      In (r, c) (seen ++ todo) /\ get g r c = 0
      /\ compute_candidates g regions r c = []
  | inr best' => mrv_best regions g (seen ++ todo) best'
  end.
Proof.
  revert seen best. induction todo as [|[r c] rest IH]; intros seen best Hb.
  - simpl. rewrite app_nil_r. assumption.
  - simpl.
    change (seen ++ (r, c) :: rest) with (seen ++ [(r, c)] ++ rest).
    rewrite app_assoc.
    destruct (get g r c =? 0) eqn:E.
    + apply Z.eqb_eq in E.
      destruct (compute_candidates g regions r c) as [|d ds] eqn:Ec.
      * repeat split; auto. rewrite !in_app_iff. simpl. auto.
      * apply IH. destruct best as [[[r0 c0] bc]|].
        -- destruct Hb as [H1 [H2 [H3 [H4 H5]]]].
           destruct (length (d :: ds) <? length bc)%nat eqn:El.
           ++ apply Nat.ltb_lt in El. rewrite <- Ec.
              repeat split; auto.
              ** rewrite in_app_iff. simpl. auto.
              ** rewrite Ec. discriminate.
              ** intros r' c' Hin Hz. rewrite in_app_iff in Hin.
                 destruct Hin as [Hin|[Heq|[]]].
                 --- specialize (H5 r' c' Hin Hz). rewrite Ec. lia.
                 --- injection Heq as <- <-. lia.
           ++ apply Nat.ltb_ge in El.
              repeat split; auto.
              ** rewrite in_app_iff. auto.
              ** intros r' c' Hin Hz. rewrite in_app_iff in Hin.
                 destruct Hin as [Hin|[Heq|[]]]; auto.
                 injection Heq as <- <-. rewrite Ec. assumption.
        -- simpl in Hb. rewrite <- Ec. repeat split; auto.
           ++ rewrite in_app_iff. simpl. auto.
           ++ rewrite Ec. discriminate.
           ++ intros r' c' Hin Hz. rewrite in_app_iff in Hin.
              destruct Hin as [Hin|[Heq|[]]].
              ** exfalso. apply (Hb r' c'); assumption.
              ** injection Heq as <- <-. lia.
    + apply Z.eqb_neq in E. apply IH.
      destruct best as [[[r0 c0] bc]|].
      * destruct Hb as [H1 [H2 [H3 [H4 H5]]]]. repeat split; auto.
        -- rewrite in_app_iff. auto.
        -- intros r' c' Hin Hz. rewrite in_app_iff in Hin.
           destruct Hin as [Hin|[Heq|[]]]; auto.
           injection Heq as <- <-. contradiction.
      * simpl in *. intros r' c' Hin. rewrite in_app_iff in Hin.
        destruct Hin as [Hin|[Heq|[]]]; auto.
        injection Heq as <- <-. assumption.
Qed.

(** The three ways [find_unassigned_with_mrv] returns. *)
Lemma find_unassigned_spec (g : Grid) (rng : Rng) :
  match find_unassigned_with_mrv g regions rng with
  | (None, rng') => rng' = rng /\ full N g
  | (Some (r, c, cands), _) =>
      (r < N)%nat /\ (c < N)%nat /\ get g r c = 0
      /\ Permutation cands (compute_candidates g regions r c)
      /\ (cands = [] \/
          forall r' c', (r' < N)%nat -> (c' < N)%nat -> get g r' c' = 0 ->
            (length cands
             <= length (compute_candidates g regions r' c'))%nat)
  end.
Proof.
  unfold find_unassigned_with_mrv.
  pose proof (mrv_scan_spec g (cells_of N) [] None) as H.
  rewrite app_nil_l in H. specialize (H ltac:(intros r c [])).
  destruct (mrv_scan g regions (cells_of N) None) as [[r c]|[[[r c] bc]|]].
  - destruct H as [Hin [Hz Hc]]. apply In_cells_of in Hin.
    rewrite Hc.
    split; [tauto|]. split; [tauto|]. split; [assumption|].
    split; [constructor|left; reflexivity].
  - destruct H as [Hin [Hz [Hc [Hne Hmin]]]]. apply In_cells_of in Hin.
    destruct (shuffle bc rng) as [sh rng'] eqn:Es.
    pose proof (shuffle_perm_eq _ _ _ _ Es) as Hp.
    split; [tauto|]. split; [tauto|]. split; [assumption|]. split.
    + rewrite <- Hc. assumption.
    + right. intros r' c' Hr' Hc' Hz'.
      rewrite (Permutation_length Hp). apply Hmin; auto.
      apply In_cells_of. auto.
  - split; [reflexivity|]. intros r c Hr Hc. apply H.
    apply In_cells_of. auto.
Qed.

End JigsawSolver.

Section JigsawSearch.

Import Jigsaw.

Variable regions : Grid.

Notation rof := (jigsaw_region regions).
Notation N := GRID_SIZE.
Notation completion := (completion N rof).

Lemma unset_restores (g : Grid) (r c : nat) (d : Z) :
  get g r c = 0 -> set_cell (set_cell g r c d) r c 0 = g.
Proof. intros Hz. rewrite <- Hz at 1. apply set_set_restore. Qed.

Lemma try_cands_spec
      (rec : Grid -> Rng -> option (bool * Grid * Rng))
      (g : Grid) (r c : nat) :
  wf_grid N g -> (r < N)%nat -> (c < N)%nat -> get g r c = 0 ->
  forall cands : list Z,
    (forall d, In d cands -> legal N rof g r c d) ->
    (forall d rng0, In d cands ->
       exists b g' rng', rec (set_cell g r c d) rng0 = Some (b, g', rng')
                         /\ dfs_post regions (set_cell g r c d) b g') ->
    forall rng, exists b g' rng',
        try_cands rec r c cands g rng = Some (b, g', rng')
        /\ dfs_post regions g b g'.
Proof.
  intros Hwf Hr Hc Hz cands. induction cands as [|d ds IH];
    intros Hleg Hrec rng; simpl.
  - exists false, g, rng. split; [reflexivity|].
    split; [assumption|]. split; [discriminate|reflexivity].
  - destruct (Hrec d rng (or_introl eq_refl))
      as [b [g1 [rng1 [E [Hwf1 [Ht Hf]]]]]].
    rewrite E. destruct b.
    + exists true, g1, rng1. split; [reflexivity|].
      split; [assumption|]. split; [|discriminate].
      intros _. destruct (Ht eq_refl) as [Hcomp Hfull].
      split; [|assumption].
      apply (completion_unset N rof g g1 r c d); auto.
      apply Hleg. left. reflexivity.
    + rewrite (Hf eq_refl). rewrite unset_restores by assumption.
      apply IH.
      * intros d' Hin. apply Hleg. right. assumption.
      * intros d' rng0 Hin. apply Hrec. right. assumption.
Qed.

Lemma legal_nonzero (g : Grid) (r c : nat) (d : Z) :
  legal N rof g r c d -> d <> 0.
Proof. intros [Hd _]. lia. Qed.

(** With fuel above the number of empty cells, [dfs] returns. *)
Lemma dfs_spec (fuel : nat) :
  forall (g : Grid) (rng : Rng),
    wf_grid N g -> (empties g < fuel)%nat ->
    exists b g' rng',
      dfs fuel regions g rng = Some (b, g', rng') /\ dfs_post regions g b g'.
Proof.
  induction fuel as [|fuel IH]; intros g rng Hwf Hfuel; [lia|].
  simpl.
  pose proof (find_unassigned_spec regions g rng) as Hfind.
  destruct (find_unassigned_with_mrv g regions rng)
    as [[[[r c] cands]|] rng1].
  - destruct Hfind as [Hr [Hc [Hz [Hperm _]]]].
    destruct cands as [|d ds].
    + exists false, g, rng1. split; [reflexivity|].
      split; [assumption|]. split; [discriminate|reflexivity].
    + assert (Hleg : forall d', In d' (d :: ds) -> legal N rof g r c d').
      { intros d' Hin.
        apply (Permutation_in _ Hperm) in Hin.
        apply compute_candidates_spec in Hin; tauto. }
      apply try_cands_spec; auto.
      intros d' rng0 Hin. apply IH.
      * apply wf_set_cell. assumption.
      * pose proof (empties_set_cell N g r c d' Hwf Hr Hc Hz
                      (legal_nonzero _ _ _ _ (Hleg d' Hin))).
        lia.
  - destruct Hfind as [_ Hfull].
    exists true, g, rng1. split; [reflexivity|].
    split; [assumption|]. split; [|discriminate].
    intros _. split; [|assumption].
    apply completion_full; auto.
Qed.

Lemma grid_eq_dec (a b : Grid) : {a = b} + {a <> b}.
Proof. apply list_eq_dec. apply list_eq_dec. apply Z.eq_dec. Qed.

Lemma count_cands_spec
      (rec : Grid -> Z -> Rng -> option (bool * Grid * Z * Rng))
      (limit : Z) (g : Grid) (r c : nat) :
  wf_grid N g -> (r < N)%nat -> (c < N)%nat -> get g r c = 0 ->
  forall cands : list Z,
    NoDup cands ->
    (forall d, In d cands -> legal N rof g r c d) ->
    (forall d count rng, In d cands -> count < limit ->
       exists b g' count' rng',
         rec (set_cell g r c d) count rng = Some (b, g', count', rng')
         /\ count_post limit (completion (set_cell g r c d))
                       (set_cell g r c d) count b g' count') ->
    forall count rng, count < limit ->
      exists b g' count' rng',
        count_cands rec limit r c cands g count rng
        = Some (b, g', count', rng')
        /\ count_post limit
             (fun s => completion g s /\ In (get s r c) cands)
             g count b g' count'.
Proof.
  intros Hwf Hr Hc Hz cands. induction cands as [|d ds IH];
    intros Hnd Hleg Hrec count rng Hlt; simpl.
  - exists false, g, count, rng. split; [reflexivity|].
    split; [assumption|]. split; [split; [discriminate|lia]|].
    split; [reflexivity|]. split; [lia|]. split.
    + exists []. split; [constructor|]. split; [intros s []|simpl; lia].
    + intros l _ Hl. destruct l as [|s l'].
      * simpl. lia.
      * exfalso. destruct (Hl s (or_introl eq_refl)) as [_ []].
  - inversion Hnd as [|? ? Hnotin Hnd']; subst.
    destruct (Hrec d count rng (or_introl eq_refl) Hlt)
      as [b [g1 [c1 [rng1 [E [Hwf1 [Hb [Hf [Hrange [Hsound Hcompl]]]]]]]]]].
    rewrite E.
    assert (Hd : legal N rof g r c d) by (apply Hleg; left; reflexivity).
    assert (Hin_d : forall s, completion (set_cell g r c d) s ->
                              completion g s /\ get s r c = d).
    { intros s Hs. split.
      - apply (completion_unset N rof g s r c d); auto.
      - destruct Hs as [_ [Hext _]].
        rewrite (Hext r c Hr Hc);
          rewrite (get_set_in N) by assumption; auto.
        apply (legal_nonzero _ _ _ _ Hd). }
    destruct b.
    + assert (Hlim : limit <= c1) by (apply Hb; reflexivity).
      apply Z.leb_le in Hlim. rewrite Hlim. simpl.
      apply Z.leb_le in Hlim.
      exists true, g1, c1, rng1. split; [reflexivity|].
      split; [assumption|]. split; [tauto|]. split; [discriminate|].
      split; [assumption|]. split.
      * destruct Hsound as [l [Hl1 [Hl2 Hl3]]].
        exists l. split; [assumption|]. split; [|assumption].
        intros s Hs. destruct (Hin_d s (Hl2 s Hs)) as [H1 H2].
        split; [assumption|]. left. symmetry. assumption.
      * intros l _ _. lia.
    + assert (Hlim : c1 < limit).
      { destruct (Z.lt_ge_cases c1 limit) as [H|H]; [assumption|].
        apply Hb in H. discriminate. }
      simpl. rewrite (Hf eq_refl). rewrite unset_restores by assumption.
      destruct (IH Hnd'
                  (fun d' Hin => Hleg d' (or_intror Hin))
                  (fun d' cnt rng0 Hin => Hrec d' cnt rng0 (or_intror Hin))
                  c1 rng1 Hlim)
        as [b2 [g2 [c2 [rng2 [E2 [Hwf2 [Hb2 [Hf2 [Hrange2
             [Hsound2 Hcompl2]]]]]]]]]].
      exists b2, g2, c2, rng2. split; [assumption|].
      split; [assumption|]. split; [assumption|].
      split; [assumption|]. split; [lia|]. split.
      * destruct Hsound as [l1 [Hl1 [Hl2 Hl3]]].
        destruct Hsound2 as [l2 [Hm1 [Hm2 Hm3]]].
        exists (l1 ++ l2). split; [|split].
        -- apply NoDup_app; auto.
           intros s Hs1 Hs2.
           destruct (Hin_d s (Hl2 s Hs1)) as [_ H1].
           destruct (Hm2 s Hs2) as [_ H2].
           rewrite H1 in H2. contradiction.
        -- intros s Hs. apply in_app_iff in Hs. destruct Hs as [Hs|Hs].
           ++ destruct (Hin_d s (Hl2 s Hs)) as [H1 H2].
              split; [assumption|]. left. symmetry. assumption.
           ++ destruct (Hm2 s Hs) as [H1 H2].
              split; [assumption|]. right. assumption.
        -- rewrite length_app, Nat2Z.inj_add. lia.
      * intros l Hl HP.
        set (f := fun s : Grid => get s r c =? d).
        pose proof (filter_length f l) as Hlen.
        assert (H1 : Z.min limit
                       (count + Z.of_nat (length (filter f l))) <= c1).
        { apply Hcompl.
          - apply NoDup_filter. assumption.
          - intros s Hs. apply filter_In in Hs. destruct Hs as [Hs Hfs].
            unfold f in Hfs. apply Z.eqb_eq in Hfs.
            rewrite <- Hfs.
            apply (completion_set N rof); auto.
            apply (HP s Hs). }
        assert (H2 : Z.min limit
                       (c1 + Z.of_nat
                               (length (filter (fun x => negb (f x)) l)))
                     <= c2).
        { apply Hcompl2.
          - apply NoDup_filter. assumption.
          - intros s Hs. apply filter_In in Hs. destruct Hs as [Hs Hfs].
            unfold f in Hfs. apply negb_true_iff, Z.eqb_neq in Hfs.
            destruct (HP s Hs) as [Hcs [Heq|Hin]].
            + exfalso. apply Hfs. symmetry. assumption.
            + split; assumption. }
        lia.
Qed.

(** With fuel above the number of empty cells, the counting search
    returns, having counted the search results from [g] up to [limit]. *)
Lemma count_dfs_spec (limit : Z) (fuel : nat) :
  forall (g : Grid) (count : Z) (rng : Rng),
    wf_grid N g -> (empties g < fuel)%nat ->
    exists b g' count' rng',
      count_dfs fuel regions limit g count rng = Some (b, g', count', rng')
      /\ count_post limit (completion g) g count b g' count'.
Proof.
  induction fuel as [|fuel IH]; intros g count rng Hwf Hfuel; [lia|].
  simpl. destruct (limit <=? count) eqn:Elim.
  - apply Z.leb_le in Elim.
    exists true, g, count, rng. split; [reflexivity|].
    split; [assumption|]. split; [tauto|]. split; [discriminate|].
    split; [lia|]. split.
    + exists []. split; [constructor|]. split; [intros s []|simpl; lia].
    + intros l _ _. lia.
  - apply Z.leb_gt in Elim.
    pose proof (find_unassigned_spec regions g rng) as Hfind.
    destruct (find_unassigned_with_mrv g regions rng)
      as [[[[r c] cands]|] rng1].
    + destruct Hfind as [Hr [Hc [Hz [Hperm _]]]].
      assert (Hleg : forall d', In d' cands -> legal N rof g r c d').
      { intros d' Hin.
        apply (Permutation_in _ Hperm) in Hin.
        apply compute_candidates_spec in Hin; tauto. }
      assert (Hall : forall s, completion g s -> In (get s r c) cands).
      { intros s Hs.
        apply (Permutation_in _ (Permutation_sym Hperm)).
        apply compute_candidates_spec; auto. split; [assumption|].
        apply (completion_legal N rof); auto. }
      destruct cands as [|d ds].
      * exists false, g, count, rng1. split; [reflexivity|].
        split; [assumption|]. split; [split; [discriminate|lia]|].
        split; [reflexivity|]. split; [lia|]. split.
        -- exists []. split; [constructor|].
           split; [intros s []|simpl; lia].
        -- intros l _ Hl. destruct l as [|s l'].
           ++ simpl. lia.
           ++ exfalso. apply (Hall s). apply Hl. left. reflexivity.
      * assert (Hnd : NoDup (d :: ds)).
        { apply (Permutation_NoDup (Permutation_sym Hperm)).
          apply NoDup_compute_candidates. }
        destruct (count_cands_spec (count_dfs fuel regions limit) limit
                    g r c Hwf Hr Hc Hz (d :: ds) Hnd Hleg) with
          (count := count) (rng := rng1)
          as [b [g' [count' [rng' [E [Hwf' [Hb [Hf [Hrange
               [Hsound Hcompl]]]]]]]]]]; [|assumption|].
        { intros d' cnt rng0 Hin _. apply IH.
          - apply wf_set_cell. assumption.
          - pose proof (empties_set_cell N g r c d' Hwf Hr Hc Hz
                          (legal_nonzero _ _ _ _ (Hleg d' Hin))).
            lia. }
        exists b, g', count', rng'. split; [assumption|].
        split; [assumption|]. split; [assumption|].
        split; [assumption|]. split; [assumption|]. split.
        -- destruct Hsound as [l [H1 [H2 H3]]]. exists l.
           split; [assumption|]. split; [|assumption].
           intros s Hs. apply (H2 s Hs).
        -- intros l Hl HP. apply Hcompl; [assumption|].
           intros s Hs. split; [apply HP; assumption|].
           apply Hall. apply HP. assumption.
    + destruct Hfind as [_ Hfull].
      exists (limit <=? count + 1), g, (count + 1), rng1.
      split; [reflexivity|].
      split; [assumption|]. split; [|split; [reflexivity|]].
      { split; intros H; [apply Z.leb_le|apply Z.leb_le in H]; assumption. }
      split; [lia|]. split.
      * exists [g]. split; [repeat constructor; intros []|].
        split; [|simpl; lia].
        intros s [<-|[]]. apply completion_full; auto.
      * intros l Hl HP.
        assert (length l <= 1)%nat.
        { apply (NoDup_all_equal g); [assumption|].
          intros s Hs. apply (completion_full N rof g s); auto. }
        lia.
Qed.

End JigsawSearch.

(* ================================================================== *)
(** * Units of a Solution *)

Lemma filter_all {A : Type} (f : A -> bool) (l : list A) :
  (forall x, In x l -> f x = true) -> filter f l = l.
Proof.
  induction l as [|h t IH]; intros H; simpl; [reflexivity|].
  rewrite (H h (or_introl eq_refl)). f_equal. apply IH.
  intros x Hx. apply H. right. assumption.
Qed.

Lemma filter_none {A : Type} (f : A -> bool) (l : list A) :
  (forall x, In x l -> f x = false) -> filter f l = [].
Proof.
  induction l as [|h t IH]; intros H; simpl; [reflexivity|].
  rewrite (H h (or_introl eq_refl)). apply IH.
  intros x Hx. apply H. right. assumption.
Qed.

Lemma length_concat_wf (n : nat) (g : Grid) :
  Forall (fun row => length row = n) g ->
  length (concat g) = (length g * n)%nat.
Proof.
  induction g as [|h t IH]; intros H; simpl; [reflexivity|].
  inversion H; subst. rewrite length_app, IH by assumption. reflexivity.
Qed.

Lemma In_concat_get (n : nat) (g : Grid) (v : Z) :
  wf_grid n g -> In v (concat g) ->
  exists r c, (r < n)%nat /\ (c < n)%nat /\ get g r c = v.
Proof.
  intros Hwf Hin. apply in_concat in Hin. destruct Hin as [row [Hrow Hv]].
  destruct (In_nth _ _ [] Hrow) as [r [Hr Hnth]].
  destruct (In_nth _ _ 0 Hv) as [c [Hc Hnth']].
  assert (r < n)%nat by (destruct Hwf; lia).
  exists r, c. subst row. rewrite (wf_grid_row n) in Hc by assumption.
  unfold get. auto.
Qed.

Lemma clues_full (n : nat) (g : Grid) :
  wf_grid n g -> full n g -> clues g = (n * n)%nat.
Proof.
  intros Hwf Hfull. unfold clues. rewrite filter_all.
  - destruct Hwf as [Hl Hf]. rewrite (length_concat_wf n) by assumption.
    rewrite Hl. reflexivity.
  - intros v Hv. destruct (In_concat_get n g v Hwf Hv) as [r [c [Hr [Hc <-]]]].
    apply negb_true_iff, Z.eqb_neq. apply Hfull; assumption.
Qed.

Lemma empties_full (n : nat) (g : Grid) :
  wf_grid n g -> full n g -> empties g = O.
Proof.
  intros Hwf Hfull. unfold empties. rewrite filter_none; [reflexivity|].
  intros v Hv. destruct (In_concat_get n g v Hwf Hv) as [r [c [Hr [Hc <-]]]].
  apply Z.eqb_neq. apply Hfull; assumption.
Qed.

Lemma clues_empties (n : nat) (g : Grid) :
  wf_grid n g -> (clues g + empties g = n * n)%nat.
Proof.
  intros [Hl Hf]. unfold clues, empties.
  pose proof (filter_length (fun v => v =? 0) (concat g)) as H.
  rewrite (length_concat_wf n) in H by assumption. rewrite Hl in H. lia.
Qed.

Lemma clues_unset (n : nat) (g : Grid) (r c : nat) :
  wf_grid n g -> (r < n)%nat -> (c < n)%nat -> get g r c <> 0 ->
  S (clues (set_cell g r c 0)) = clues g.
Proof.
  intros Hwf Hr Hc Hnz. unfold clues.
  apply (marks_set_cell _ n); auto.
  apply negb_true_iff, Z.eqb_neq. assumption.
Qed.

Section Units.

Variable n : nat.
Variable region_of : nat -> nat -> Z.

Lemma symbols_pigeonhole (l : list Z) :
  NoDup l -> length l = n ->
  (forall d, In d l -> 1 <= d <= Z.of_nat n) ->
  each_once n l.
Proof.
  intros Hnd Hlen Hran d Hd.
  apply (proj1 (NoDup_count_occ' Z.eq_dec l) Hnd).
  assert (Hincl : incl (map Z.of_nat (seq 1 n)) l).
  { apply (NoDup_length_incl Hnd).
    - rewrite length_map, length_seq. lia.
    - intros x Hx. apply Hran in Hx. apply in_map_iff.
      exists (Z.to_nat x). split; [lia|]. apply in_seq. lia. }
  apply Hincl. apply in_map_iff. exists (Z.to_nat d). split; [lia|].
  apply in_seq. lia.
Qed.

(** Any [n] cells that are pairwise peers carry each symbol once. *)
Lemma unit_each_once (s : Grid) (cells : list Cell) :
  is_solution n region_of s ->
  NoDup cells -> length cells = n ->
  (forall a, In a cells -> (fst a < n)%nat /\ (snd a < n)%nat) ->
  (forall a b, In a cells -> In b cells -> a <> b ->
               fst a = fst b \/ snd a = snd b
               \/ region_of (fst a) (snd a) = region_of (fst b) (snd b)) ->
  each_once n (map (fun rc : Cell => get s (fst rc) (snd rc)) cells).
Proof.
  intros [Hwf Hleg] Hnd Hlen Hin Hpeer.
  apply symbols_pigeonhole.
  - clear Hlen. induction cells as [|a t IH]; simpl; [constructor|].
    inversion Hnd as [|? ? Hnotin Hnd']; subst. constructor.
    + intros Hx. apply in_map_iff in Hx. destruct Hx as [b [Heq Hb]].
      destruct (Hin a (or_introl eq_refl)) as [Ha1 Ha2].
      destruct (Hin b (or_intror Hb)) as [Hb1 Hb2].
      destruct (Hleg (fst a) (snd a) Ha1 Ha2) as [_ Hl].
      apply (Hl (fst b) (snd b) Hb1 Hb2); [|assumption].
      assert (Hne : a <> b) by (intros ->; contradiction).
      split.
      * destruct a, b. simpl. assumption.
      * apply Hpeer; simpl; auto.
    + apply IH; auto.
      * intros x Hx. apply Hin. right. assumption.
      * intros x y Hx Hy. apply Hpeer; right; assumption.
  - rewrite length_map. assumption.
  - intros d Hd. apply in_map_iff in Hd. destruct Hd as [a [<- Ha]].
    destruct (Hin a Ha) as [H1 H2]. apply (Hleg _ _ H1 H2).
Qed.

Lemma row_each_once (s : Grid) (r : nat) :
  is_solution n region_of s -> (r < n)%nat ->
  each_once n (row_values n s r).
Proof.
  intros Hs Hr. unfold row_values.
  rewrite <- (map_map (fun c => (r, c))
                      (fun rc : Cell => get s (fst rc) (snd rc))).
  apply unit_each_once; auto.
  - apply Finite.Injective_map_NoDup; [|apply seq_NoDup].
    intros a b H. congruence.
  - rewrite length_map, length_seq. reflexivity.
  - intros a Ha. apply in_map_iff in Ha. destruct Ha as [c [<- Hc]].
    apply in_seq in Hc. simpl. lia.
  - intros a b Ha Hb _. apply in_map_iff in Ha, Hb.
    destruct Ha as [c1 [<- _]]. destruct Hb as [c2 [<- _]]. auto.
Qed.

Lemma col_each_once (s : Grid) (c : nat) :
  is_solution n region_of s -> (c < n)%nat ->
  each_once n (col_values n s c).
Proof.
  intros Hs Hc. unfold col_values.
  rewrite <- (map_map (fun r => (r, c))
                      (fun rc : Cell => get s (fst rc) (snd rc))).
  apply unit_each_once; auto.
  - apply Finite.Injective_map_NoDup; [|apply seq_NoDup].
    intros a b H. congruence.
  - rewrite length_map, length_seq. reflexivity.
  - intros a Ha. apply in_map_iff in Ha. destruct Ha as [r [<- Hr]].
    apply in_seq in Hr. simpl. lia.
  - intros a b Ha Hb _. apply in_map_iff in Ha, Hb.
    destruct Ha as [r1 [<- _]]. destruct Hb as [r2 [<- _]]. auto.
Qed.

Lemma region_each_once (s : Grid) (k : Z) :
  is_solution n region_of s ->
  length (region_cells n region_of k) = n ->
  each_once n (region_values n region_of s k).
Proof.
  intros Hs Hlen. unfold region_values.
  apply unit_each_once; auto.
  - apply NoDup_filter. apply NoDup_cells_of.
  - intros [r c] Ha. apply filter_In in Ha. destruct Ha as [Ha _].
    apply In_cells_of in Ha. assumption.
  - intros a b Ha Hb _. apply filter_In in Ha, Hb.
    destruct Ha as [_ Ha]. destruct Hb as [_ Hb].
    apply Z.eqb_eq in Ha, Hb. right. right. congruence.
Qed.

Lemma peerb_spec (r c r' c' : nat) :
  peerb region_of r c r' c' = true <-> peer region_of r c r' c'.
Proof.
  unfold peerb, peer, cell_eqb. simpl.
  rewrite andb_true_iff, negb_true_iff, !orb_true_iff.
  rewrite !Nat.eqb_eq, Z.eqb_eq. split.
  - intros [H1 H2]. split; [|tauto].
    intros Heq. injection Heq as -> ->.
    rewrite !Nat.eqb_refl in H1. discriminate.
  - intros [H1 H2]. split; [|tauto].
    apply andb_false_iff.
    destruct (Nat.eq_dec r r') as [->|Hr];
      destruct (Nat.eq_dec c c') as [->|Hc]; try congruence.
    + right. apply Nat.eqb_neq. assumption.
    + left. apply Nat.eqb_neq. assumption.
    + left. apply Nat.eqb_neq. assumption.
Qed.

Lemma legalb_sound (g : Grid) (r c : nat) (d : Z) :
  legalb n region_of g r c d = true -> legal n region_of g r c d.
Proof.
  unfold legalb, legal. rewrite !andb_true_iff, forallb_forall.
  intros [[H1 H2] H3]. apply Z.leb_le in H1, H2. split; [lia|].
  intros r' c' Hr' Hc' Hp Hget.
  specialize (H3 (r', c') (proj2 (In_cells_of n r' c') (conj Hr' Hc'))).
  simpl in H3. apply peerb_spec in Hp. rewrite Hp in H3.
  apply Z.eqb_eq in Hget. rewrite Hget in H3. discriminate.
Qed.

Lemma is_solutionb_sound (s : Grid) :
  is_solutionb n region_of s = true -> is_solution n region_of s.
Proof.
  unfold is_solutionb, is_solution. rewrite andb_true_iff, forallb_forall.
  intros [H1 H2]. split; [apply wf_gridb_sound; assumption|].
  intros r c Hr Hc. apply legalb_sound.
  apply (H2 (r, c)). apply In_cells_of. auto.
Qed.

Lemma extendsb_sound (g s : Grid) :
  extendsb n g s = true -> extends n g s.
Proof.
  unfold extendsb, extends. rewrite forallb_forall.
  intros H r c Hr Hc Hnz.
  specialize (H (r, c) (proj2 (In_cells_of n r c) (conj Hr Hc))).
  simpl in H. apply orb_true_iff in H. destruct H as [H|H].
  - apply Z.eqb_eq in H. contradiction.
  - apply Z.eqb_eq in H. assumption.
Qed.

End Units.

(* ================================================================== *)
(** * The jigsaw generator: synthesis, counting, reduction *)

Section JigsawGenerator.

Import Jigsaw.

Variable regions : Grid.

Notation rof := (jigsaw_region regions).
Notation N := GRID_SIZE.
Notation completion := (completion N rof).
Notation is_solution := (is_solution N rof).

Lemma solve_backtracking_spec (g : Grid) (rng : Rng) :
  wf_grid N g ->
  exists res rng',
    solve_backtracking g regions rng = Some (res, rng')
    /\ forall s, res = Some s -> completion g s /\ full N s.
Proof.
  intros Hwf. unfold solve_backtracking.
  destruct (dfs_spec regions (S (empties g)) g rng Hwf (Nat.lt_succ_diag_r _))
    as [b [g' [rng' [E [Hwf' [Ht Hf]]]]]].
  rewrite E. destruct b.
  - exists (Some g'), rng'. split; [reflexivity|].
    intros s Hs. injection Hs as <-. apply Ht. reflexivity.
  - exists None, rng'. split; [reflexivity|]. discriminate.
Qed.

Lemma retry_solution_spec (k : nat) (g : Grid) :
  wf_grid N g ->
  forall (sol : option Grid) (rng : Rng),
    (forall s, sol = Some s -> completion g s /\ full N s) ->
    exists res rng',
      retry_solution k g regions sol rng = Some (res, rng')
      /\ forall s, res = Some s -> completion g s /\ full N s.
Proof.
  intros Hwf. induction k as [|k IH]; intros sol rng Hsol.
  - destruct sol as [s|]; simpl.
    + exists (Some s), rng. auto.
    + exists None, rng. auto.
  - destruct sol as [s|]; simpl.
    + exists (Some s), rng. auto.
    + destruct (solve_backtracking_spec g rng Hwf)
        as [res [rng' [E Hres]]].
      rewrite E. apply IH. assumption.
Qed.

(** [generate_full_solution] returns, with a Solution or with the
    [RuntimeError] it raises. *)
Lemma generate_full_solution_spec (rng : Rng) :
  exists out rng',
    generate_full_solution regions rng = Some (out, rng')
    /\ out <> IndexError
    /\ forall s, out = Ok s -> is_solution s.
Proof.
  unfold generate_full_solution.
  pose proof (wf_const_grid N 0) as Hwf.
  destruct (solve_backtracking_spec _ rng Hwf) as [res [rng1 [E Hres]]].
  rewrite E.
  destruct (retry_solution_spec 5 _ Hwf res rng1 Hres)
    as [res2 [rng2 [E2 Hres2]]].
  rewrite E2. destruct res2 as [s|].
  - exists (Ok s), rng2. split; [reflexivity|]. split; [discriminate|].
    intros s' Hs'. injection Hs' as <-.
    apply (consistent_completion_solution N rof (const_grid N 0)).
    + apply consistent_empty.
    + apply Hres2. reflexivity.
  - exists RuntimeError, rng2. split; [reflexivity|].
    split; discriminate.
Qed.

(** [count_solutions] returns the number of search results from the
    grid, cut off at [limit]. *)
Lemma count_solutions_spec (g : Grid) (limit : Z) (rng : Rng) :
  wf_grid N g ->
  exists count rng',
    count_solutions g regions limit rng = Some (count, rng')
    /\ 0 <= count <= Z.max limit 0
    /\ (exists l : list Grid,
           NoDup l /\ (forall s, In s l -> completion g s)
           /\ Z.of_nat (length l) = count)
    /\ (forall l : list Grid,
           NoDup l -> (forall s, In s l -> completion g s) ->
           Z.min limit (Z.of_nat (length l)) <= count).
Proof.
  intros Hwf. unfold count_solutions.
  destruct (count_dfs_spec regions limit (S (empties g)) g 0 rng Hwf
              (Nat.lt_succ_diag_r _))
    as [b [g' [count [rng' [E [_ [_ [_ [Hrange [Hsound Hcompl]]]]]]]]]].
  rewrite E. exists count, rng'. split; [reflexivity|].
  split; [assumption|]. split.
  - destruct Hsound as [l [H1 [H2 H3]]]. exists l.
    split; [assumption|]. split; [assumption|]. lia.
  - intros l H1 H2. specialize (Hcompl l H1 H2). lia.
Qed.

(** The count does not depend on the draws of the generator. *)
Lemma count_solutions_deterministic (g : Grid) (limit : Z)
      (rng1 rng2 rng1' rng2' : Rng) (c1 c2 : Z) :
  wf_grid N g ->
  count_solutions g regions limit rng1 = Some (c1, rng1') ->
  count_solutions g regions limit rng2 = Some (c2, rng2') ->
  c1 = c2.
Proof.
  intros Hwf E1 E2.
  destruct (count_solutions_spec g limit rng1 Hwf)
    as [k1 [r1 [F1 [R1 [[l1 [A1 [B1 C1]]] D1]]]]].
  destruct (count_solutions_spec g limit rng2 Hwf)
    as [k2 [r2 [F2 [R2 [[l2 [A2 [B2 C2]]] D2]]]]].
  rewrite E1 in F1. rewrite E2 in F2.
  injection F1 as <- <-. injection F2 as <- <-.
  specialize (D1 l2 A2 B2). specialize (D2 l1 A1 B1). lia.
Qed.

Variable solution : Grid.
Hypothesis Hsol : is_solution solution.

Notation unique_for := (unique_for N rof solution).

Lemma unique_for_solution : unique_for solution.
Proof.
  destruct Hsol as [Hwf Hleg]. split; [assumption|]. split.
  - intros r c _ _ _. reflexivity.
  - intros s Hs. apply (completion_full N rof solution s); auto.
    apply (solution_full N rof). assumption.
Qed.

Lemma count_one_unique (g : Grid) (rng rng' : Rng) :
  wf_grid N g -> extends N g solution ->
  count_solutions g regions 2 rng = Some (1, rng') ->
  unique_for g.
Proof.
  intros Hwf Hext E. split; [assumption|]. split; [assumption|].
  intros s Hs.
  destruct (grid_eq_dec s solution) as [Heq|Hne]; [assumption|].
  exfalso.
  destruct (count_solutions_spec g 2 rng Hwf)
    as [k [r [F [_ [_ Hcompl]]]]].
  rewrite E in F. injection F as <- <-.
  specialize (Hcompl [s; solution]).
  assert (H : Z.min 2 (Z.of_nat (length [s; solution])) <= 1).
  { apply Hcompl.
    - constructor; [intros [H|[]]; congruence|].
      constructor; [intros []|constructor].
    - intros x [<-|[<-|[]]]; [assumption|].
      apply solution_completion; assumption. }
  simpl in H. lia.
Qed.

Lemma unique_count_one (g : Grid) (rng : Rng) :
  unique_for g ->
  exists rng', count_solutions g regions 2 rng = Some (1, rng').
Proof.
  intros [Hwf [Hext Huniq]].
  destruct (count_solutions_spec g 2 rng Hwf)
    as [k [r [F [Hrange [[l [A [B C]]] Hcompl]]]]].
  assert (Hle : (length l <= 1)%nat).
  { apply (NoDup_all_equal solution); auto. }
  assert (Hge : Z.min 2 (Z.of_nat (length [solution])) <= k).
  { apply Hcompl.
    - constructor; [intros []|constructor].
    - intros x [<-|[]]. apply solution_completion; assumption. }
  simpl in Hge. assert (Hk : k = 1) by lia. rewrite Hk in F.
  exists r. exact F.
Qed.

(** The reducer's loop keeps the invariant, counts the clues, and stops
    at the target or when the cells run out. *)
Lemma reduce_loop_spec (target : Z) :
  forall (cells : list Cell) (grid : Grid) (rng : Rng),
    NoDup cells ->
    (forall r c, In (r, c) cells ->
                 (r < N)%nat /\ (c < N)%nat /\ get grid r c <> 0) ->
    unique_for grid ->
    exists grid' givens rng',
      reduce_loop regions target cells grid (Z.of_nat (clues grid)) rng
      = Some (grid', givens, rng')
      /\ unique_for grid'
      /\ givens = Z.of_nat (clues grid')
      /\ Z.min target (Z.of_nat (clues grid)) <= givens
         <= Z.of_nat (clues grid).
Proof.
  induction cells as [|[r c] rest IH]; intros grid rng Hnd Hcells Hinv.
  - simpl. exists grid, (Z.of_nat (clues grid)), rng.
    split; [reflexivity|]. split; [assumption|]. split; [reflexivity|]. lia.
  - simpl. destruct (Z.of_nat (clues grid) <=? target) eqn:Et.
    + apply Z.leb_le in Et.
      exists grid, (Z.of_nat (clues grid)), rng.
      split; [reflexivity|]. split; [assumption|].
      split; [reflexivity|]. lia.
    + apply Z.leb_gt in Et.
      inversion Hnd as [|? ? Hnotin Hnd']; subst.
      destruct (Hcells r c (or_introl eq_refl)) as [Hr [Hc Hnz]].
      destruct Hinv as [Hwf [Hext Huniq]].
      assert (Hwf1 : wf_grid N (set_cell grid r c 0))
        by (apply wf_set_cell; assumption).
      destruct (count_solutions_spec (set_cell grid r c 0) 2 rng Hwf1)
        as [sols [rng1 [E _]]].
      rewrite E.
      assert (Hrest : forall g', (forall r' c', (r, c) <> (r', c') ->
                                    get g' r' c' = get grid r' c') ->
                forall r' c', In (r', c') rest ->
                  (r' < N)%nat /\ (c' < N)%nat /\ get g' r' c' <> 0).
      { intros g' Hsame r' c' Hin.
        destruct (Hcells r' c' (or_intror Hin)) as [H1 [H2 H3]].
        rewrite Hsame; auto. intros Heq. injection Heq as <- <-.
        contradiction. }
      destruct (sols =? 1) eqn:Es.
      * apply Z.eqb_eq in Es. subst sols.
        pose proof (clues_unset N grid r c Hwf Hr Hc Hnz) as Hcl.
        replace (Z.of_nat (clues grid) - 1)
          with (Z.of_nat (clues (set_cell grid r c 0))) by lia.
        destruct (IH (set_cell grid r c 0) rng1 Hnd') as
          [grid' [givens [rng' [E' [Hinv' [Hg Hrange]]]]]].
        -- apply Hrest. intros r' c' Hne. apply get_set_other. assumption.
        -- apply (count_one_unique _ rng rng1); auto.
           apply extends_unset. assumption.
        -- exists grid', givens, rng'. split; [assumption|].
           split; [assumption|]. split; [assumption|]. lia.
      * rewrite set_set, set_get_id.
        apply IH;
          [assumption
          |apply Hrest; reflexivity
          |split; [assumption|]; split; assumption].
Qed.

(** [generate_puzzle_from_solution] returns a grid whose only search
    result is the solution, with at least the target number of clues. *)
Lemma generate_puzzle_spec (target : Z) (rng : Rng) :
  exists puzzle rng',
    generate_puzzle_from_solution solution regions target rng
    = Some (puzzle, rng')
    /\ unique_for puzzle
    /\ Z.min target (Z.of_nat (N * N)) <= Z.of_nat (clues puzzle).
Proof.
  unfold generate_puzzle_from_solution.
  destruct (shuffle (cells_of N) rng) as [cells rng1] eqn:Es.
  pose proof (shuffle_perm_eq _ _ _ _ Es) as Hperm.
  assert (Hcl : clues solution = (N * N)%nat).
  { apply clues_full.
    - destruct Hsol; assumption.
    - apply (solution_full N rof). assumption. }
  rewrite <- Hcl.
  destruct (reduce_loop_spec target cells solution rng1)
    as [grid' [givens [rng' [E [Hinv [Hg Hrange]]]]]].
  - apply (Permutation_NoDup (Permutation_sym Hperm)).
    apply NoDup_cells_of.
  - intros r c Hin. apply (Permutation_in _ Hperm) in Hin.
    apply In_cells_of in Hin. destruct Hin as [Hr Hc].
    split; [assumption|]. split; [assumption|].
    apply (solution_full N rof); assumption.
  - apply unique_for_solution.
  - rewrite E. exists grid', rng'. split; [reflexivity|].
    split; [assumption|]. lia.
Qed.

End JigsawGenerator.

(* ================================================================== *)
(** * The 6x6 solver *)

Section MiniSolver.

Import Mini.

Notation M := SIZE.
Notation legal6 := (legal M mini_region).
Notation completion6 := (completion M mini_region).

Lemma In_digits (d : Z) : In d digits <-> 1 <= d <= 6.
Proof.
  unfold digits. rewrite in_map_iff. split.
  - intros [k [<- Hk]]. apply in_seq in Hk. unfold SIZE in Hk. lia.
  - intros Hd. exists (Z.to_nat d). split; [lia|].
    apply in_seq. unfold SIZE. lia.
Qed.

Lemma NoDup_digits : NoDup digits.
Proof.
  unfold digits. apply Finite.Injective_map_NoDup; [|apply seq_NoDup].
  intros a b H. lia.
Qed.

Lemma mini_region_same (r c r' c' : nat) :
  (c < 6)%nat -> (c' < 6)%nat ->
  (mini_region r c = mini_region r' c'
   <-> (r / 2 = r' / 2 /\ c / 3 = c' / 3)%nat).
Proof.
  intros Hc Hc'. unfold mini_region.
  assert (c / 3 < 2)%nat by (apply Nat.Div0.div_lt_upper_bound; lia).
  assert (c' / 3 < 2)%nat by (apply Nat.Div0.div_lt_upper_bound; lia).
  split; [intros H1; apply Nat2Z.inj in H1|intros [-> ->]; reflexivity].
  lia.
Qed.

Lemma number_is_valid_true (b : Grid) (r c : nat) (d : Z) :
  number_is_valid b r c d = true <->
  (forall i, (i < 6)%nat -> get b r i <> d /\ get b i c <> d)
  /\ (forall i j, (i < 2)%nat -> (j < 3)%nat ->
                  get b (i + r / 2 * 2) (j + c / 3 * 3) <> d).
Proof.
  unfold number_is_valid. rewrite andb_true_iff, !forallb_forall.
  split.
  - intros [H1 H2]. split.
    + intros i Hi. specialize (H1 i ltac:(apply in_seq; unfold SIZE; lia)).
      apply negb_true_iff, orb_false_iff in H1.
      destruct H1 as [Ha Hb]. apply Z.eqb_neq in Ha, Hb. auto.
    + intros i j Hi Hj.
      specialize (H2 i ltac:(apply in_seq; lia)).
      rewrite forallb_forall in H2.
      specialize (H2 j ltac:(apply in_seq; lia)).
      apply negb_true_iff, Z.eqb_neq in H2. assumption.
  - intros [H1 H2]. split.
    + intros i Hi. apply in_seq in Hi. unfold SIZE in Hi.
      destruct (H1 i ltac:(lia)) as [Ha Hb].
      apply negb_true_iff, orb_false_iff. split; apply Z.eqb_neq; auto.
    + intros i Hi. apply forallb_forall. intros j Hj.
      apply in_seq in Hi, Hj. apply negb_true_iff, Z.eqb_neq.
      apply H2; lia.
Qed.

(** A number [number_is_valid] accepts is legal at the cell. *)
Lemma number_is_valid_legal (b : Grid) (r c : nat) (d : Z) :
  (r < M)%nat -> (c < M)%nat -> 1 <= d <= 6 ->
  number_is_valid b r c d = true -> legal6 b r c d.
Proof.
  unfold SIZE. intros Hr Hc Hd Hv. apply number_is_valid_true in Hv.
  destruct Hv as [H1 H2]. split; [exact Hd|].
  intros r' c' Hr' Hc' [Hne [Hp|[Hp|Hp]]].
  - subst r'. apply H1. assumption.
  - subst c'. apply H1. assumption.
  - apply mini_region_same in Hp; [|assumption|assumption].
    destruct Hp as [Hp1 Hp2].
    pose proof (Nat.div_mod_eq r' 2) as D1.
    pose proof (Nat.div_mod_eq c' 3) as D2.
    pose proof (Nat.mod_upper_bound r' 2 ltac:(lia)) as B1.
    pose proof (Nat.mod_upper_bound c' 3 ltac:(lia)) as B2.
    specialize (H2 (r' mod 2)%nat (c' mod 3)%nat B1 B2).
    replace (r' mod 2 + r / 2 * 2)%nat with r' in H2 by lia.
    replace (c' mod 3 + c / 3 * 3)%nat with c' in H2 by lia.
    assumption.
Qed.

(** On an empty cell [number_is_valid] accepts every legal number. *)
Lemma legal_number_is_valid (b : Grid) (r c : nat) (d : Z) :
  (r < M)%nat -> (c < M)%nat -> get b r c = 0 ->
  legal6 b r c d -> number_is_valid b r c d = true.
Proof.
  unfold SIZE. intros Hr Hc Hz [Hd Hl]. apply number_is_valid_true.
  assert (Hcell : forall r' c', (r' < 6)%nat -> (c' < 6)%nat ->
            (r' = r \/ c' = c \/ mini_region r c = mini_region r' c') ->
            get b r' c' <> d).
  { intros r' c' Hr' Hc' Hp.
    assert (Hcase : (r, c) = (r', c') \/ (r, c) <> (r', c')).
    { destruct (Nat.eq_dec r r'); destruct (Nat.eq_dec c c');
        subst; auto; right; congruence. }
    destruct Hcase as [Heq|Hne].
    - injection Heq as <- <-. rewrite Hz. lia.
    - apply Hl; auto. split; [assumption|].
      destruct Hp as [H|[H|H]]; auto. }
  split.
  - intros i Hi. split; apply Hcell; auto.
  - intros i j Hi Hj.
    pose proof (Nat.div_mod_eq r 2) as D1.
    pose proof (Nat.div_mod_eq c 3) as D2.
    pose proof (Nat.mod_upper_bound r 2 ltac:(lia)) as B1.
    pose proof (Nat.mod_upper_bound c 3 ltac:(lia)) as B2.
    apply Hcell; [lia|lia|].
    right. right. apply mini_region_same; [assumption|lia|].
    rewrite !Nat.div_add by lia.
    rewrite (Nat.div_small i 2), (Nat.div_small j 3) by assumption.
    split; reflexivity.
Qed.

Lemma first_empty_some (b : Grid) (r c : nat) :
  first_empty b = Some (r, c) ->
  (r < M)%nat /\ (c < M)%nat /\ get b r c = 0.
Proof.
  unfold first_empty. intros H. apply find_some in H.
  destruct H as [Hin Hz]. apply In_cells_of in Hin.
  simpl in Hz. apply Z.eqb_eq in Hz. tauto.
Qed.

Lemma first_empty_none (b : Grid) : first_empty b = None -> full M b.
Proof.
  unfold first_empty. intros H r c Hr Hc.
  pose proof (find_none _ _ H (r, c)
                (proj2 (In_cells_of M r c) (conj Hr Hc))) as Hz.
  simpl in Hz. apply Z.eqb_neq in Hz. assumption.
Qed.

Lemma unset_restores6 (g : Grid) (r c : nat) (d : Z) :
  get g r c = 0 -> set_cell (set_cell g r c d) r c 0 = g.
Proof. intros Hz. rewrite <- Hz at 1. apply set_set_restore. Qed.

Lemma fill_digits_spec
      (rec : Grid -> Rng -> option (bool * Grid * Rng))
      (g : Grid) (r c : nat) :
  wf_grid M g -> (r < M)%nat -> (c < M)%nat -> get g r c = 0 ->
  forall ds : list Z,
    (forall d, In d ds -> 1 <= d <= 6) ->
    (forall d rng0, legal6 g r c d ->
       exists b g' rng', rec (set_cell g r c d) rng0 = Some (b, g', rng')
                         /\ fill_post (set_cell g r c d) b g') ->
    forall rng, exists b g' rng',
        fill_digits rec r c ds g rng = Some (b, g', rng')
        /\ fill_post g b g'.
Proof.
  intros Hwf Hr Hc Hz ds. induction ds as [|d ds IH];
    intros Hran Hrec rng; simpl.
  - exists false, g, rng. split; [reflexivity|].
    split; [assumption|]. split; [discriminate|reflexivity].
  - destruct (number_is_valid g r c d) eqn:Ev.
    + assert (Hleg : legal6 g r c d).
      { apply number_is_valid_legal; auto. apply Hran. left. reflexivity. }
      destruct (Hrec d rng Hleg) as [b [g1 [rng1 [E [Hwf1 [Ht Hf]]]]]].
      rewrite E. destruct b.
      * exists true, g1, rng1. split; [reflexivity|].
        split; [assumption|]. split; [|discriminate].
        intros _. destruct (Ht eq_refl) as [Hcomp Hfull].
        split; [|assumption].
        apply (completion_unset M mini_region g g1 r c d); auto.
      * rewrite (Hf eq_refl). rewrite unset_restores6 by assumption.
        apply IH; auto. intros d' Hin. apply Hran. right. assumption.
    + apply IH; auto. intros d' Hin. apply Hran. right. assumption.
Qed.

Lemma shuffle_digits_range (rng : Rng) (ds : list Z) (rng' : Rng) :
  shuffle digits rng = (ds, rng') ->
  NoDup ds /\ forall d, In d ds <-> 1 <= d <= 6.
Proof.
  intros E. pose proof (shuffle_perm_eq _ _ _ _ E) as Hp. split.
  - apply (Permutation_NoDup (Permutation_sym Hp)). apply NoDup_digits.
  - intros d. rewrite <- In_digits. split; intros H.
    + apply (Permutation_in _ Hp). assumption.
    + apply (Permutation_in _ (Permutation_sym Hp)). assumption.
Qed.

(** With fuel above the number of empty cells, [fill_solution]
    returns. *)
Lemma fill_solution_rec_spec (fuel : nat) :
  forall (g : Grid) (rng : Rng),
    wf_grid M g -> (empties g < fuel)%nat ->
    exists b g' rng',
      fill_solution_rec fuel g rng = Some (b, g', rng')
      /\ fill_post g b g'.
Proof.
  induction fuel as [|fuel IH]; intros g rng Hwf Hfuel; [lia|].
  simpl. destruct (first_empty g) as [[r c]|] eqn:Ef.
  - apply first_empty_some in Ef. destruct Ef as [Hr [Hc Hz]].
    destruct (shuffle digits rng) as [ds rng1] eqn:Es.
    apply shuffle_digits_range in Es. destruct Es as [_ Hran].
    apply fill_digits_spec; auto.
    + intros d Hd. apply Hran. assumption.
    + intros d rng0 Hleg. apply IH.
      * apply wf_set_cell. assumption.
      * assert (d <> 0) by (destruct Hleg; lia).
        pose proof (empties_set_cell M g r c d Hwf Hr Hc Hz H). lia.
  - apply first_empty_none in Ef.
    exists true, g, rng. split; [reflexivity|].
    split; [assumption|]. split; [|discriminate].
    intros _. split; [|assumption]. apply completion_full; auto.
Qed.

Lemma solve_digits_spec
      (rec : Grid -> Rng -> option (list bool * Grid * Rng))
      (g : Grid) (r c : nat) :
  wf_grid M g -> (r < M)%nat -> (c < M)%nat -> get g r c = 0 ->
  forall ds : list Z,
    NoDup ds -> (forall d, In d ds -> 1 <= d <= 6) ->
    (forall d rng0, legal6 g r c d ->
       exists ys g' rng',
         rec (set_cell g r c d) rng0 = Some (ys, g', rng')
         /\ solve_post (completion6 (set_cell g r c d))
                       (set_cell g r c d) ys g') ->
    forall rng, exists ys g' rng',
        solve_digits rec r c ds g rng = Some (ys, g', rng')
        /\ solve_post (fun s => completion6 g s /\ In (get s r c) ds)
                      g ys g'.
Proof.
  intros Hwf Hr Hc Hz ds. induction ds as [|d ds IH];
    intros Hnd Hran Hrec rng; simpl.
  - exists [], g, rng. split; [reflexivity|]. split; [reflexivity|]. split.
    + exists []. split; [constructor|]. split; [intros s []|reflexivity].
    + intros l _ Hl. destruct l as [|s l']; [simpl; lia|].
      exfalso. destruct (Hl s (or_introl eq_refl)) as [_ []].
  - inversion Hnd as [|? ? Hnotin Hnd']; subst.
    assert (Hran' : forall d', In d' ds -> 1 <= d' <= 6)
      by (intros d' Hin; apply Hran; right; assumption).
    destruct (number_is_valid g r c d) eqn:Ev.
    + assert (Hleg : legal6 g r c d).
      { apply number_is_valid_legal; auto. apply Hran. left. reflexivity. }
      destruct (Hrec d rng Hleg)
        as [ys1 [g1 [rng1 [E [Hg1 [Hsound Hcompl]]]]]].
      rewrite E. subst g1. rewrite unset_restores6 by assumption.
      destruct (IH Hnd' Hran' Hrec rng1)
        as [ys2 [g2 [rng2 [E2 [Hg2 [Hsound2 Hcompl2]]]]]].
      rewrite E2. exists (ys1 ++ ys2), g2, rng2.
      split; [reflexivity|]. split; [assumption|].
      assert (Hin_d : forall s, completion6 (set_cell g r c d) s ->
                                completion6 g s /\ get s r c = d).
      { intros s Hs. split.
        - apply (completion_unset M mini_region g s r c d); auto.
        - destruct Hs as [_ [Hext _]].
          rewrite (Hext r c Hr Hc);
            rewrite (get_set_in M) by assumption; auto.
          destruct Hleg; lia. }
      split.
      * destruct Hsound as [l1 [Hl1 [Hl2 Hl3]]].
        destruct Hsound2 as [l2 [Hm1 [Hm2 Hm3]]].
        exists (l1 ++ l2). split; [|split].
        -- apply NoDup_app; auto.
           intros s Hs1 Hs2.
           destruct (Hin_d s (Hl2 s Hs1)) as [_ H1].
           destruct (Hm2 s Hs2) as [_ H2].
           rewrite H1 in H2. contradiction.
        -- intros s Hs. apply in_app_iff in Hs. destruct Hs as [Hs|Hs].
           ++ destruct (Hin_d s (Hl2 s Hs)) as [H1 H2].
              split; [assumption|]. left. symmetry. assumption.
           ++ destruct (Hm2 s Hs) as [H1 H2].
              split; [assumption|]. right. assumption.
        -- rewrite !length_app. lia.
      * intros l Hl HP.
        set (f := fun s : Grid => get s r c =? d).
        pose proof (filter_length f l) as Hlen.
        assert (H1 : (length (filter f l) <= length ys1)%nat).
        { apply Hcompl.
          - apply NoDup_filter. assumption.
          - intros s Hs. apply filter_In in Hs. destruct Hs as [Hs Hfs].
            unfold f in Hfs. apply Z.eqb_eq in Hfs. rewrite <- Hfs.
            apply (completion_set M mini_region); auto.
            apply (HP s Hs). }
        assert (H2 : (length (filter (fun x => negb (f x)) l)
                      <= length ys2)%nat).
        { apply Hcompl2.
          - apply NoDup_filter. assumption.
          - intros s Hs. apply filter_In in Hs. destruct Hs as [Hs Hfs].
            unfold f in Hfs. apply negb_true_iff, Z.eqb_neq in Hfs.
            destruct (HP s Hs) as [Hcs [Heq|Hin]].
            + exfalso. apply Hfs. symmetry. assumption.
            + split; assumption. }
        rewrite length_app. lia.
    + destruct (IH Hnd' Hran' Hrec rng)
        as [ys2 [g2 [rng2 [E2 [Hg2 [Hsound2 Hcompl2]]]]]].
      exists ys2, g2, rng2. split; [assumption|]. split; [assumption|].
      split.
      * destruct Hsound2 as [l2 [Hm1 [Hm2 Hm3]]]. exists l2.
        split; [assumption|]. split; [|assumption].
        intros s Hs. destruct (Hm2 s Hs). split; [|right]; assumption.
      * intros l Hl HP. apply Hcompl2; [assumption|].
        intros s Hs. destruct (HP s Hs) as [Hcs [Heq|Hin]].
        -- exfalso.
           pose proof (completion_legal M mini_region g s r c Hr Hc Hz Hcs)
             as Hleg.
           rewrite <- Heq in Hleg.
           rewrite (legal_number_is_valid g r c d Hr Hc Hz Hleg) in Ev.
           discriminate.
        -- split; assumption.
Qed.

(** With fuel above the number of empty cells, [solve] runs to its end,
    yields once per search result, and leaves the board as it was. *)
Lemma solve_spec (fuel : nat) :
  forall (g : Grid) (rng : Rng),
    wf_grid M g -> (empties g < fuel)%nat ->
    exists ys g' rng',
      solve fuel g rng = Some (ys, g', rng')
      /\ solve_post (completion6 g) g ys g'.
Proof.
  induction fuel as [|fuel IH]; intros g rng Hwf Hfuel; [lia|].
  simpl. destruct (first_empty g) as [[r c]|] eqn:Ef.
  - apply first_empty_some in Ef. destruct Ef as [Hr [Hc Hz]].
    destruct (shuffle digits rng) as [ds rng1] eqn:Es.
    apply shuffle_digits_range in Es. destruct Es as [Hnd Hran].
    destruct (solve_digits_spec (solve fuel) g r c Hwf Hr Hc Hz ds Hnd)
      with (rng := rng1)
      as [ys [g' [rng' [E [Hg [Hsound Hcompl]]]]]].
    + intros d Hd. apply Hran. assumption.
    + intros d rng0 Hleg. apply IH.
      * apply wf_set_cell. assumption.
      * assert (d <> 0) by (destruct Hleg; lia).
        pose proof (empties_set_cell M g r c d Hwf Hr Hc Hz H). lia.
    + exists ys, g', rng'. split; [assumption|]. split; [assumption|].
      split.
      * destruct Hsound as [l [H1 [H2 H3]]]. exists l.
        split; [assumption|]. split; [|assumption].
        intros s Hs. apply (H2 s Hs).
      * intros l Hl HP. apply Hcompl; [assumption|].
        intros s Hs. split; [apply HP; assumption|].
        apply Hran.
        destruct (completion_legal M mini_region g s r c Hr Hc Hz
                    (HP s Hs)) as [Hd _].
        unfold SIZE in Hd. lia.
  - apply first_empty_none in Ef.
    exists [true], g, rng. split; [reflexivity|]. split; [reflexivity|].
    split.
    + exists [g]. split; [repeat constructor; intros []|].
      split; [|reflexivity].
      intros s [<-|[]]. apply completion_full; auto.
    + intros l Hl HP. apply (NoDup_all_equal g); [assumption|].
      intros s Hs. apply (completion_full M mini_region g s); auto.
Qed.

End MiniSolver.

(* ================================================================== *)
(** * The 6x6 generator *)

Lemma In_firstn {A : Type} (k : nat) (l : list A) (x : A) :
  In x (firstn k l) -> In x l.
Proof.
  revert l; induction k as [|k IH]; intros [|h t]; simpl; try tauto.
  intros [H|H]; auto.
Qed.

Lemma In_skipn {A : Type} (k : nat) (l : list A) (x : A) :
  In x (skipn k l) -> In x l.
Proof.
  revert l; induction k as [|k IH]; intros [|h t]; simpl; try tauto.
  intros H. right. apply IH. assumption.
Qed.

Section MiniGenerator.

Import Mini.

Notation M := SIZE.
Notation legal6 := (legal M mini_region).
Notation completion6 := (completion M mini_region).
Notation consistent6 := (consistent M mini_region).
Notation solution6 := (is_solution M mini_region).

Lemma helper_loop_consistent
      (rec : list Z -> Grid -> Rng -> bool * Grid * Rng)
      (r c : nat) (avail : list Z) :
  (r < M)%nat -> (c < M)%nat ->
  (forall n, In n avail -> 1 <= n <= 6) ->
  (forall avail' b0 rng0,
      (forall n, In n avail' -> 1 <= n <= 6) -> consistent6 b0 ->
      consistent6 (snd (fst (rec avail' b0 rng0)))) ->
  forall (todo : list (nat * Z)) (b : Grid) (rng : Rng),
    (forall i n, In (i, n) todo -> In n avail) ->
    consistent6 b ->
    consistent6 (snd (fst (helper_loop rec r c avail todo b rng))).
Proof.
  intros Hr Hc Hav Hrec todo. induction todo as [|[i n] todo IH];
    intros b rng Htodo Hb; cbn [helper_loop]; [assumption|].
  assert (Htodo' : forall i' n', In (i', n') todo -> In n' avail)
    by (intros i' n' H; apply (Htodo i' n'); right; assumption).
  destruct (number_is_valid b r c n) eqn:Ev; [|apply IH; assumption].
  assert (Hn : 1 <= n <= 6)
    by (apply Hav; apply (Htodo i n); left; reflexivity).
  assert (Hset : consistent6 (set_cell b r c n)).
  { apply consistent_set; auto. apply number_is_valid_legal; auto. }
  specialize (Hrec (firstn i avail ++ skipn (S i) avail)
                   (set_cell b r c n) rng).
  destruct (rec (firstn i avail ++ skipn (S i) avail)
                (set_cell b r c n) rng) as [[ok b1] rng1].
  cbn [fst snd] in Hrec.
  assert (Hb1 : consistent6 b1).
  { apply Hrec; [|assumption].
    intros n' Hn'. apply Hav. apply in_app_iff in Hn'.
    destruct Hn' as [H|H]; [apply (In_firstn i avail n' H)
                           |apply (In_skipn (S i) avail n' H)]. }
  destruct ok; [exact Hb1|].
  apply IH; [assumption|]. apply consistent_unset. assumption.
Qed.

Lemma helper_consistent (cells : list Cell) :
  (forall r c, In (r, c) cells -> (r < M)%nat /\ (c < M)%nat) ->
  forall (avail : list Z) (b : Grid) (rng : Rng),
    (forall n, In n avail -> 1 <= n <= 6) -> consistent6 b ->
    consistent6 (snd (fst (helper cells avail b rng))).
Proof.
  induction cells as [|[r c] rest IH]; intros Hcells avail b rng Hav Hb;
    simpl; [assumption|].
  destruct (shuffle avail rng) as [avail' rng1] eqn:Es.
  pose proof (shuffle_perm_eq _ _ _ _ Es) as Hp.
  destruct (Hcells r c (or_introl eq_refl)) as [Hr Hc].
  apply helper_loop_consistent; auto.
  - intros n Hn. apply Hav. apply (Permutation_in _ Hp). assumption.
  - intros avail'' b0 rng0 Hav'' Hb0. apply IH; auto.
    intros r' c' H. apply Hcells. right. assumption.
  - intros i n Hin. apply (in_combine_r _ _ _ _ Hin).
Qed.

Lemma fill_box_consistent (b : Grid) (start_row start_col : nat)
      (rng : Rng) :
  (start_row + 2 <= M)%nat -> (start_col + 3 <= M)%nat ->
  consistent6 b ->
  consistent6 (snd (fst (fill_box b start_row start_col rng))).
Proof.
  intros Hr Hc Hb. unfold fill_box. apply helper_consistent; auto.
  - intros r c Hin. apply in_flat_map in Hin.
    destruct Hin as [i [Hi Hin]]. apply in_map_iff in Hin.
    destruct Hin as [j [Heq Hj]]. injection Heq as <- <-.
    apply in_seq in Hi, Hj. lia.
  - intros n Hn. apply In_digits. assumption.
Qed.

Lemma fill_boxes_consistent (positions : list Cell) :
  (forall r c, In (r, c) positions ->
               (r + 2 <= M)%nat /\ (c + 3 <= M)%nat) ->
  forall (b : Grid) (rng : Rng),
    consistent6 b ->
    consistent6 (snd (fst (fill_boxes positions b rng))).
Proof.
  induction positions as [|[r c] rest IH]; intros Hpos b rng Hb;
    simpl; [assumption|].
  destruct (Hpos r c (or_introl eq_refl)) as [Hr Hc].
  pose proof (fill_box_consistent b r c rng Hr Hc Hb) as H1.
  destruct (fill_box b r c rng) as [[ok b1] rng1]. simpl in H1.
  destruct ok; [|assumption].
  apply IH; auto. intros r' c' H. apply Hpos. right. assumption.
Qed.

(** [fill_solution] returns, and on [True] leaves a Solution when the
    board it started from was consistent. *)
Lemma fill_solution_spec (b : Grid) (rng : Rng) :
  consistent6 b ->
  exists ok b' rng',
    fill_solution b rng = Some (ok, b', rng')
    /\ fill_post b ok b'
    /\ (ok = true -> solution6 b').
Proof.
  intros Hb. unfold fill_solution.
  destruct (fill_solution_rec_spec (S (empties b)) b rng)
    as [ok [b' [rng' [E Hpost]]]];
    [destruct Hb; assumption|lia|].
  exists ok, b', rng'. split; [assumption|]. split; [assumption|].
  intros ->. destruct Hpost as [_ [Ht _]].
  apply (consistent_completion_solution M mini_region b); auto.
  apply Ht. reflexivity.
Qed.

Lemma solutions_of_spec (b : Grid) (rng : Rng) :
  wf_grid M b ->
  exists ys b' rng',
    solutions_of b rng = Some (ys, b', rng')
    /\ solve_post (completion6 b) b ys b'.
Proof.
  intros Hwf. unfold solutions_of. apply solve_spec; auto.
Qed.

Lemma solve_yields_true (fuel : nat) :
  forall (g : Grid) (rng0 : Rng) (ys0 : list bool) (g0 : Grid)
         (rng1 : Rng),
    solve fuel g rng0 = Some (ys0, g0, rng1) ->
    forall y, In y ys0 -> y = true.
Proof.
  induction fuel as [|fuel IH]; intros g rng0 ys0 g0 rng1 H;
    [discriminate|].
  simpl in H. destruct (first_empty g) as [[r c]|].
  - destruct (shuffle digits rng0) as [ds rng2].
    revert g rng2 ys0 g0 rng1 H.
    induction ds as [|d ds IHd]; intros g rng2 ys0 g0 rng1 H; simpl in H.
    + injection H as <- _ _. intros y [].
    + destruct (number_is_valid g r c d).
      * destruct (solve fuel (set_cell g r c d) rng2)
          as [[[ys1 g1] rng3]|] eqn:E1; [|discriminate].
        destruct (solve_digits (solve fuel) r c ds
                    (set_cell g1 r c 0) rng3)
          as [[[ys2 g2] rng4]|] eqn:E2; [|discriminate].
        injection H as <- _ _. intros y Hy.
        apply in_app_iff in Hy. destruct Hy as [Hy|Hy].
        -- apply (IH _ _ _ _ _ E1). assumption.
        -- apply (IHd _ _ _ _ _ E2). assumption.
      * apply (IHd _ _ _ _ _ H).
  - injection H as <- _ _. intros y [<-|[]]. reflexivity.
Qed.

Variable sol : Grid.
Hypothesis Hsol : solution6 sol.

Notation unique6 := (unique_for M mini_region sol).

Lemma unique6_solution : unique6 sol.
Proof.
  destruct Hsol as [Hwf Hleg]. split; [assumption|]. split.
  - intros r c _ _ _. reflexivity.
  - intros s Hs. apply (completion_full M mini_region sol s); auto.
    apply (solution_full M mini_region). assumption.
Qed.

(** At most one yielded solution means the solution is the only one. *)
Lemma yields_le_one_unique (b : Grid) (rng : Rng) (ys : list bool)
      (b' : Grid) (rng' : Rng) :
  wf_grid M b -> extends M b sol ->
  solutions_of b rng = Some (ys, b', rng') ->
  (length ys <= 1)%nat -> unique6 b.
Proof.
  intros Hwf Hext E Hle. split; [assumption|]. split; [assumption|].
  intros s Hs.
  destruct (grid_eq_dec s sol) as [Heq|Hne]; [assumption|]. exfalso.
  destruct (solutions_of_spec b rng Hwf)
    as [ys0 [b0 [rng0 [E0 [_ [_ Hcompl]]]]]].
  rewrite E in E0. injection E0 as <- <- <-.
  assert (H : (length [s; sol] <= length ys)%nat).
  { apply Hcompl.
    - constructor; [intros [H|[]]; congruence|].
      constructor; [intros []|constructor].
    - intros x [<-|[<-|[]]]; [assumption|].
      apply solution_completion; assumption. }
  simpl in H. lia.
Qed.

(** On a board with a unique solution [solve] yields exactly once. *)
Lemma unique_yields_once (b : Grid) (rng : Rng) :
  unique6 b ->
  exists b' rng', solutions_of b rng = Some ([true], b', rng') /\ b' = b.
Proof.
  intros [Hwf [Hext Huniq]].
  destruct (solutions_of_spec b rng Hwf)
    as [ys [b' [rng' [E [Hb [[l [A [B C]]] Hcompl]]]]]].
  assert (Hle : (length l <= 1)%nat)
    by (apply (NoDup_all_equal sol); auto).
  assert (Hge : (length [sol] <= length ys)%nat).
  { apply Hcompl.
    - constructor; [intros []|constructor].
    - intros x [<-|[]]. apply solution_completion; assumption. }
  simpl in Hge.
  assert (Hys : ys = [true]).
  { destruct ys as [|y [|y' ys']]; simpl in Hge, Hle, C; try lia.
    rewrite (solve_yields_true _ _ _ _ _ _ E y (or_introl eq_refl)).
    reflexivity. }
  subst ys. exists b', rng'. split; assumption.
Qed.

(** The removal loop keeps the invariant; each accepted removal empties
    one more cell and lowers the remaining count by one. *)
Lemma remove_loop_spec :
  forall (order : list Cell) (b : Grid) (ec : Z) (rng : Rng),
    NoDup order ->
    (forall r c, In (r, c) order ->
                 (r < M)%nat /\ (c < M)%nat /\ get b r c <> 0) ->
    unique6 b ->
    exists b' ec' rng',
      remove_loop order b ec rng = Some (b', ec', rng')
      /\ unique6 b'
      /\ ec' + Z.of_nat (empties b') = ec + Z.of_nat (empties b)
      /\ (0 <= ec -> 0 <= ec').
Proof.
  induction order as [|[r c] rest IH]; intros b ec rng Hnd Hcells Hinv.
  - simpl. exists b, ec, rng. auto.
  - simpl. destruct (0 <? ec) eqn:Ec.
    + apply Z.ltb_lt in Ec.
      inversion Hnd as [|? ? Hnotin Hnd']; subst.
      destruct (Hcells r c (or_introl eq_refl)) as [Hr [Hc Hnz]].
      destruct Hinv as [Hwf [Hext Huniq]].
      assert (Hwf1 : wf_grid M (set_cell b r c 0))
        by (apply wf_set_cell; assumption).
      destruct (solutions_of_spec (set_cell b r c 0) rng Hwf1)
        as [ys [b2 [rng1 [E [Hb2 _]]]]].
      rewrite E. subst b2.
      assert (Hrest : forall g', (forall r' c', (r, c) <> (r', c') ->
                                    get g' r' c' = get b r' c') ->
                forall r' c', In (r', c') rest ->
                  (r' < M)%nat /\ (c' < M)%nat /\ get g' r' c' <> 0).
      { intros g' Hsame r' c' Hin.
        destruct (Hcells r' c' (or_intror Hin)) as [H1 [H2 H3]].
        rewrite Hsame; auto. intros Heq. injection Heq as <- <-.
        contradiction. }
      destruct (1 <? length ys)%nat eqn:El.
      * rewrite set_set, set_get_id.
        apply IH;
          [assumption
          |apply Hrest; reflexivity
          |split; [assumption|]; split; assumption].
      * apply Nat.ltb_ge in El.
        destruct (IH (set_cell b r c 0) (ec - 1) rng1 Hnd') as
          [b' [ec' [rng' [E' [Hinv' [Hcount Hpos]]]]]].
        -- apply Hrest. intros r' c' Hne. apply get_set_other. assumption.
        -- apply (yields_le_one_unique _ rng ys (set_cell b r c 0) rng1);
             auto.
           apply extends_unset. assumption.
        -- exists b', ec', rng'. split; [assumption|].
           split; [assumption|].
           pose proof (clues_unset M b r c Hwf Hr Hc Hnz) as Hcl.
           pose proof (clues_empties M b Hwf) as H1.
           pose proof (clues_empties M _ Hwf1) as H2.
           split; lia.
    + exists b, ec, rng. auto.
Qed.

End MiniGenerator.

Section MiniGenerate.

Import Mini.

Notation M := SIZE.
Notation consistent6 := (consistent M mini_region).
Notation solution6 := (is_solution M mini_region).

Lemma evaluate_nonneg (level e : Z) :
  snd (evaluate level) = Ok e -> 0 <= e.
Proof.
  unfold evaluate. simpl.
  destruct (Jigsaw.py_pos 7 level) as [k|]; [|discriminate].
  intros H. injection H as <-.
  do 7 (destruct k as [|k]; [simpl; lia|]). destruct k; simpl; lia.
Qed.

Lemma evaluate_in_range (level : Z) :
  1 <= level <= 6 ->
  evaluate level = (false, Ok (nth (Z.to_nat level) empty_cells_table 0)).
Proof.
  intros H.
  assert (Hc : level = 1 \/ level = 2 \/ level = 3 \/ level = 4
               \/ level = 5 \/ level = 6) by lia.
  destruct Hc as [->|[->|[->|[->|[->| ->]]]]]; reflexivity.
Qed.

(** [generate] returns; when it returns [True] the board is a puzzle
    whose only search result is the stored solution and whose number of
    empty cells is the one [evaluate] gave. *)
Lemma generate_spec (s : Sudoku6x6) (level : Z) (rng : Rng) :
  consistent6 (board s) ->
  exists out rng',
    generate s level rng = Some (out, rng')
    /\ match out with
       | Ok (true, s') =>
           exists sol,
             solution s' = Some sol /\ solution6 sol
             /\ unique_for M mini_region sol (board s')
             /\ snd (evaluate level) = Ok (Z.of_nat (empties (board s')))
       | Ok (false, _) => True
       | IndexError => snd (evaluate level) = IndexError
       | RuntimeError => False
       end.
Proof.
  intros Hb. unfold generate.
  destruct (choices 36 8 rng) as [pid rng0].
  cbn [board solution].
  pose proof (fill_boxes_consistent [(0, 0); (2, 3); (4, 0)]%nat) as Hfb.
  specialize (Hfb ltac:(intros r c [H|[H|[H|[]]]]; injection H as <- <-;
                        unfold SIZE; lia) (board s) rng0 Hb).
  destruct (fill_boxes [(0, 0); (2, 3); (4, 0)]%nat (board s) rng0)
    as [[ok b1] rng1].
  cbn [fst snd] in Hfb. destruct ok.
  - destruct (fill_solution_spec b1 rng1 Hfb)
      as [ok2 [b2 [rng2 [E2 [Hpost Hsol]]]]].
    rewrite E2. destruct ok2.
    + specialize (Hsol eq_refl).
      destruct (snd (evaluate level)) as [e| |] eqn:Ee.
      * destruct (shuffle (cells_of M) rng2) as [unvisited rng3] eqn:Es.
        pose proof (shuffle_perm_eq _ _ _ _ Es) as Hperm.
        destruct (remove_loop_spec b2 Hsol (rev unvisited) b2 e rng3)
          as [b3 [rem [rng4 [E3 [Hinv [Hcount Hpos]]]]]].
        -- apply NoDup_rev.
           apply (Permutation_NoDup (Permutation_sym Hperm)).
           apply NoDup_cells_of.
        -- intros r c Hin. apply in_rev in Hin.
           apply (Permutation_in _ Hperm) in Hin.
           apply In_cells_of in Hin. destruct Hin as [Hr Hc].
           split; [assumption|]. split; [assumption|].
           apply (solution_full M mini_region); assumption.
        -- apply unique6_solution. assumption.
        -- rewrite E3. eexists. eexists. split; [reflexivity|].
           destruct (0 <? rem) eqn:Er; cbn [negb]; [exact I|].
           apply Z.ltb_ge in Er. exists b2. cbn [solution board].
           split; [reflexivity|]. split; [assumption|].
           split; [assumption|].
           pose proof (evaluate_nonneg level e Ee) as He.
           specialize (Hpos He).
           rewrite (empties_full M b2) in Hcount.
           ++ f_equal. simpl in Hcount. lia.
           ++ destruct Hsol; assumption.
           ++ apply (solution_full M mini_region). assumption.
      * eexists. eexists. split; [reflexivity|].
        pose proof (evaluate_nonneg level) as H. clear H.
        unfold evaluate in Ee. simpl in Ee.
        destruct (Jigsaw.py_pos 7 level); discriminate.
      * eexists. eexists. split; [reflexivity|]. reflexivity.
    + eexists. eexists. split; [reflexivity|]. exact I.
  - eexists. eexists. split; [reflexivity|]. exact I.
Qed.

End MiniGenerate.

Section LegalUnits.

Variable n : nat.
Variable region_of : nat -> nat -> Z.

Lemma In_row_values (g : Grid) (r : nat) (d : Z) :
  In d (row_values n g r) <-> exists c, (c < n)%nat /\ get g r c = d.
Proof.
  unfold row_values. rewrite in_map_iff. split.
  - intros [c [H1 H2]]. apply in_seq in H2. exists c. split; [lia|auto].
  - intros [c [H1 H2]]. exists c. split; [auto|]. apply in_seq. lia.
Qed.

Lemma In_col_values (g : Grid) (c : nat) (d : Z) :
  In d (col_values n g c) <-> exists r, (r < n)%nat /\ get g r c = d.
Proof.
  unfold col_values. rewrite in_map_iff. split.
  - intros [r [H1 H2]]. apply in_seq in H2. exists r. split; [lia|auto].
  - intros [r [H1 H2]]. exists r. split; [auto|]. apply in_seq. lia.
Qed.

Lemma In_region_values (g : Grid) (k d : Z) :
  In d (region_values n region_of g k) <->
  exists r c, (r < n)%nat /\ (c < n)%nat /\ region_of r c = k
              /\ get g r c = d.
Proof.
  unfold region_values, region_cells. rewrite in_map_iff. split.
  - intros [[r c] [H1 H2]]. apply filter_In in H2. destruct H2 as [H2 H3].
    apply In_cells_of in H2. simpl in *. apply Z.eqb_eq in H3.
    exists r, c. tauto.
  - intros [r [c [H1 [H2 [H3 H4]]]]]. exists (r, c). split; [auto|].
    apply filter_In. split; [apply In_cells_of; auto|].
    simpl. apply Z.eqb_eq. assumption.
Qed.

(** On an empty cell, a symbol is legal exactly when it is absent from
    the cell's row, column and region. *)
Lemma legal_units (g : Grid) (r c : nat) (d : Z) :
  (r < n)%nat -> (c < n)%nat -> get g r c = 0 ->
  (legal n region_of g r c d <->
   1 <= d <= Z.of_nat n
   /\ ~ In d (row_values n g r)
   /\ ~ In d (col_values n g c)
   /\ ~ In d (region_values n region_of g (region_of r c))).
Proof.
  intros Hr Hc Hz. split.
  - intros [Hd Hl]. split; [assumption|].
    assert (Hself : forall r' c', get g r' c' = d -> (r, c) <> (r', c')).
    { intros r' c' Hg Heq. injection Heq as <- <-. lia. }
    split; [|split].
    + rewrite In_row_values. intros [c' [H1 H2]].
      apply (Hl r c' Hr H1); [|assumption].
      split; [apply Hself; assumption|auto].
    + rewrite In_col_values. intros [r' [H1 H2]].
      apply (Hl r' c H1 Hc); [|assumption].
      split; [apply Hself; assumption|auto].
    + rewrite In_region_values. intros [r' [c' [H1 [H2 [H3 H4]]]]].
      apply (Hl r' c' H1 H2); [|assumption].
      split; [apply Hself; assumption|auto].
  - intros [Hd [Hrow [Hcol Hreg]]]. split; [assumption|].
    intros r' c' Hr' Hc' [Hne [H|[H|H]]] Hg.
    + subst r'. apply Hrow. apply In_row_values. exists c'. auto.
    + subst c'. apply Hcol. apply In_col_values. exists r'. auto.
    + apply Hreg. apply In_region_values. exists r', c'. auto.
Qed.

End LegalUnits.

(* ================================================================== *)
(** * The claims *)

(** C9.  [compute_candidates] (the spec's [legal_symbols]) returns no
    symbol for a filled cell; for an empty cell it returns, without
    repetition, exactly the symbols of 1..9 that occur neither in the
    cell's row, nor in its column, nor in the region containing it.  The
    source assigns to nothing but its local [used]; the embedding is a
    function of the grid, the region map and the cell, so running it again
    on the same arguments gives the same list. *)
Theorem C9_compute_candidates_legal_symbols :
  forall (grid regions : Grid) (r c : nat),
    wf_grid 9 grid -> (r < 9)%nat -> (c < 9)%nat ->
    (get grid r c <> 0 -> Jigsaw.compute_candidates grid regions r c = [])
    /\ (get grid r c = 0 ->
        forall d,
          In d (Jigsaw.compute_candidates grid regions r c) <->
          1 <= d <= 9
          /\ ~ In d (row_values 9 grid r)
          /\ ~ In d (col_values 9 grid c)
          /\ ~ In d (region_values 9 (jigsaw_region regions) grid
                                   (Jigsaw.region_index regions r c)))
    /\ NoDup (Jigsaw.compute_candidates grid regions r c).
Proof.
  intros grid regions r c Hwf Hr Hc. split; [|split].
  - intros Hnz. unfold Jigsaw.compute_candidates, Jigsaw.nonzero.
    apply Z.eqb_neq in Hnz. rewrite Hnz. reflexivity.
  - intros Hz d.
    rewrite (compute_candidates_spec regions grid r c d Hwf Hr Hc).
    rewrite (legal_units 9 (jigsaw_region regions) grid r c d Hr Hc Hz).
    unfold Jigsaw.region_index, jigsaw_region. simpl Z.of_nat. tauto.
  - apply NoDup_compute_candidates.
Qed.

Lemma C9_compute_candidates_witness :
  Jigsaw.compute_candidates sample_grid sample_regions 0 0 = [2]
  /\ (forall d,
         In d (Jigsaw.compute_candidates sample_grid sample_regions 0 0) <->
         1 <= d <= 9
         /\ ~ In d (row_values 9 sample_grid 0)
         /\ ~ In d (col_values 9 sample_grid 0)
         /\ ~ In d (region_values 9 (jigsaw_region sample_regions)
                                  sample_grid
                                  (Jigsaw.region_index sample_regions 0 0))).
Proof.
  split; [reflexivity|].
  apply (C9_compute_candidates_legal_symbols sample_grid sample_regions 0 0).
  - apply wf_gridb_sound. reflexivity.
  - lia.
  - lia.
  - reflexivity.
Defined.

(** C10.  Undo on backtrack.  Every search call returns (given fuel for
    its recursion depth), and whenever it fails the grid it leaves is the
    grid it was called on: construction mode ([solve_backtracking.dfs],
    [fill_solution]) when it returns [False], counting mode
    ([count_solutions.dfs]) when a branch is exhausted and it returns
    [False], and the 6x6 generator [solve] once it is exhausted. *)
Theorem C10_undo_on_backtrack :
  (forall (regions : Grid) (fuel : nat) (g : Grid) (rng : Rng),
      wf_grid 9 g -> (empties g < fuel)%nat ->
      exists b g' rng',
        Jigsaw.dfs fuel regions g rng = Some (b, g', rng')
        /\ (b = false -> g' = g))
  /\ (forall (regions : Grid) (limit : Z) (fuel : nat) (g : Grid)
             (count : Z) (rng : Rng),
         wf_grid 9 g -> (empties g < fuel)%nat ->
         exists b g' count' rng',
           Jigsaw.count_dfs fuel regions limit g count rng
           = Some (b, g', count', rng')
           /\ (b = false -> g' = g))
  /\ (forall (fuel : nat) (g : Grid) (rng : Rng),
         wf_grid 6 g -> (empties g < fuel)%nat ->
         exists b g' rng',
           Mini.fill_solution_rec fuel g rng = Some (b, g', rng')
           /\ (b = false -> g' = g))
  /\ (forall (fuel : nat) (g : Grid) (rng : Rng),
         wf_grid 6 g -> (empties g < fuel)%nat ->
         exists ys g' rng',
           Mini.solve fuel g rng = Some (ys, g', rng') /\ g' = g).
Proof.
  split; [|split; [|split]].
  - intros regions fuel g rng Hwf Hfuel.
    destruct (dfs_spec regions fuel g rng Hwf Hfuel)
      as [b [g' [rng' [E [_ [_ Hf]]]]]].
    exists b, g', rng'. split; assumption.
  - intros regions limit fuel g count rng Hwf Hfuel.
    destruct (count_dfs_spec regions limit fuel g count rng Hwf Hfuel)
      as [b [g' [count' [rng' [E [_ [_ [Hf _]]]]]]]].
    exists b, g', count', rng'. split; assumption.
  - intros fuel g rng Hwf Hfuel.
    destruct (fill_solution_rec_spec fuel g rng Hwf Hfuel)
      as [b [g' [rng' [E [_ [_ Hf]]]]]].
    exists b, g', rng'. split; assumption.
  - intros fuel g rng Hwf Hfuel.
    destruct (solve_spec fuel g rng Hwf Hfuel)
      as [ys [g' [rng' [E [Hg _]]]]].
    exists ys, g', rng'. split; assumption.
Qed.

Lemma C10_undo_on_backtrack_witness :
  (exists b g' rng',
      Jigsaw.dfs 3 sample_regions dead_end_grid [] = Some (b, g', rng')
      /\ (b = false -> g' = dead_end_grid))
  /\ (exists b g' count' rng',
         Jigsaw.count_dfs 3 sample_regions 2 dead_end_grid 0 []
         = Some (b, g', count', rng')
         /\ (b = false -> g' = dead_end_grid))
  /\ (exists b g' rng',
         Mini.fill_solution_rec 13 mini_open_board [] = Some (b, g', rng')
         /\ (b = false -> g' = mini_open_board))
  /\ (exists ys g' rng',
         Mini.solve 13 mini_open_board [] = Some (ys, g', rng')
         /\ g' = mini_open_board).
Proof.
  destruct C10_undo_on_backtrack as [H1 [H2 [H3 H4]]].
  split; [|split; [|split]].
  - apply H1; [apply wf_gridb_sound; reflexivity|vm_compute; lia].
  - apply H2; [apply wf_gridb_sound; reflexivity|vm_compute; lia].
  - apply H3; [apply wf_gridb_sound; reflexivity|vm_compute; lia].
  - apply H4; [apply wf_gridb_sound; reflexivity|vm_compute; lia].
Defined.

Lemma mini_region_cells (k : Z) :
  0 <= k < 6 -> length (region_cells 6 mini_region k) = 6%nat.
Proof.
  intros H.
  assert (Hc : k = 0 \/ k = 1 \/ k = 2 \/ k = 3 \/ k = 4 \/ k = 5) by lia.
  destruct Hc as [->|[->|[->|[->|[->| ->]]]]]; reflexivity.
Qed.

Lemma solution_range (n : nat) (region_of : nat -> nat -> Z) (s : Grid) :
  is_solution n region_of s ->
  forall r c, (r < n)%nat -> (c < n)%nat -> 1 <= get s r c <= Z.of_nat n.
Proof. intros [_ Hl] r c Hr Hc. apply (Hl r c Hr Hc). Qed.

(** C2.  Solution synthesis.  [generate_full_solution] returns (a grid or
    its [RuntimeError]); a grid it returns is a 9x9 grid with every cell
    in 1..9 in which every row, every column, and every region of the map
    that has nine cells carries each symbol of 1..9 exactly once.
    [fill_solution], started as [generate] starts it on the board left by
    the three [fill_box] calls (a consistent board), returns, and when it
    returns [True] the board is a 6x6 grid with every cell in 1..6 in
    which every row, every column and every 2x3 box carries each symbol of
    1..6 exactly once. *)
Theorem C2_synthesized_solution_is_valid :
  (forall (regions : Grid) (rng : Rng),
      wf_grid 9 regions ->
      exists out rng',
        Jigsaw.generate_full_solution regions rng = Some (out, rng')
        /\ forall sol, out = Ok sol ->
             wf_grid 9 sol
             /\ (forall r c, (r < 9)%nat -> (c < 9)%nat ->
                             1 <= get sol r c <= 9)
             /\ (forall r, (r < 9)%nat -> each_once 9 (row_values 9 sol r))
             /\ (forall c, (c < 9)%nat -> each_once 9 (col_values 9 sol c))
             /\ (forall k,
                    length (region_cells 9 (jigsaw_region regions) k) = 9%nat ->
                    each_once 9 (region_values 9 (jigsaw_region regions)
                                               sol k)))
  /\ (forall (rng : Rng),
         consistent 6 mini_region
           (snd (fst (Mini.fill_boxes [(0, 0); (2, 3); (4, 0)]%nat
                                      (Mini.board Mini.init) rng))))
  /\ (forall (b : Grid) (rng : Rng),
         consistent 6 mini_region b ->
         exists ok b' rng',
           Mini.fill_solution b rng = Some (ok, b', rng')
           /\ (ok = true ->
               wf_grid 6 b'
               /\ (forall r c, (r < 6)%nat -> (c < 6)%nat ->
                               1 <= get b' r c <= 6)
               /\ (forall r, (r < 6)%nat -> each_once 6 (row_values 6 b' r))
               /\ (forall c, (c < 6)%nat -> each_once 6 (col_values 6 b' c))
               /\ (forall k, 0 <= k < 6 ->
                      each_once 6 (region_values 6 mini_region b' k)))).
Proof.
  split; [|split].
  - intros regions rng _.
    destruct (generate_full_solution_spec regions rng)
      as [out [rng' [E [_ Hsol]]]].
    exists out, rng'. split; [assumption|]. intros sol Hout.
    specialize (Hsol sol Hout).
    split; [destruct Hsol; assumption|].
    split; [apply (solution_range _ _ _ Hsol)|].
    split; [intros r Hr;
            apply (row_each_once 9 (jigsaw_region regions)); assumption|].
    split; [intros c Hc;
            apply (col_each_once 9 (jigsaw_region regions)); assumption|].
    intros k Hk. apply region_each_once; assumption.
  - intros rng. apply fill_boxes_consistent.
    + intros r c [H|[H|[H|[]]]]; injection H as <- <-;
        unfold Mini.SIZE; lia.
    + exact (consistent_empty 6 mini_region).
  - intros b rng Hb.
    destruct (fill_solution_spec b rng Hb) as [ok [b' [rng' [E [_ Hsol]]]]].
    exists ok, b', rng'. split; [assumption|]. intros Hok.
    specialize (Hsol Hok).
    split; [destruct Hsol; assumption|].
    split; [apply (solution_range _ _ _ Hsol)|].
    split; [intros r Hr; apply (row_each_once 6 mini_region); assumption|].
    split; [intros c Hc; apply (col_each_once 6 mini_region); assumption|].
    intros k Hk. apply region_each_once; [assumption|].
    apply mini_region_cells. assumption.
Qed.

Lemma C2_synthesized_solution_witness :
  (exists out rng',
      Jigsaw.generate_full_solution sample_regions [] = Some (out, rng')
      /\ forall sol, out = Ok sol ->
           wf_grid 9 sol
           /\ (forall r c, (r < 9)%nat -> (c < 9)%nat -> 1 <= get sol r c <= 9)
           /\ (forall r, (r < 9)%nat -> each_once 9 (row_values 9 sol r))
           /\ (forall c, (c < 9)%nat -> each_once 9 (col_values 9 sol c))
           /\ (forall k,
                  length (region_cells 9 (jigsaw_region sample_regions) k)
                  = 9%nat ->
                  each_once 9 (region_values 9 (jigsaw_region sample_regions)
                                             sol k)))
  /\ Jigsaw.generate_full_solution sample_regions []
     = Some (Ok sample_solution, [])
  /\ (exists ok b' rng',
         Mini.fill_solution (const_grid 6 0) [] = Some (ok, b', rng')
         /\ (ok = true ->
             wf_grid 6 b'
             /\ (forall r c, (r < 6)%nat -> (c < 6)%nat ->
                             1 <= get b' r c <= 6)
             /\ (forall r, (r < 6)%nat -> each_once 6 (row_values 6 b' r))
             /\ (forall c, (c < 6)%nat -> each_once 6 (col_values 6 b' c))
             /\ (forall k, 0 <= k < 6 ->
                    each_once 6 (region_values 6 mini_region b' k)))).
Proof.
  destruct C2_synthesized_solution_is_valid as [H1 [_ H3]].
  split; [|split].
  - apply H1. apply wf_gridb_sound. reflexivity.
  - vm_compute. reflexivity.
  - apply H3. exact (consistent_empty 6 mini_region).
Defined.

(** C1.  Every puzzle the reducer returns has exactly one solution, the
    one it was derived from.  [generate_puzzle_from_solution], given a
    Solution for the region map, returns a puzzle that keeps clues of that
    Solution only, on which [count_solutions] with cutoff 2 returns 1
    whatever the random draws, and whose every valid completion is the
    original Solution.  When [Sudoku6x6.generate] returns [True], the
    board keeps clues of the stored solution only, [solve] run on it
    yields exactly once and leaves it unchanged, and every valid
    completion of the board is the stored solution. *)
Theorem C1_reduced_puzzle_has_unique_solution :
  (forall (regions solution : Grid) (target : Z) (rng : Rng),
      wf_grid 9 regions ->
      is_solution 9 (jigsaw_region regions) solution ->
      exists puzzle rng',
        Jigsaw.generate_puzzle_from_solution solution regions target rng
        = Some (puzzle, rng')
        /\ extends 9 puzzle solution
        /\ (forall rng0, exists rng1,
               Jigsaw.count_solutions puzzle regions 2 rng0 = Some (1, rng1))
        /\ (forall s, is_solution 9 (jigsaw_region regions) s ->
                      extends 9 puzzle s -> s = solution))
  /\ (forall (s : Mini.Sudoku6x6) (level : Z) (rng : Rng)
             (s' : Mini.Sudoku6x6) (rng' : Rng),
         consistent 6 mini_region (Mini.board s) ->
         Mini.generate s level rng = Some (Ok (true, s'), rng') ->
         exists sol,
           Mini.solution s' = Some sol
           /\ is_solution 6 mini_region sol
           /\ extends 6 (Mini.board s') sol
           /\ (forall rng0, exists rng1,
                  Mini.solutions_of (Mini.board s') rng0
                  = Some ([true], Mini.board s', rng1))
           /\ (forall t, is_solution 6 mini_region t ->
                         extends 6 (Mini.board s') t -> t = sol)).
Proof.
  split.
  - intros regions solution target rng _ Hsol.
    destruct (generate_puzzle_spec regions solution Hsol target rng)
      as [puzzle [rng' [E [Hinv _]]]].
    exists puzzle, rng'. split; [assumption|].
    split; [destruct Hinv as [_ [H _]]; assumption|]. split.
    + intros rng0. apply (unique_count_one regions solution Hsol).
      assumption.
    + intros s Hs Hext. destruct Hinv as [_ [_ Huniq]]. apply Huniq.
      apply solution_completion; assumption.
  - intros s level rng s' rng' Hb E.
    destruct (generate_spec s level rng Hb) as [out [rng1 [E1 Hout]]].
    rewrite E in E1. injection E1 as <- <-.
    destruct Hout as [sol [H1 [H2 [H3 _]]]].
    exists sol. split; [assumption|]. split; [assumption|].
    split; [destruct H3 as [_ [H _]]; assumption|]. split.
    + intros rng0.
      destruct (unique_yields_once sol H2 (Mini.board s') rng0 H3)
        as [b' [rng2 [E2 ->]]].
      exists rng2. assumption.
    + intros t Ht Hext. destruct H3 as [_ [_ Huniq]]. apply Huniq.
      apply solution_completion; assumption.
Qed.

Lemma C1_reduced_puzzle_witness :
  (exists puzzle rng',
      Jigsaw.generate_puzzle_from_solution sample_solution sample_regions
        45 [] = Some (puzzle, rng')
      /\ extends 9 puzzle sample_solution
      /\ (forall rng0, exists rng1,
             Jigsaw.count_solutions puzzle sample_regions 2 rng0
             = Some (1, rng1))
      /\ (forall s, is_solution 9 (jigsaw_region sample_regions) s ->
                    extends 9 puzzle s -> s = sample_solution))
  /\ (exists s' rng',
         Mini.generate Mini.init 3 [] = Some (Ok (true, s'), rng')
         /\ exists sol,
             Mini.solution s' = Some sol
             /\ is_solution 6 mini_region sol
             /\ extends 6 (Mini.board s') sol
             /\ (forall rng0, exists rng1,
                    Mini.solutions_of (Mini.board s') rng0
                    = Some ([true], Mini.board s', rng1))
             /\ (forall t, is_solution 6 mini_region t ->
                           extends 6 (Mini.board s') t -> t = sol)).
Proof.
  destruct C1_reduced_puzzle_has_unique_solution as [H1 H2].
  split.
  - apply H1.
    + apply wf_gridb_sound. reflexivity.
    + apply is_solutionb_sound. vm_compute. reflexivity.
  - eexists. eexists. split; [vm_compute; reflexivity|].
    apply (H2 Mini.init 3 [] _ []).
    + exact (consistent_empty 6 mini_region).
    + vm_compute. reflexivity.
Defined.

(* ================================================================== *)
(** * Cell selection *)

Lemma mrv_scan_dead_end (g regions : Grid) (todo : list Cell)
      (best : option (Cell * list Z)) :
  (exists r0 c0, In (r0, c0) todo /\ get g r0 c0 = 0
                 /\ Jigsaw.compute_candidates g regions r0 c0 = []) ->
  exists r c, Jigsaw.mrv_scan g regions todo best = inl (r, c).
Proof.
  revert best. induction todo as [|[r c] rest IH]; intros best
    [r0 [c0 [Hin [Hz Hc]]]]; [destruct Hin|].
  simpl. destruct Hin as [Heq|Hin].
  - injection Heq as -> ->. rewrite Hz, Hc. simpl. exists r0, c0. reflexivity.
  - destruct (get g r c =? 0).
    + destruct (Jigsaw.compute_candidates g regions r c) as [|d ds].
      * exists r, c. reflexivity.
      * apply IH. exists r0, c0. auto.
    + apply IH. exists r0, c0. auto.
Qed.

Lemma find_unassigned_dead_end (g regions : Grid) (rng : Rng) :
  (exists r0 c0, (r0 < 9)%nat /\ (c0 < 9)%nat /\ get g r0 c0 = 0
                 /\ Jigsaw.compute_candidates g regions r0 c0 = []) ->
  exists r c,
    Jigsaw.find_unassigned_with_mrv g regions rng = (Some (r, c, []), rng).
Proof.
  intros [r0 [c0 [Hr [Hc [Hz Hcands]]]]].
  unfold Jigsaw.find_unassigned_with_mrv.
  destruct (mrv_scan_dead_end g regions (cells_of Jigsaw.GRID_SIZE) None)
    as [r [c E]].
  - exists r0, c0. split; [apply In_cells_of; auto|auto].
  - rewrite E. exists r, c. reflexivity.
Qed.

Lemma find_some_row (f : Cell -> bool) (r : nat) :
  forall (n s : nat) (x : Cell),
    find f (map (fun c => (r, c)) (seq s n)) = Some x ->
    fst x = r /\ (s <= snd x < s + n)%nat /\ f x = true
    /\ forall c', (s <= c' < snd x)%nat -> f (r, c') = false.
Proof.
  induction n as [|n IH]; intros s x H; simpl in H; [discriminate|].
  destruct (f (r, s)) eqn:E.
  - injection H as <-. simpl.
    split; [reflexivity|]. split; [lia|]. split; [assumption|].
    intros c' Hc'. lia.
  - destruct (IH (S s) x H) as [H1 [H2 [H3 H4]]].
    split; [assumption|]. split; [lia|]. split; [assumption|].
    intros c' Hc'. destruct (Nat.eq_dec c' s) as [->|Hne]; [assumption|].
    apply H4. lia.
Qed.

Lemma find_none_row (f : Cell -> bool) (r : nat) :
  forall (n s : nat),
    find f (map (fun c => (r, c)) (seq s n)) = None ->
    forall c', (s <= c' < s + n)%nat -> f (r, c') = false.
Proof.
  intros n s H c' Hc'.
  apply (find_none _ _ H (r, c')). apply in_map_iff. exists c'.
  split; [reflexivity|]. apply in_seq. lia.
Qed.

Lemma find_app_first {A : Type} (f : A -> bool) (l1 l2 : list A) :
  find f (l1 ++ l2)
  = match find f l1 with Some x => Some x | None => find f l2 end.
Proof.
  induction l1 as [|h t IH]; simpl; [reflexivity|].
  destruct (f h); [reflexivity|assumption].
Qed.

Lemma find_some_cells (f : Cell -> bool) (n : nat) :
  forall (m s : nat) (x : Cell),
    find f (flat_map (fun r => map (fun c => (r, c)) (seq 0 n)) (seq s m))
    = Some x ->
    (s <= fst x < s + m)%nat /\ (snd x < n)%nat /\ f x = true
    /\ forall r' c', (c' < n)%nat ->
         (s <= r' < fst x)%nat \/ (r' = fst x /\ (c' < snd x)%nat) ->
         f (r', c') = false.
Proof.
  induction m as [|m IH]; intros s x H; simpl in H; [discriminate|].
  rewrite find_app_first in H.
  destruct (find f (map (fun c => (s, c)) (seq 0 n))) as [y|] eqn:E.
  - injection H as <-.
    destruct (find_some_row f s n 0 y E) as [H1 [H2 [H3 H4]]].
    split; [lia|]. split; [lia|]. split; [assumption|].
    intros r' c' Hc' [Hlt|[-> Hlt]]; [lia|].
    rewrite H1. apply H4. lia.
  - destruct (IH (S s) x H) as [H1 [H2 [H3 H4]]].
    split; [lia|]. split; [lia|]. split; [assumption|].
    intros r' c' Hc' Hcase.
    destruct (Nat.eq_dec r' s) as [->|Hne].
    + apply (find_none_row f s n 0 E). lia.
    + apply H4; [assumption|]. destruct Hcase as [Hlt|Heq]; [left; lia|auto].
Qed.

(** [first_empty] is the first empty cell in row-major order. *)
Lemma first_empty_row_major (b : Grid) (r c : nat) :
  Mini.first_empty b = Some (r, c) ->
  (r < 6)%nat /\ (c < 6)%nat /\ get b r c = 0
  /\ forall r' c', (c' < 6)%nat ->
       (r' < r)%nat \/ (r' = r /\ (c' < c)%nat) -> get b r' c' <> 0.
Proof.
  unfold Mini.first_empty, cells_of. intros H.
  destruct (find_some_cells _ Mini.SIZE Mini.SIZE 0 (r, c) H)
    as [H1 [H2 [H3 H4]]].
  simpl in H1, H2, H3. unfold Mini.SIZE in *.
  split; [lia|]. split; [assumption|].
  split; [apply Z.eqb_eq; assumption|].
  intros r' c' Hc' Hcase. apply Z.eqb_neq.
  apply (H4 r' c' Hc'). simpl. destruct Hcase as [Hlt|Heq]; [left; lia|auto].
Qed.

(** C8, as stated, fails on the 6x6 solver: on [mini_two_choice_board]
    the cell [solve] branches on, (0, 0), has two legal symbols although
    the empty cell (0, 1) has one; on [mini_dead_end_board] the empty cell
    (5, 5) has no legal symbol, yet [solve] branches on (0, 0), where 1 is
    accepted, and one level of recursion does not end the call. *)
Lemma C8_mini_solver_takes_first_empty_cell :
  Mini.first_empty mini_two_choice_board = Some (0, 0)%nat
  /\ legal_count mini_two_choice_board 0 0 = 2%nat
  /\ get mini_two_choice_board 0 1 = 0
  /\ legal_count mini_two_choice_board 0 1 = 1%nat
  /\ get mini_dead_end_board 5 5 = 0
  /\ legal_count mini_dead_end_board 5 5 = 0%nat
  /\ Mini.first_empty mini_dead_end_board = Some (0, 0)%nat
  /\ Mini.number_is_valid mini_dead_end_board 0 0 1 = true
  /\ Mini.solve 1 mini_dead_end_board [] = None.
Proof. repeat split; reflexivity. Qed.

(** C8, amended.  In the 9x9 solver [find_unassigned_with_mrv] returns
    nothing only on a full grid; otherwise it returns an empty cell with a
    permutation of its legal symbols, and no empty cell has fewer legal
    symbols than the one returned.  When some empty cell has no legal
    symbol, it returns such a cell with no candidates, and both searches
    return [False] at once, leaving the grid and the generator as they
    were.  The 6x6 solver has no such policy: [solve] and [fill_solution]
    branch on the first empty cell in row-major order. *)
Theorem C8_cell_selection :
  (forall (grid regions : Grid) (rng : Rng),
      wf_grid 9 grid ->
      match Jigsaw.find_unassigned_with_mrv grid regions rng with
      | (None, _) => full 9 grid
      | (Some (r, c, cands), _) =>
          (r < 9)%nat /\ (c < 9)%nat /\ get grid r c = 0
          /\ Permutation cands (Jigsaw.compute_candidates grid regions r c)
          /\ forall r' c', (r' < 9)%nat -> (c' < 9)%nat ->
               get grid r' c' = 0 ->
               (length cands
                <= length (Jigsaw.compute_candidates grid regions r' c'))%nat
      end)
  /\ (forall (grid regions : Grid) (rng : Rng) (fuel : nat) (limit count : Z),
         (exists r0 c0, (r0 < 9)%nat /\ (c0 < 9)%nat /\ get grid r0 c0 = 0
                        /\ Jigsaw.compute_candidates grid regions r0 c0 = []) ->
         (exists r c,
             Jigsaw.find_unassigned_with_mrv grid regions rng
             = (Some (r, c, []), rng))
         /\ Jigsaw.dfs (S fuel) regions grid rng = Some (false, grid, rng)
         /\ (count < limit ->
             Jigsaw.count_dfs (S fuel) regions limit grid count rng
             = Some (false, grid, count, rng)))
  /\ (forall (b : Grid) (r c : nat),
         Mini.first_empty b = Some (r, c) ->
         (r < 6)%nat /\ (c < 6)%nat /\ get b r c = 0
         /\ forall r' c', (c' < 6)%nat ->
              (r' < r)%nat \/ (r' = r /\ (c' < c)%nat) -> get b r' c' <> 0).
Proof.
  split; [|split].
  - intros grid regions rng Hwf.
    pose proof (find_unassigned_spec regions grid rng) as H.
    destruct (Jigsaw.find_unassigned_with_mrv grid regions rng)
      as [[[[r c] cands]|] rng'].
    + destruct H as [Hr [Hc [Hz [Hp Hmin]]]].
      repeat split; auto.
      intros r' c' Hr' Hc' Hz'. destruct Hmin as [->|Hmin].
      * simpl. lia.
      * apply Hmin; assumption.
    + apply H.
  - intros grid regions rng fuel limit count Hdead.
    destruct (find_unassigned_dead_end grid regions rng Hdead) as [r [c E]].
    split; [exists r, c; assumption|]. split.
    + simpl. rewrite E. reflexivity.
    + intros Hlt. simpl. apply Z.leb_gt in Hlt. rewrite Hlt, E. reflexivity.
  - apply first_empty_row_major.
Qed.

Lemma C8_cell_selection_witness :
  (exists r c,
      Jigsaw.find_unassigned_with_mrv
        (set_cell dead_end_grid 0 0 3) sample_regions []
      = (Some (r, c, []), []))
  /\ Jigsaw.dfs 1 sample_regions (set_cell dead_end_grid 0 0 3) []
     = Some (false, set_cell dead_end_grid 0 0 3, [])
  /\ (forall r' c', (c' < 6)%nat ->
         (r' < 4)%nat \/ (r' = 4%nat /\ (c' < 0)%nat) ->
         get mini_open_board r' c' <> 0).
Proof.
  destruct C8_cell_selection as [_ [H2 H3]].
  destruct (H2 (set_cell dead_end_grid 0 0 3) sample_regions [] O 2 0)
    as [Ha [Hb _]].
  - exists O, 1%nat. repeat split; try lia; reflexivity.
  - split; [assumption|]. split; [assumption|].
    apply (H3 mini_open_board 4%nat 0%nat). reflexivity.
Defined.

(* ================================================================== *)
(** * Difficulty levels *)

(** C4, as stated, fails on the 9x9 driver: levels 0 and 7 are clamped
    to 1 and 6 and mapped to 45 and 26 givens; nothing is raised. *)
Lemma C4_out_of_range_level_is_clamped :
  Jigsaw.clamp_difficulty 0 = 1
  /\ Jigsaw.clamp_difficulty 7 = 6
  /\ Jigsaw.main_target_givens 0 = 45
  /\ Jigsaw.main_target_givens 7 = 26.
Proof. repeat split; reflexivity. Qed.

(** C4, amended.  The 9x9 driver raises nothing for a level outside
    1..6: it clamps the level into 1..6 (below 1 to 1, above 6 to 6) and
    looks the clamped level up in the table, where it is always present,
    so the default of the lookup is never used.  The 6x6 [evaluate]
    writes "invalid difficulty" to stderr exactly for the levels outside
    1..6; a level in 1..6 gives its table entry, and a level above 6 ends
    in the [IndexError] of the table lookup. *)
Theorem C4_difficulty_out_of_range :
  forall level : Z,
    (1 <= Jigsaw.clamp_difficulty level <= 6
     /\ (level < 1 -> Jigsaw.clamp_difficulty level = 1)
     /\ (6 < level -> Jigsaw.clamp_difficulty level = 6)
     /\ (1 <= level <= 6 -> Jigsaw.clamp_difficulty level = level)
     /\ Jigsaw.DIFFICULTY_GIVENS (Jigsaw.clamp_difficulty level)
        = Some (Jigsaw.main_target_givens level))
    /\ (fst (Mini.evaluate level) = true <-> level < 1 \/ 6 < level)
    /\ (1 <= level <= 6 ->
        snd (Mini.evaluate level)
        = Ok (nth (Z.to_nat level) Mini.empty_cells_table 0))
    /\ (6 < level -> snd (Mini.evaluate level) = IndexError).
Proof.
  intros level. split; [|split; [|split]].
  - unfold Jigsaw.clamp_difficulty. split; [lia|]. split; [lia|].
    split; [lia|]. split; [lia|].
    unfold Jigsaw.main_target_givens, Jigsaw.target_givens_of,
      Jigsaw.clamp_difficulty.
    assert (Hc : Z.max 1 (Z.min 6 level) = 1 \/ Z.max 1 (Z.min 6 level) = 2
                 \/ Z.max 1 (Z.min 6 level) = 3 \/ Z.max 1 (Z.min 6 level) = 4
                 \/ Z.max 1 (Z.min 6 level) = 5 \/ Z.max 1 (Z.min 6 level) = 6)
      by lia.
    destruct Hc as [->|[->|[->|[->|[->| ->]]]]]; reflexivity.
  - unfold Mini.evaluate. cbn [fst]. rewrite orb_true_iff.
    change (Z.of_nat (length Mini.empty_cells_table) - 1) with 6.
    rewrite !Z.ltb_lt. reflexivity.
  - intros H. rewrite (evaluate_in_range level H). reflexivity.
  - intros H. unfold Mini.evaluate, Jigsaw.py_pos. cbn [snd].
    change (Z.of_nat (length Mini.empty_cells_table)) with 7.
    assert (H1 : (level <? 7) = false) by (apply Z.ltb_ge; lia).
    assert (H2 : (level <? 0) = false) by (apply Z.ltb_ge; lia).
    rewrite H1, H2, andb_false_r. reflexivity.
Qed.

Lemma C4_difficulty_witness :
  Jigsaw.clamp_difficulty 9 = 6
  /\ snd (Mini.evaluate 3) = Ok 20
  /\ snd (Mini.evaluate 7) = IndexError.
Proof.
  destruct (C4_difficulty_out_of_range 9) as [[_ [_ [H1 _]]] _].
  destruct (C4_difficulty_out_of_range 3) as [_ [_ [H2 _]]].
  destruct (C4_difficulty_out_of_range 7) as [_ [_ [_ H3]]].
  split; [apply H1; lia|]. split; [apply H2; lia|apply H3; lia].
Defined.

(* ================================================================== *)
(** * Counting with a cutoff *)

(** C5, as stated, fails on the 6x6 reducer: the check it runs after a
    removal is [solve] run to exhaustion.  On the puzzle [generate]
    returns at level 3 when every random draw is 0, removing the clue at
    (2, 1) gives a board on which the check counts five solutions, not
    two. *)
Lemma C5_mini_check_counts_past_the_cutoff :
  (exists s rng,
      Mini.generate Mini.init 3 [] = Some (Ok (true, s), rng)
      /\ Mini.board s = mini_level3_puzzle)
  /\ get mini_level3_puzzle 2 1 = 5
  /\ exists b rng,
      Mini.solutions_of (set_cell mini_level3_puzzle 2 1 0) []
      = Some (repeat true 5, b, rng).
Proof.
  split; [|split; [reflexivity|]].
  - eexists. eexists. split; vm_compute; reflexivity.
  - eexists. eexists. vm_compute. reflexivity.
Qed.

(** C5, amended.  In the 9x9 program [count_solutions] with a cutoff
    [limit >= 0] returns a count between 0 and [limit], and with cutoff 2
    on a grid that two different Solutions extend it returns exactly 2;
    the 9x9 reducer decides each removal by this count at cutoff 2,
    keeping the removal when it is 1 and restoring the clue otherwise.
    The 6x6 reducer has no cutoff: it decides by the number of values
    [solve] yields when run to exhaustion, one for every solution of the
    board, and restores the clue when there is more than one. *)
Theorem C5_counting_cutoff :
  (forall (regions g : Grid) (limit : Z) (rng : Rng),
      wf_grid 9 regions -> wf_grid 9 g -> 0 <= limit ->
      exists count rng',
        Jigsaw.count_solutions g regions limit rng = Some (count, rng')
        /\ 0 <= count <= limit
        /\ (limit = 2 ->
            (exists s1 s2,
                s1 <> s2
                /\ is_solution 9 (jigsaw_region regions) s1 /\ extends 9 g s1
                /\ is_solution 9 (jigsaw_region regions) s2 /\ extends 9 g s2) ->
            count = 2))
  /\ (forall (regions : Grid) (target : Z) (r c : nat) (rest : list Cell)
            (grid : Grid) (givens : Z) (rng : Rng),
         target < givens ->
         Jigsaw.reduce_loop regions target ((r, c) :: rest) grid givens rng
         = match Jigsaw.count_solutions (set_cell grid r c 0) regions 2 rng with
           | None => None
           | Some (sols, rng1) =>
               if sols =? 1
               then Jigsaw.reduce_loop regions target rest
                      (set_cell grid r c 0) (givens - 1) rng1
               else Jigsaw.reduce_loop regions target rest
                      (set_cell (set_cell grid r c 0) r c (get grid r c))
                      givens rng1
           end)
  /\ (forall (b : Grid) (rng : Rng),
         wf_grid 6 b ->
         exists ys b' rng',
           Mini.solutions_of b rng = Some (ys, b', rng')
           /\ forall l : list Grid,
               NoDup l ->
               (forall s, In s l ->
                          is_solution 6 mini_region s /\ extends 6 b s) ->
               (length l <= length ys)%nat)
  /\ (forall (r c : nat) (rest : list Cell) (b : Grid) (empty_cells : Z)
            (rng : Rng),
         0 < empty_cells ->
         Mini.remove_loop ((r, c) :: rest) b empty_cells rng
         = match Mini.solutions_of (set_cell b r c 0) rng with
           | None => None
           | Some (solutions, b2, rng1) =>
               if (1 <? length solutions)%nat
               then Mini.remove_loop rest (set_cell b2 r c (get b r c))
                      empty_cells rng1
               else Mini.remove_loop rest b2 (empty_cells - 1) rng1
           end).
Proof.
  split; [|split; [|split]].
  - intros regions g limit rng _ Hwf Hlim.
    destruct (count_solutions_spec regions g limit rng Hwf)
      as [count [rng' [E [Hrange [_ Hcompl]]]]].
    exists count, rng'. split; [assumption|]. split; [lia|].
    intros -> [s1 [s2 [Hne [H1 [E1 [H2 E2]]]]]].
    specialize (Hcompl [s1; s2]).
    assert (H : Z.min 2 (Z.of_nat (length [s1; s2])) <= count).
    { apply Hcompl.
      - constructor; [intros [H|[]]; congruence|].
        constructor; [intros []|constructor].
      - intros x [<-|[<-|[]]]; apply solution_completion; assumption. }
    simpl in H. lia.
  - intros regions target r c rest grid givens rng Hlt. simpl.
    apply Z.leb_gt in Hlt. rewrite Hlt. reflexivity.
  - intros b rng Hwf.
    destruct (solutions_of_spec b rng Hwf)
      as [ys [b' [rng' [E [_ [_ Hcompl]]]]]].
    exists ys, b', rng'. split; [assumption|].
    intros l Hnd Hl. apply Hcompl; [assumption|].
    intros s Hs. destruct (Hl s Hs). apply solution_completion; assumption.
  - intros r c rest b empty_cells rng Hpos. simpl.
    apply Z.ltb_lt in Hpos. rewrite Hpos. reflexivity.
Qed.

Lemma C5_counting_cutoff_witness :
  (exists rng',
      Jigsaw.count_solutions two_rows_open sample_regions 2 [] = Some (2, rng'))
  /\ (exists ys b' rng',
         Mini.solutions_of mini_open_board [] = Some (ys, b', rng')
         /\ forall l : list Grid,
             NoDup l ->
             (forall s, In s l ->
                        is_solution 6 mini_region s
                        /\ extends 6 mini_open_board s) ->
             (length l <= length ys)%nat).
Proof.
  destruct C5_counting_cutoff as [H1 [_ [H3 _]]].
  split.
  - destruct (H1 sample_regions two_rows_open 2 [])
      as [count [rng' [E [_ Htwo]]]].
    + apply wf_gridb_sound. reflexivity.
    + apply wf_gridb_sound. reflexivity.
    + lia.
    + exists rng'. rewrite E. f_equal. f_equal. apply Htwo; [reflexivity|].
      exists sample_solution, rows_swapped.
      split; [discriminate|].
      split; [apply is_solutionb_sound; vm_compute; reflexivity|].
      split; [apply extendsb_sound; vm_compute; reflexivity|].
      split; [apply is_solutionb_sound; vm_compute; reflexivity|].
      apply extendsb_sound; vm_compute; reflexivity.
  - apply H3. apply wf_gridb_sound. reflexivity.
Defined.

(* ================================================================== *)
(** * Clue counts *)

(** C6, as stated, fails on the 9x9 reducer: the map, the solution and the
    puzzle the generator produces at level 6 when every random draw is 0.
    The pass over the cells ends with 32 clues left; the table asks
    for 26. *)
Lemma C6_jigsaw_reduction_stops_above_target :
  Jigsaw.generate_regions 300 [] = Some (Ok sample_regions, [])
  /\ Jigsaw.generate_full_solution sample_regions []
     = Some (Ok sample_solution, [])
  /\ Jigsaw.main_target_givens 6 = 26
  /\ exists puzzle rng',
      Jigsaw.generate_puzzle_from_solution sample_solution sample_regions
        (Jigsaw.main_target_givens 6) [] = Some (puzzle, rng')
      /\ clues puzzle = 32%nat.
Proof.
  split; [vm_compute; reflexivity|]. split; [vm_compute; reflexivity|].
  split; [reflexivity|].
  eexists. eexists. split; vm_compute; reflexivity.
Qed.

(** C6, amended.  When [Sudoku6x6.generate] returns [True] at a level in
    1..6, the board has exactly the number of empty cells the table
    [0, 10, 15, 20, 24, 26, 28] gives for the level (20 at level 3).
    [generate_puzzle_from_solution], given a Solution and the target the
    table gives for a level in 1..6 (45 at level 1, 26 at level 6),
    returns a puzzle with at least that many clues, never fewer. *)
Theorem C6_clue_counts :
  (forall (s : Mini.Sudoku6x6) (level : Z) (rng : Rng)
          (s' : Mini.Sudoku6x6) (rng' : Rng),
      consistent 6 mini_region (Mini.board s) ->
      1 <= level <= 6 ->
      Mini.generate s level rng = Some (Ok (true, s'), rng') ->
      Z.of_nat (empties (Mini.board s'))
      = nth (Z.to_nat level) [0; 10; 15; 20; 24; 26; 28] 0)
  /\ (forall (regions solution : Grid) (level : Z) (rng : Rng),
         wf_grid 9 regions ->
         is_solution 9 (jigsaw_region regions) solution ->
         1 <= level <= 6 ->
         exists puzzle rng',
           Jigsaw.generate_puzzle_from_solution solution regions
             (Jigsaw.main_target_givens level) rng = Some (puzzle, rng')
           /\ Jigsaw.main_target_givens level
              = nth (Z.to_nat level) [0; 45; 40; 36; 32; 28; 26] 0
           /\ Jigsaw.main_target_givens level <= Z.of_nat (clues puzzle) <= 81).
Proof.
  split.
  - intros s level rng s' rng' Hb Hlevel E.
    destruct (generate_spec s level rng Hb) as [out [rng1 [E1 Hout]]].
    rewrite E in E1. injection E1 as <- <-.
    destruct Hout as [sol [_ [_ [_ He]]]].
    rewrite (evaluate_in_range level Hlevel) in He. cbn [snd] in He.
    injection He as He. symmetry. exact He.
  - intros regions solution level rng _ Hsol Hlevel.
    destruct (generate_puzzle_spec regions solution Hsol
                (Jigsaw.main_target_givens level) rng)
      as [puzzle [rng' [E [[Hwf _] Hmin]]]].
    exists puzzle, rng'. split; [assumption|].
    assert (Hc : level = 1 \/ level = 2 \/ level = 3 \/ level = 4
                 \/ level = 5 \/ level = 6) by lia.
    pose proof (clues_empties 9 puzzle Hwf) as Hce.
    split.
    + destruct Hc as [->|[->|[->|[->|[->| ->]]]]]; reflexivity.
    + assert (HT : Jigsaw.main_target_givens level <= 81).
      { destruct Hc as [->|[->|[->|[->|[->| ->]]]]];
          apply Z.leb_le; reflexivity. }
      change (Z.of_nat (Jigsaw.GRID_SIZE * Jigsaw.GRID_SIZE)) with 81
        in Hmin.
      lia.
Qed.

Lemma C6_clue_counts_witness :
  (exists s' rng',
      Mini.generate Mini.init 3 [] = Some (Ok (true, s'), rng')
      /\ Z.of_nat (empties (Mini.board s')) = 20)
  /\ (exists puzzle rng',
         Jigsaw.generate_puzzle_from_solution sample_solution sample_regions
           (Jigsaw.main_target_givens 1) [] = Some (puzzle, rng')
         /\ Jigsaw.main_target_givens 1 = 45
         /\ 45 <= Z.of_nat (clues puzzle) <= 81).
Proof.
  destruct C6_clue_counts as [H1 H2]. split.
  - eexists. eexists. split; [vm_compute; reflexivity|].
    apply (H1 Mini.init 3 [] _ []).
    + exact (consistent_empty 6 mini_region).
    + lia.
    + vm_compute. reflexivity.
  - destruct (H2 sample_regions sample_solution 1 [])
      as [puzzle [rng' [E [Ht Hr]]]].
    + apply wf_gridb_sound. reflexivity.
    + apply is_solutionb_sound. vm_compute. reflexivity.
    + lia.
    + exists puzzle, rng'. split; [assumption|]. split; [reflexivity|].
      exact Hr.
Defined.

(* ================================================================== *)
(** * Region generation *)

Lemma adjacent_sym (a b : Cell) : adjacent a b -> adjacent b a.
Proof. unfold adjacent. intros [[H1 H2]|[H1 H2]]; [left|right]; split; auto;
         try congruence; tauto. Qed.

Lemma linked_mono (P Q : Cell -> Prop) (a b : Cell) :
  (forall x, P x -> Q x) -> linked P a b -> linked Q a b.
Proof.
  intros HPQ H. induction H as [a Ha|a b c Hab IH Hc Hadj].
  - apply linked_here. auto.
  - apply (linked_step Q a b c); auto.
Qed.

Lemma linked_trans (P : Cell -> Prop) (a b c : Cell) :
  linked P a b -> linked P b c -> linked P a c.
Proof.
  intros Hab Hbc. induction Hbc as [b Hb|b c d Hbc IH Hd Hadj].
  - assumption.
  - apply (linked_step P a c d); auto.
Qed.

Lemma linked_inside_l (P : Cell -> Prop) (a b : Cell) :
  linked P a b -> P a.
Proof. intros H. induction H; assumption. Qed.

Lemma linked_sym (P : Cell -> Prop) (a b : Cell) :
  linked P a b -> linked P b a.
Proof.
  intros H. induction H as [a Ha|a b c Hab IH Hc Hadj].
  - apply linked_here. assumption.
  - apply (linked_trans P c b a); [|assumption].
    apply (linked_step P c c b).
    + apply linked_here. assumption.
    + apply (linked_inside_l P b a). assumption.
    + apply adjacent_sym. assumption.
Qed.

(** A grown list is 4-connected. *)
Lemma grown_linked (l : list Cell) :
  grown l ->
  forall a b, In a l -> In b l -> linked (fun x => In x l) a b.
Proof.
  intros H. induction H as [|x|l x y Hl IH Hy Hadj]; intros a b Ha Hb.
  - destruct Ha.
  - destruct Ha as [<-|[]]. destruct Hb as [<-|[]].
    apply linked_here. left. reflexivity.
  - assert (Hmono : forall u v, In u l -> In v l ->
                       linked (fun z => In z (l ++ [x])) u v).
    { intros u v Hu Hv. apply (linked_mono (fun z => In z l)).
      - intros z Hz. apply in_app_iff. left. assumption.
      - apply IH; assumption. }
    assert (Hx : In x (l ++ [x])) by (apply in_app_iff; right; left; auto).
    assert (Hyx : linked (fun z => In z (l ++ [x])) y x).
    { apply (linked_step _ y y x); [|exact Hx|exact Hadj].
      apply linked_here. apply in_app_iff. left. assumption. }
    apply in_app_iff in Ha, Hb.
    destruct Ha as [Ha|[<-|[]]]; destruct Hb as [Hb|[<-|[]]].
    + apply Hmono; assumption.
    + apply (linked_trans _ a y x); [apply Hmono; assumption|assumption].
    + apply (linked_trans _ x y b); [|apply Hmono; assumption].
      apply linked_sym. assumption.
    + apply linked_here. assumption.
Qed.

Section RegionGrowth.

Import Jigsaw.

Lemma free_neighbors_spec (reg_of : Grid) (y x : Cell) :
  In x (free_neighbors reg_of y) ->
  (fst x < 9)%nat /\ (snd x < 9)%nat
  /\ get reg_of (fst x) (snd x) = -1 /\ adjacent y x.
Proof.
  unfold free_neighbors. rewrite in_flat_map.
  intros [d [Hd Hin]].
  destruct (in_bounds (Z.of_nat (fst y) + fst d) (Z.of_nat (snd y) + snd d)
            && (get reg_of (Z.to_nat (Z.of_nat (fst y) + fst d))
                           (Z.to_nat (Z.of_nat (snd y) + snd d)) =? -1))
    eqn:E; [|destruct Hin].
  destruct Hin as [<-|[]]. apply andb_true_iff in E. destruct E as [Hb Hfree].
  apply Z.eqb_eq in Hfree. unfold in_bounds, GRID_SIZE in Hb.
  rewrite !andb_true_iff in Hb. destruct Hb as [[[B1 B2] B3] B4].
  apply Z.leb_le in B1, B3. apply Z.ltb_lt in B2, B4.
  cbn [fst snd]. split; [lia|]. split; [lia|]. split; [assumption|].
  unfold adjacent. cbn [fst snd].
  destruct Hd as [<-|[<-|[<-|[<-|[]]]]]; cbn [fst snd] in *.
  - right. split; [lia|]. right. lia.
  - right. split; [lia|]. left. lia.
  - left. split; [lia|]. right. lia.
  - left. split; [lia|]. left. lia.
Qed.

Lemma fold_add_unseen_In (new f : list Cell) (x : Cell) :
  In x (fold_left add_unseen new f) -> In x f \/ In x new.
Proof.
  revert f. induction new as [|h t IH]; intros f H; simpl in H; [auto|].
  apply IH in H. destruct H as [H|H]; [|right; right; assumption].
  unfold add_unseen in H. destruct (existsb (cell_eqb h) f); [auto|].
  apply in_app_iff in H. destruct H as [H|[<-|[]]]; [auto|].
  right. left. reflexivity.
Qed.

Lemma frontier_spec (idx : nat) (regs : list (list Cell)) (reg_of : Grid)
      (rng : Rng) (x : Cell) :
  In x (fst (frontier idx regs reg_of rng)) ->
  (fst x < 9)%nat /\ (snd x < 9)%nat
  /\ get reg_of (fst x) (snd x) = -1
  /\ exists y, In y (nth idx regs []) /\ adjacent y x.
Proof.
  unfold frontier. intros H.
  apply (Permutation_in _ (shuffle_perm _ rng)) in H.
  apply fold_add_unseen_In in H. destruct H as [[]|H].
  apply in_flat_map in H. destruct H as [y [Hy Hx]].
  destruct (free_neighbors_spec reg_of y x Hx) as [H1 [H2 [H3 H4]]].
  split; [assumption|]. split; [assumption|]. split; [assumption|].
  exists y. auto.
Qed.

Lemma pick_best_In (reg_of : Grid) (f : list Cell) :
  forall (best : option Cell) (score : Z * nat) (rng : Rng) (x : Cell),
    fst (pick_best reg_of f best score rng) = Some x ->
    In x f \/ best = Some x.
Proof.
  induction f as [|h t IH]; intros best score rng x H; simpl in H.
  - auto.
  - destruct (random rng) as [jitter rng1].
    destruct (score_gt _ score).
    + apply IH in H. destruct H as [H|H]; [left; right; assumption|].
      injection H as <-. left. left. reflexivity.
    + apply IH in H. destruct H as [H|H]; [left; right; assumption|auto].
Qed.

(** Claiming a free cell for a region keeps the invariant and lowers the
    number of unclaimed cells by one. *)
Lemma claim_cell (regions : list (list Cell)) (region_of : Grid)
      (idx pr pc : nat) :
  regions_inv regions region_of ->
  (idx < 9)%nat -> (pr < 9)%nat -> (pc < 9)%nat ->
  get region_of pr pc = -1 ->
  grown (nth idx regions [] ++ [(pr, pc)]) ->
  regions_inv (upd idx (nth idx regions [] ++ [(pr, pc)]) regions)
              (set_cell region_of pr pc (Z.of_nat idx))
  /\ S (unclaimed (set_cell region_of pr pc (Z.of_nat idx)))
     = unclaimed region_of.
Proof.
  intros [Hlen [Hwf [Hcells [Hnd Hgrown]]]] Hidx Hpr Hpc Hfree Hg.
  assert (Hnth : forall j, (j < 9)%nat ->
            nth j (upd idx (nth idx regions [] ++ [(pr, pc)]) regions) []
            = if (j =? idx)%nat then nth idx regions [] ++ [(pr, pc)]
              else nth j regions []).
  { intros j Hj. destruct (j =? idx)%nat eqn:E.
    - apply Nat.eqb_eq in E. subst j. apply nth_upd_same. lia.
    - apply Nat.eqb_neq in E. apply nth_upd_other. auto. }
  assert (Hnotin : forall j, (j < 9)%nat -> ~ In (pr, pc) (nth j regions [])).
  { intros j Hj Hin. destruct (Hcells j pr pc Hj Hin) as [_ [_ H]].
    rewrite Hfree in H. lia. }
  split.
  - split; [rewrite upd_length; assumption|].
    split; [apply wf_set_cell; assumption|]. split; [|split].
    + intros j r c Hj Hin. rewrite (Hnth j Hj) in Hin.
      assert (Hcase : (pr, pc) = (r, c) \/ (pr, pc) <> (r, c)).
      { destruct (Nat.eq_dec pr r); destruct (Nat.eq_dec pc c);
          subst; auto; right; congruence. }
      destruct (j =? idx)%nat eqn:E.
      * apply Nat.eqb_eq in E. subst j. apply in_app_iff in Hin.
        destruct Hin as [Hin|[Heq|[]]].
        -- destruct (Hcells idx r c Hidx Hin) as [H1 [H2 H3]].
           split; [assumption|]. split; [assumption|].
           rewrite get_set_other; [assumption|].
           intros Heq. injection Heq as -> ->.
           apply (Hnotin idx Hidx). assumption.
        -- injection Heq as <- <-. split; [assumption|].
           split; [assumption|]. apply (get_set_in 9); assumption.
      * destruct (Hcells j r c Hj Hin) as [H1 [H2 H3]].
        split; [assumption|]. split; [assumption|].
        rewrite get_set_other; [assumption|].
        intros Heq. injection Heq as -> ->.
        apply (Hnotin j Hj). assumption.
    + intros j Hj. rewrite (Hnth j Hj). destruct (j =? idx)%nat; [|auto].
      apply NoDup_app; [auto| |].
      * constructor; [intros []|constructor].
      * intros a Ha [<-|[]]. apply (Hnotin idx Hidx). assumption.
    + intros j Hj. rewrite (Hnth j Hj). destruct (j =? idx)%nat; auto.
  - unfold unclaimed. apply (marks_set_cell _ 9); auto.
    + rewrite Hfree. reflexivity.
    + apply Z.eqb_neq. lia.
Qed.

Lemma grow_pass_spec (order : list nat) :
  (forall i, In i order -> (i < 9)%nat) ->
  forall (regions : list (list Cell)) (region_of : Grid) (mp : bool)
         (rng : Rng),
    regions_inv regions region_of ->
    match grow_pass order regions region_of mp rng with
    | (regions', region_of', mp', _) =>
        regions_inv regions' region_of'
        /\ (unclaimed region_of' <= unclaimed region_of)%nat
        /\ (mp' = true ->
            mp = true \/ (unclaimed region_of' < unclaimed region_of)%nat)
    end.
Proof.
  induction order as [|idx rest IH]; intros Hord regions region_of mp rng Hinv.
  - simpl. split; [assumption|]. split; [lia|auto].
  - assert (Hord' : forall i, In i rest -> (i < 9)%nat)
      by (intros i Hi; apply Hord; right; assumption).
    assert (Hidx : (idx < 9)%nat) by (apply Hord; left; reflexivity).
    cbn [grow_pass].
    destruct (GRID_SIZE <=? length (nth idx regions []))%nat;
      [apply IH; assumption|].
    pose proof (frontier_spec idx regions region_of rng) as Hfr.
    destruct (frontier idx regions region_of rng) as [f rng1].
    cbn [fst] in Hfr.
    destruct f as [|f0 ft]; [apply IH; assumption|].
    pose proof (pick_best_In region_of (f0 :: ft) None (-1, O) rng1) as Hpick.
    destruct (pick_best region_of (f0 :: ft) None (-1, O) rng1)
      as [[[pr pc]|] rng2]; [|apply IH; assumption].
    cbn [fst] in Hpick.
    destruct (Hpick (pr, pc) eq_refl) as [Hin|Hnone]; [|discriminate].
    destruct (Hfr (pr, pc) Hin) as [Hpr [Hpc [Hfree [y [Hy Hadj]]]]].
    cbn [fst snd] in Hpr, Hpc, Hfree.
    destruct (claim_cell regions region_of idx pr pc Hinv Hidx Hpr Hpc Hfree)
      as [Hinv' Hdec].
    { apply (grown_more _ _ y); [|assumption|assumption].
      destruct Hinv as [_ [_ [_ [_ Hg]]]]. apply Hg. assumption. }
    specialize (IH Hord' _ _ true rng2 Hinv').
    destruct (grow_pass rest
                (upd idx (nth idx regions [] ++ [(pr, pc)]) regions)
                (set_cell region_of pr pc (Z.of_nat idx)) true rng2)
      as [[[regions' region_of'] mp'] rng'].
    destruct IH as [H1 [H2 H3]].
    split; [assumption|]. split; [lia|]. intros _. right. lia.
Qed.

End RegionGrowth.

Section RegionResult.

Import Jigsaw.

Lemma insert_by_len_In (k x : nat * nat) (l : list (nat * nat)) :
  In x (insert_by_len k l) -> x = k \/ In x l.
Proof.
  induction l as [|h t IH]; simpl.
  - intros [<-|[]]. left. reflexivity.
  - destruct ((fst k <? fst h) || (fst k =? fst h) && (snd k <=? snd h))%nat.
    + intros [<-|H]; auto.
    + intros [<-|H]; [right; left; reflexivity|].
      apply IH in H. destruct H as [H|H]; [left; assumption|].
      right. right. assumption.
Qed.

Lemma sort_order_In (regions : list (list Cell)) (order : list nat)
      (i : nat) :
  In i (sort_order regions order) -> In i order.
Proof.
  unfold sort_order. rewrite in_map_iff. intros [[len j] [Hj Hin]].
  simpl in Hj. subst j.
  induction order as [|h t IH]; simpl in Hin; [destruct Hin|].
  apply insert_by_len_In in Hin. destruct Hin as [Heq|Hin].
  - injection Heq as _ ->. left. reflexivity.
  - right. apply IH. assumption.
Qed.

Lemma fold_set_wf (v : Z) (l : list Cell) (m : Grid) :
  wf_grid 9 m ->
  wf_grid 9 (fold_left (fun m rc => set_cell m (fst rc) (snd rc) v) l m).
Proof.
  revert m. induction l as [|h t IH]; intros m Hwf; simpl; [assumption|].
  apply IH. apply wf_set_cell. assumption.
Qed.

Lemma fold_set_other (v : Z) (l : list Cell) (r c : nat) :
  ~ In (r, c) l ->
  forall m,
    get (fold_left (fun m rc => set_cell m (fst rc) (snd rc) v) l m) r c
    = get m r c.
Proof.
  induction l as [|[hr hc] t IH]; intros Hnot m; simpl; [reflexivity|].
  rewrite IH.
  - apply get_set_other. intros Heq. apply Hnot. left. assumption.
  - intros H. apply Hnot. right. assumption.
Qed.

Lemma fold_set_same (v : Z) (l : list Cell) (r c : nat) :
  In (r, c) l -> (r < 9)%nat -> (c < 9)%nat ->
  forall m, wf_grid 9 m ->
    get (fold_left (fun m rc => set_cell m (fst rc) (snd rc) v) l m) r c = v.
Proof.
  intros Hin Hr Hc. induction l as [|[hr hc] t IH]; intros m Hwf;
    [destruct Hin|].
  simpl. destruct (in_dec (fun a b : Cell =>
                             ltac:(decide equality; apply Nat.eq_dec))
                          (r, c) t) as [Hint|Hnot].
  - apply IH; [assumption|]. apply wf_set_cell. assumption.
  - rewrite fold_set_other by assumption.
    destruct Hin as [Heq|Hin]; [|contradiction].
    injection Heq as -> ->. apply (get_set_in 9); assumption.
Qed.

(** The outer loop of [build_mat] over the region indices [idxs]. *)
Lemma build_fold_wf (regions : list (list Cell)) (idxs : list nat) (m : Grid) :
  wf_grid 9 m ->
  wf_grid 9
    (fold_left (fun mat ridx =>
       fold_left (fun m rc => set_cell m (fst rc) (snd rc) (Z.of_nat ridx))
                 (nth ridx regions []) mat) idxs m).
Proof.
  revert m. induction idxs as [|i t IH]; intros m Hwf; simpl; [assumption|].
  apply IH. apply fold_set_wf. assumption.
Qed.

Lemma build_fold_get (regions : list (list Cell)) (k r c : nat) :
  (r < 9)%nat -> (c < 9)%nat ->
  forall (idxs : list nat) (m : Grid),
    wf_grid 9 m ->
    (forall i, In i idxs -> In (r, c) (nth i regions []) -> i = k) ->
    get m r c = Z.of_nat k \/ (In k idxs /\ In (r, c) (nth k regions [])) ->
    get (fold_left (fun mat ridx =>
           fold_left (fun m rc => set_cell m (fst rc) (snd rc) (Z.of_nat ridx))
                     (nth ridx regions []) mat) idxs m) r c
    = Z.of_nat k.
Proof.
  intros Hr Hc. induction idxs as [|i t IH]; intros m Hwf Honly Hcase.
  - simpl. destruct Hcase as [H|[[] _]]. assumption.
  - simpl. apply IH.
    + apply fold_set_wf. assumption.
    + intros j Hj. apply Honly. right. assumption.
    + destruct (in_dec (fun a b : Cell =>
                          ltac:(decide equality; apply Nat.eq_dec))
                       (r, c) (nth i regions [])) as [Hin|Hnot].
      * left. pose proof (Honly i (or_introl eq_refl) Hin) as Hik.
        subst i. apply fold_set_same; assumption.
      * rewrite fold_set_other by assumption.
        destruct Hcase as [H|[[Heq|Hk] Hin]]; [left; assumption| |].
        -- subst i. contradiction.
        -- right. auto.
Qed.

Lemma NoDup_flat_map_disjoint {A B : Type} (f : A -> list B) (l : list A) :
  NoDup l ->
  (forall x, In x l -> NoDup (f x)) ->
  (forall x y b, In x l -> In y l -> x <> y -> In b (f x) -> ~ In b (f y)) ->
  NoDup (flat_map f l).
Proof.
  induction l as [|h t IH]; intros Hnd Hf Hdis; simpl; [constructor|].
  inversion Hnd as [|? ? Hnotin Hnd']; subst.
  apply NoDup_app.
  - apply Hf. left. reflexivity.
  - apply IH; auto.
    + intros x Hx. apply Hf. right. assumption.
    + intros x y b Hx Hy. apply Hdis; right; assumption.
  - intros b Hb Hb'. apply in_flat_map in Hb'. destruct Hb' as [y [Hy Hby]].
    apply (Hdis h y b); auto.
    + left. reflexivity.
    + right. assumption.
    + intros ->. contradiction.
Qed.

Lemma length_flat_map_const {A B : Type} (f : A -> list B) (k : nat)
      (l : list A) :
  (forall x, In x l -> length (f x) = k) ->
  length (flat_map f l) = (length l * k)%nat.
Proof.
  induction l as [|h t IH]; intros H; simpl; [reflexivity|].
  rewrite length_app, IH, (H h) by (try (left; reflexivity);
                                    intros x Hx; apply H; right; assumption).
  reflexivity.
Qed.

(** Nine disjoint regions of nine cells cover the grid. *)
Lemma full_regions_cover (regions : list (list Cell)) (region_of : Grid) :
  regions_inv regions region_of -> all_full regions = true ->
  forall r c, (r < 9)%nat -> (c < 9)%nat ->
    exists idx, (idx < 9)%nat /\ In (r, c) (nth idx regions []).
Proof.
  intros [Hlen [Hwf [Hcells [Hnd Hgrown]]]] Hfull r c Hr Hc.
  unfold all_full in Hfull. rewrite forallb_forall in Hfull.
  set (all := flat_map (fun i => nth i regions []) (seq 0 9)).
  assert (Hall_nd : NoDup all).
  { apply NoDup_flat_map_disjoint.
    - apply seq_NoDup.
    - intros i Hi. apply in_seq in Hi. apply Hnd. lia.
    - intros i j [br bc] Hi Hj Hne Hbi Hbj. apply in_seq in Hi, Hj.
      destruct (Hcells i br bc ltac:(lia) Hbi) as [_ [_ H1]].
      destruct (Hcells j br bc ltac:(lia) Hbj) as [_ [_ H2]].
      rewrite H1 in H2. lia. }
  assert (Hall_len : length all = 81%nat).
  { unfold all. rewrite (length_flat_map_const _ 9).
    - rewrite length_seq. reflexivity.
    - intros i Hi. apply Nat.eqb_eq. apply (Hfull i Hi). }
  assert (Hincl : incl (cells_of 9) all).
  { apply (NoDup_length_incl Hall_nd).
    - rewrite Hall_len. reflexivity.
    - intros [ar ac] Ha. apply in_flat_map in Ha.
      destruct Ha as [i [Hi Ha]]. apply in_seq in Hi.
      destruct (Hcells i ar ac ltac:(lia) Ha) as [H1 [H2 _]].
      apply In_cells_of. auto. }
  specialize (Hincl (r, c) (proj2 (In_cells_of 9 r c) (conj Hr Hc))).
  apply in_flat_map in Hincl. destruct Hincl as [i [Hi Hin]].
  apply in_seq in Hi. exists i. split; [lia|assumption].
Qed.

(** On a completed attempt the map built from the regions sends each cell
    to the index of the region that holds it. *)
Lemma build_mat_spec (regions : list (list Cell)) (region_of : Grid) :
  regions_inv regions region_of -> all_full regions = true ->
  wf_grid 9 (build_mat regions)
  /\ forall r c, (r < 9)%nat -> (c < 9)%nat ->
       forall idx, (idx < 9)%nat ->
         (get (build_mat regions) r c = Z.of_nat idx
          <-> In (r, c) (nth idx regions [])).
Proof.
  intros Hinv Hfull.
  assert (Hwf : wf_grid 9 (build_mat regions)).
  { unfold build_mat. apply build_fold_wf. apply wf_const_grid. }
  split; [assumption|].
  assert (Hget : forall r c idx, (r < 9)%nat -> (c < 9)%nat ->
            (idx < 9)%nat -> In (r, c) (nth idx regions []) ->
            get (build_mat regions) r c = Z.of_nat idx).
  { intros r c idx Hr Hc Hidx Hin. unfold build_mat.
    apply build_fold_get; auto.
    - apply wf_const_grid.
    - intros i Hi Hin'. apply in_seq in Hi.
      destruct Hinv as [_ [_ [Hcells _]]].
      destruct (Hcells i r c ltac:(unfold GRID_SIZE in Hi; lia) Hin')
        as [_ [_ H1]].
      destruct (Hcells idx r c Hidx Hin) as [_ [_ H2]].
      rewrite H1 in H2. lia.
    - right. split; [|assumption]. apply in_seq. unfold GRID_SIZE. lia. }
  intros r c Hr Hc idx Hidx. split.
  - intros Hg.
    destruct (full_regions_cover regions region_of Hinv Hfull r c Hr Hc)
      as [j [Hj Hin]].
    rewrite (Hget r c j Hr Hc Hj Hin) in Hg.
    assert (j = idx) by lia. subst j. assumption.
  - apply Hget; assumption.
Qed.

End RegionResult.

Section RegionChecks.

Import Jigsaw.

Lemma set_add_In (b x : Z) (s : list Z) :
  In x (set_add b s) -> x = b \/ In x s.
Proof.
  unfold set_add. destruct (existsb (Z.eqb b) s); [auto|].
  intros [<-|H]; auto.
Qed.

Lemma set_add_NoDup (b : Z) (s : list Z) : NoDup s -> NoDup (set_add b s).
Proof.
  intros H. unfold set_add. destruct (existsb (Z.eqb b) s) eqn:E; [assumption|].
  constructor; [|assumption]. intros Hin.
  assert (Ht : existsb (Z.eqb b) s = true).
  { apply existsb_exists. exists b. split; [assumption|apply Z.eqb_refl]. }
  congruence.
Qed.

Lemma py_pos_in_range (v : Z) :
  0 <= v < 9 -> py_pos 9 v = Some (Z.to_nat v).
Proof.
  intros H. unfold py_pos.
  assert (H1 : (0 <=? v) = true) by (apply Z.leb_le; lia).
  assert (H2 : (v <? Z.of_nat 9) = true) by (apply Z.ltb_lt; lia).
  rewrite H1, H2. reflexivity.
Qed.

Lemma boxsets_fold (mat : Grid) :
  (forall r c, (r < 9)%nat -> (c < 9)%nat -> 0 <= get mat r c < 9) ->
  forall (l : list Cell) (bs : list (list Z)),
    (forall r c, In (r, c) l -> (r < 9)%nat /\ (c < 9)%nat) ->
    boxsets_ok mat bs ->
    boxsets_ok mat
      (fold_left (fun boxsets rc =>
         match py_pos (length boxsets) (get mat (fst rc) (snd rc)) with
         | Some k =>
             upd k (set_add (standard_box_mapping (fst rc) (snd rc))
                            (nth k boxsets [])) boxsets
         | None => boxsets
         end) l bs).
Proof.
  intros Hrange l. induction l as [|[r c] t IH]; intros bs Hl Hok;
    [assumption|].
  cbn [fold_left]. apply IH.
  - intros r' c' H. apply Hl. right. assumption.
  - destruct (Hl r c (or_introl eq_refl)) as [Hr Hc].
    destruct Hok as [Hlen Hk]. cbn [fst snd]. rewrite Hlen.
    rewrite (py_pos_in_range _ (Hrange r c Hr Hc)).
    pose proof (Hrange r c Hr Hc) as Hv.
    split; [rewrite upd_length; assumption|].
    intros k Hk9. destruct (Nat.eq_dec (Z.to_nat (get mat r c)) k) as [E|E].
    + rewrite E. rewrite nth_upd_same by lia.
      destruct (Hk k Hk9) as [Hnd Hb]. split; [apply set_add_NoDup; auto|].
      intros b Hin. apply set_add_In in Hin. destruct Hin as [->|Hin].
      * exists r, c. repeat split; auto. lia.
      * apply Hb. assumption.
    + rewrite nth_upd_other by assumption. apply Hk. assumption.
Qed.

Lemma filter_length_seq {A : Type} (f : A -> bool) (d : A) :
  forall (l : list A) (s : nat),
    length (filter f l)
    = length (filter (fun i => f (nth (i - s) l d)) (seq s (length l))).
Proof.
  induction l as [|h t IH]; intros s; [reflexivity|].
  cbn [length seq filter]. rewrite Nat.sub_diag.
  change (nth 0 (h :: t) d) with h.
  assert (E : filter (fun i => f (nth (i - s) (h :: t) d))
                     (seq (S s) (length t))
              = filter (fun i => f (nth (i - S s) t d))
                       (seq (S s) (length t))).
  { apply filter_ext_in. intros i Hi. apply in_seq in Hi.
    replace (i - s)%nat with (S (i - S s)) by lia. reflexivity. }
  rewrite E. destruct (f h); cbn [length]; rewrite <- IH; reflexivity.
Qed.

Lemma boxsets_of_ok (mat : Grid) :
  (forall r c, (r < 9)%nat -> (c < 9)%nat -> 0 <= get mat r c < 9) ->
  boxsets_ok mat (boxsets_of mat).
Proof.
  intros Hrange. unfold boxsets_of. apply boxsets_fold; auto.
  - intros r c H. apply In_cells_of in H. assumption.
  - split; [apply repeat_length|]. intros k Hk.
    rewrite nth_repeat_lt by assumption.
    split; [constructor|intros b []].
Qed.

Lemma regions_cross_boxes_spec (mat : Grid) (k : nat) :
  regions_cross_boxes mat k = true -> (k <= cross_count mat)%nat.
Proof. intros H. apply Nat.leb_le. exact H. Qed.

Lemma crossing_indices (bs : list (list Z)) :
  length bs = 9%nat ->
  length (filter (fun i => (2 <=? length (nth i bs []))%nat) (seq 0 9))
  = length (filter (fun s : list Z => (2 <=? length s)%nat) bs).
Proof.
  intros Hlen.
  rewrite (filter_length_seq (fun s : list Z => (2 <=? length s)%nat) []
                             bs 0), Hlen.
  apply (f_equal (@length nat)). apply filter_ext. intros i.
  rewrite Nat.sub_0_r. reflexivity.
Qed.

Lemma cross_count_indices (mat : Grid) :
  length (boxsets_of mat) = 9%nat ->
  length (filter (fun i => (2 <=? length (nth i (boxsets_of mat) []))%nat)
                 (seq 0 9))
  = cross_count mat.
Proof.
  intros Hlen. unfold cross_count. revert Hlen.
  generalize (boxsets_of mat). intros bs Hlen.
  apply crossing_indices. assumption.
Qed.

(** [regions_cross_boxes] finds four regions that each hold two cells of
    different boxes. *)
Lemma cross_regions (mat : Grid) :
  (forall r c, (r < 9)%nat -> (c < 9)%nat -> 0 <= get mat r c < 9) ->
  regions_cross_boxes mat 4 = true ->
  exists ks : list Z,
    NoDup ks /\ (4 <= length ks)%nat
    /\ forall k, In k ks ->
         exists a b, in_region mat k a /\ in_region mat k b
                     /\ standard_box_mapping (fst a) (snd a)
                        <> standard_box_mapping (fst b) (snd b).
Proof.
  intros Hrange Hcross. apply regions_cross_boxes_spec in Hcross.
  destruct (boxsets_of_ok mat Hrange) as [Hlen Hk].
  rewrite <- (cross_count_indices mat Hlen) in Hcross.
  clear Hlen. revert Hk Hcross. generalize (boxsets_of mat). intros bs Hk Hcross.
  set (idxs := filter (fun i => (2 <=? length (nth i bs []))%nat) (seq 0 9))
    in Hcross.
  exists (map Z.of_nat idxs). split; [|split].
  - apply Finite.Injective_map_NoDup; [intros a b H; lia|].
    apply NoDup_filter. apply seq_NoDup.
  - rewrite length_map. assumption.
  - intros k Hin. apply in_map_iff in Hin. destruct Hin as [i [<- Hi]].
    apply filter_In in Hi. destruct Hi as [Hi Hlen2].
    apply in_seq in Hi. apply Nat.leb_le in Hlen2.
    destruct (Hk i ltac:(lia)) as [Hnd Hb].
    destruct (nth i bs []) as [|b1 [|b2 rest]];
      simpl in Hlen2; try lia.
    destruct (Hb b1 (or_introl eq_refl)) as [r1 [c1 [A1 [A2 [A3 A4]]]]].
    destruct (Hb b2 (or_intror (or_introl eq_refl)))
      as [r2 [c2 [B1 [B2 [B3 B4]]]]].
    exists (r1, c1), (r2, c2). unfold in_region. cbn [fst snd].
    repeat split; auto.
    rewrite A4, B4. intros ->.
    inversion Hnd as [|? ? Hnotin _]; subst. apply Hnotin. left. reflexivity.
Qed.

(** A completed attempt that passes the two checks yields a valid map. *)
Lemma found_valid (regions : list (list Cell)) (region_of : Grid) :
  regions_inv regions region_of -> all_full regions = true ->
  not_standard (build_mat regions) = true ->
  regions_cross_boxes (build_mat regions) 4 = true ->
  valid_region_map (build_mat regions).
Proof.
  intros Hinv Hfull Hns Hcross.
  destruct (build_mat_spec regions region_of Hinv Hfull) as [Hwf Hmat].
  assert (Hrange : forall r c, (r < 9)%nat -> (c < 9)%nat ->
                     0 <= get (build_mat regions) r c < 9).
  { intros r c Hr Hc.
    destruct (full_regions_cover regions region_of Hinv Hfull r c Hr Hc)
      as [idx [Hidx Hin]].
    rewrite (proj2 (Hmat r c Hr Hc idx Hidx) Hin). lia. }
  split; [assumption|]. split; [assumption|]. split; [|split; [|split]].
  - intros k Hk.
    assert (Hidx : (Z.to_nat k < 9)%nat) by lia.
    assert (Hperm : Permutation
                      (region_cells 9 (jigsaw_region (build_mat regions)) k)
                      (nth (Z.to_nat k) regions [])).
    { apply NoDup_Permutation.
      - apply NoDup_filter. apply NoDup_cells_of.
      - destruct Hinv as [_ [_ [_ [Hnd _]]]]. apply Hnd. assumption.
      - intros [r c]. unfold region_cells, jigsaw_region.
        rewrite filter_In, In_cells_of. cbn [fst snd]. rewrite Z.eqb_eq.
        split.
        + intros [[Hr Hc] Hg]. apply (Hmat r c Hr Hc); [assumption|lia].
        + intros Hin. destruct Hinv as [_ [_ [Hcells _]]].
          destruct (Hcells _ r c Hidx Hin) as [Hr [Hc _]].
          split; [auto|].
          rewrite (proj2 (Hmat r c Hr Hc _ Hidx) Hin). lia. }
    rewrite (Permutation_length Hperm).
    unfold all_full in Hfull. rewrite forallb_forall in Hfull.
    apply Nat.eqb_eq. apply Hfull. apply in_seq. unfold GRID_SIZE. lia.
  - intros k [ar ac] [br bc] [Ha1 [Ha2 Ha3]] [Hb1 [Hb2 Hb3]].
    cbn [fst snd] in *.
    pose proof (Hrange ar ac Ha1 Ha2) as Hk. rewrite Ha3 in Hk.
    assert (Hidx : (Z.to_nat k < 9)%nat) by lia.
    assert (Hina : In (ar, ac) (nth (Z.to_nat k) regions []))
      by (apply (Hmat ar ac Ha1 Ha2); [assumption|lia]).
    assert (Hinb : In (br, bc) (nth (Z.to_nat k) regions []))
      by (apply (Hmat br bc Hb1 Hb2); [assumption|lia]).
    apply (linked_mono (fun x => In x (nth (Z.to_nat k) regions []))).
    + intros [xr xc] Hx. destruct Hinv as [_ [_ [Hcells _]]].
      destruct (Hcells _ xr xc Hidx Hx) as [Hr [Hc _]].
      unfold in_region. cbn [fst snd]. split; [assumption|].
      split; [assumption|].
      rewrite (proj2 (Hmat xr xc Hr Hc _ Hidx) Hx). lia.
    + destruct Hinv as [_ [_ [_ [_ Hg]]]].
      apply grown_linked; auto.
  - unfold not_standard in Hns. apply existsb_exists in Hns.
    destruct Hns as [[r c] [Hin Hne]]. apply In_cells_of in Hin.
    cbn [fst snd] in Hne. apply negb_true_iff, Z.eqb_neq in Hne.
    exists r, c. tauto.
  - apply cross_regions; assumption.
Qed.

End RegionChecks.

Section RegionAttempts.

Import Jigsaw.

(** With fuel above the number of unclaimed cells the growth loop ends:
    every pass that does not end it claims a cell. *)
Lemma grow_spec (fuel : nat) :
  forall (regions : list (list Cell)) (region_of : Grid) (rng : Rng),
    regions_inv regions region_of ->
    (unclaimed region_of < fuel)%nat ->
    exists a rng',
      grow fuel regions region_of rng = Some (a, rng')
      /\ forall mat, a = Found mat -> valid_region_map mat.
Proof.
  induction fuel as [|fuel IH]; intros regions region_of rng Hinv Hfuel;
    [lia|].
  cbn [grow].
  destruct (shuffle (seq 0 GRID_SIZE) rng) as [order0 rng1] eqn:Es.
  pose proof (shuffle_perm_eq _ _ _ _ Es) as Hperm.
  assert (Hord : forall i, In i (sort_order regions order0) -> (i < 9)%nat).
  { intros i Hi. apply sort_order_In in Hi.
    apply (Permutation_in _ Hperm) in Hi. apply in_seq in Hi.
    unfold GRID_SIZE in Hi. lia. }
  pose proof (grow_pass_spec (sort_order regions order0) Hord
                regions region_of false rng1 Hinv) as Hpass.
  destruct (grow_pass (sort_order regions order0) regions region_of false rng1)
    as [[[regions' region_of'] mp] rng2].
  destruct Hpass as [Hinv' [Hle Hprog]].
  destruct (all_full regions') eqn:Efull.
  - destruct (not_standard (build_mat regions')
              && regions_cross_boxes (build_mat regions') 4) eqn:Echeck.
    + apply andb_true_iff in Echeck. destruct Echeck as [E1 E2].
      eexists. eexists. split; [reflexivity|].
      intros mat Hmat. injection Hmat as <-.
      apply (found_valid regions' region_of'); assumption.
    + eexists. eexists. split; [reflexivity|]. discriminate.
  - destruct mp.
    + apply IH; [assumption|].
      destruct (Hprog eq_refl) as [H|H]; [discriminate|lia].
    + eexists. eexists. split; [reflexivity|]. discriminate.
Qed.

Lemma initial_regions_inv :
  regions_inv (repeat [] GRID_SIZE) (const_grid GRID_SIZE (-1)).
Proof.
  assert (Hnth : forall idx, nth idx (repeat (@nil Cell) GRID_SIZE) [] = []).
  { intros idx. apply nth_repeat. }
  split; [apply repeat_length|]. split; [apply wf_const_grid|].
  split; [|split].
  - intros idx r c _ Hin. rewrite Hnth in Hin. destruct Hin.
  - intros idx _. rewrite Hnth. constructor.
  - intros idx _. rewrite Hnth. constructor.
Qed.

Lemma place_seeds_spec :
  forall (seeds : list Cell) (idx : nat) (regions : list (list Cell))
         (region_of : Grid),
    regions_inv regions region_of ->
    (idx + length seeds <= 9)%nat ->
    NoDup seeds ->
    (forall r c, In (r, c) seeds ->
                 (r < 9)%nat /\ (c < 9)%nat /\ get region_of r c = -1) ->
    (forall j, (idx <= j)%nat -> (j < 9)%nat -> nth j regions [] = []) ->
    regions_inv (fst (place_seeds idx seeds regions region_of))
                (snd (place_seeds idx seeds regions region_of)).
Proof.
  induction seeds as [|[sr sc] rest IH];
    intros idx regions region_of Hinv Hlen Hnd Hseeds Hempty.
  - assumption.
  - cbn [place_seeds]. cbn [length] in Hlen.
    inversion Hnd as [|? ? Hnotin Hnd']; subst.
    destruct (Hseeds sr sc (or_introl eq_refl)) as [Hr [Hc Hfree]].
    assert (Hidx : (idx < 9)%nat) by lia.
    destruct (claim_cell regions region_of idx sr sc Hinv Hidx Hr Hc Hfree)
      as [Hinv' _].
    { rewrite (Hempty idx (Nat.le_refl _) Hidx). apply grown_seed. }
    apply IH; auto.
    + lia.
    + intros r c Hin. destruct (Hseeds r c (or_intror Hin)) as [H1 [H2 H3]].
      split; [assumption|]. split; [assumption|].
      rewrite get_set_other; [assumption|].
      intros Heq. injection Heq as -> ->. contradiction.
    + intros j Hj Hj9. rewrite nth_upd_other by lia. apply Hempty; lia.
Qed.

Lemma NoDup_firstn {A : Type} (k : nat) (l : list A) :
  NoDup l -> NoDup (firstn k l).
Proof.
  intros H. rewrite <- (firstn_skipn k l) in H.
  apply NoDup_app_remove_r in H. assumption.
Qed.

(** One attempt ends, leaves [all_cells] a permutation of the grid's
    cells, and any map it finds is valid. *)
Lemma attempt_once_spec (all_cells : list Cell) (rng : Rng) :
  Permutation all_cells (cells_of GRID_SIZE) ->
  exists a cells' rng',
    attempt_once all_cells rng = Some (a, cells', rng')
    /\ Permutation cells' (cells_of GRID_SIZE)
    /\ forall mat, a = Found mat -> valid_region_map mat.
Proof.
  intros Hperm. unfold attempt_once.
  destruct (shuffle all_cells rng) as [cells' rng1] eqn:Es.
  pose proof (shuffle_perm_eq _ _ _ _ Es) as Hp.
  assert (Hperm' : Permutation cells' (cells_of GRID_SIZE))
    by (apply (Permutation_trans Hp Hperm)).
  assert (Hnd : NoDup cells').
  { apply (Permutation_NoDup (Permutation_sym Hperm')). apply NoDup_cells_of. }
  pose proof (place_seeds_spec (firstn GRID_SIZE cells') 0
                (repeat [] GRID_SIZE) (const_grid GRID_SIZE (-1))
                initial_regions_inv) as Hseed.
  destruct (place_seeds 0 (firstn GRID_SIZE cells') (repeat [] GRID_SIZE)
                        (const_grid GRID_SIZE (-1))) as [regions region_of].
  cbn [fst snd] in Hseed.
  assert (Hinv : regions_inv regions region_of).
  { apply Hseed.
    - rewrite length_firstn. unfold GRID_SIZE. lia.
    - apply NoDup_firstn. assumption.
    - intros r c Hin. apply In_firstn in Hin.
      apply (Permutation_in _ Hperm') in Hin. apply In_cells_of in Hin.
      destruct Hin as [Hr Hc]. split; [assumption|]. split; [assumption|].
      apply get_const_grid; assumption.
    - intros j _ _. apply nth_repeat. }
  destruct (grow_spec (S (unclaimed region_of)) regions region_of rng1 Hinv
                      (Nat.lt_succ_diag_r _)) as [a [rng2 [E Hvalid]]].
  rewrite E. exists a, cells', rng2. auto.
Qed.

(** The restart loop ends after at most [restarts] attempts, with a valid
    map or with the [RuntimeError]. *)
Lemma restart_loop_spec (restarts : nat) :
  forall (all_cells : list Cell) (rng : Rng),
    Permutation all_cells (cells_of GRID_SIZE) ->
    exists out rng',
      restart_loop restarts all_cells rng = Some (out, rng')
      /\ (out = RuntimeError
          \/ exists mat, out = Ok mat /\ valid_region_map mat).
Proof.
  induction restarts as [|k IH]; intros all_cells rng Hperm.
  - simpl. eexists. eexists. split; [reflexivity|]. left. reflexivity.
  - cbn [restart_loop].
    destruct (attempt_once_spec all_cells rng Hperm)
      as [a [cells' [rng' [E [Hperm' Hvalid]]]]].
    rewrite E. destruct a as [mat|].
    + eexists. eexists. split; [reflexivity|]. right.
      exists mat. split; [reflexivity|]. apply Hvalid. reflexivity.
    + apply IH. assumption.
Qed.

End RegionAttempts.

(** C3.  Every map [generate_regions] returns is a 9x9 grid of region
    ids 0..8 in which each of the nine ids marks exactly nine cells, the
    cells of any one id are 4-connected, some cell differs from the
    standard 3x3 box mapping, and at least four regions hold two cells
    that lie in different standard boxes. *)
Theorem C3_generated_regions_are_valid :
  forall (max_restarts : Z) (rng : Rng) (mat : Grid) (rng' : Rng),
    Jigsaw.generate_regions max_restarts rng = Some (Ok mat, rng') ->
    wf_grid 9 mat
    /\ (forall r c, (r < 9)%nat -> (c < 9)%nat -> 0 <= get mat r c < 9)
    /\ (forall k, 0 <= k < 9 ->
                  length (region_cells 9 (jigsaw_region mat) k) = 9%nat)
    /\ (forall k a b, in_region mat k a -> in_region mat k b ->
                      linked (in_region mat k) a b)
    /\ (exists r c, (r < 9)%nat /\ (c < 9)%nat
                    /\ get mat r c <> Jigsaw.standard_box_mapping r c)
    /\ (exists ks : list Z,
           NoDup ks /\ (4 <= length ks)%nat
           /\ forall k, In k ks ->
                exists a b, in_region mat k a /\ in_region mat k b
                            /\ Jigsaw.standard_box_mapping (fst a) (snd a)
                               <> Jigsaw.standard_box_mapping (fst b) (snd b)).
Proof.
  intros max_restarts rng mat rng' E. unfold Jigsaw.generate_regions in E.
  destruct (restart_loop_spec (Z.to_nat max_restarts)
              (cells_of Jigsaw.GRID_SIZE) rng (Permutation_refl _))
    as [out [rng1 [E1 Hout]]].
  rewrite E in E1. injection E1 as <- <-.
  destruct Hout as [Hout|[mat' [Hout Hvalid]]]; [discriminate|].
  injection Hout as <-. exact Hvalid.
Qed.

Lemma C3_generated_regions_witness :
  wf_grid 9 sample_regions
  /\ (forall r c, (r < 9)%nat -> (c < 9)%nat -> 0 <= get sample_regions r c < 9)
  /\ (forall k, 0 <= k < 9 ->
                length (region_cells 9 (jigsaw_region sample_regions) k)
                = 9%nat)
  /\ (forall k a b, in_region sample_regions k a ->
                    in_region sample_regions k b ->
                    linked (in_region sample_regions k) a b)
  /\ (exists r c, (r < 9)%nat /\ (c < 9)%nat
                  /\ get sample_regions r c
                     <> Jigsaw.standard_box_mapping r c)
  /\ (exists ks : list Z,
         NoDup ks /\ (4 <= length ks)%nat
         /\ forall k, In k ks ->
              exists a b, in_region sample_regions k a
                          /\ in_region sample_regions k b
                          /\ Jigsaw.standard_box_mapping (fst a) (snd a)
                             <> Jigsaw.standard_box_mapping (fst b) (snd b)).
Proof.
  apply (C3_generated_regions_are_valid 300 [] sample_regions []).
  vm_compute. reflexivity.
Defined.

(** C7.  [generate_regions] always returns: with a valid map, or, when
    none of its at most [max_restarts] attempts produced one, with the
    [RuntimeError] it raises; it never returns an invalid map.  Each
    attempt ends: a pass of the growth loop that reports progress has
    claimed at least one of the cells still unclaimed, so one pass more
    than there are unclaimed cells is enough.  With no restart allowed the
    error is raised at once. *)
Theorem C7_generate_regions_terminates :
  (forall (max_restarts : Z) (rng : Rng),
      exists out rng',
        Jigsaw.generate_regions max_restarts rng = Some (out, rng')
        /\ (out = RuntimeError
            \/ exists mat, out = Ok mat /\ valid_region_map mat))
  /\ (forall (all_cells : list Cell) (rng : Rng),
         Permutation all_cells (cells_of 9) ->
         exists a cells' rng',
           Jigsaw.attempt_once all_cells rng = Some (a, cells', rng'))
  /\ (forall (order : list nat) (regions : list (list Cell))
            (region_of : Grid) (rng : Rng),
         (forall i, In i order -> (i < 9)%nat) ->
         regions_inv regions region_of ->
         match Jigsaw.grow_pass order regions region_of false rng with
         | (_, region_of', made_progress, _) =>
             made_progress = true ->
             (Jigsaw.unclaimed region_of' < Jigsaw.unclaimed region_of)%nat
         end)
  /\ (forall (regions : list (list Cell)) (region_of : Grid) (rng : Rng),
         regions_inv regions region_of ->
         exists a rng',
           Jigsaw.grow (S (Jigsaw.unclaimed region_of)) regions region_of rng
           = Some (a, rng'))
  /\ (forall rng : Rng,
         Jigsaw.generate_regions 0 rng = Some (RuntimeError, rng)).
Proof.
  split; [|split; [|split; [|split]]].
  - intros max_restarts rng. unfold Jigsaw.generate_regions.
    apply restart_loop_spec. apply Permutation_refl.
  - intros all_cells rng Hperm.
    destruct (attempt_once_spec all_cells rng Hperm)
      as [a [cells' [rng' [E _]]]].
    exists a, cells', rng'. assumption.
  - intros order regions region_of rng Hord Hinv.
    pose proof (grow_pass_spec order Hord regions region_of false rng Hinv)
      as H.
    destruct (Jigsaw.grow_pass order regions region_of false rng)
      as [[[regions' region_of'] mp] rng'].
    destruct H as [_ [_ H]]. intros Hmp.
    destruct (H Hmp) as [H'|H']; [discriminate|assumption].
  - intros regions region_of rng Hinv.
    destruct (grow_spec (S (Jigsaw.unclaimed region_of)) regions region_of
                        rng Hinv (Nat.lt_succ_diag_r _)) as [a [rng' [E _]]].
    exists a, rng'. assumption.
  - intros rng. reflexivity.
Qed.

Lemma C7_generate_regions_witness :
  (exists a cells' rng',
      Jigsaw.attempt_once (cells_of 9) [] = Some (a, cells', rng'))
  /\ (exists a rng',
         Jigsaw.grow (S (Jigsaw.unclaimed (const_grid 9 (-1))))
                     (repeat [] 9) (const_grid 9 (-1)) []
         = Some (a, rng'))
  /\ (match Jigsaw.grow_pass [0%nat] (repeat [] 9) (const_grid 9 (-1))
                             false [] with
      | (_, region_of', made_progress, _) =>
          made_progress = true ->
          (Jigsaw.unclaimed region_of'
           < Jigsaw.unclaimed (const_grid 9 (-1)))%nat
      end).
Proof.
  destruct C7_generate_regions_terminates as [_ [H2 [H3 [H4 _]]]].
  split; [|split].
  - apply H2. apply Permutation_refl.
  - apply H4. exact initial_regions_inv.
  - apply H3.
    + intros i [<-|[]]. lia.
    + exact initial_regions_inv.
Defined.
